(** * The benchmarks of benchmarks.cpp

    A shallow embedding of [benchmarks.cpp].

    The second half of the file (the [Barrier] class and the five [BM_*]
    functions registered with [UseManualTime]) is an interleaving
    transition system.  Every transition is one atomic action of one
    thread: an operation on a [std::atomic] (sequentially consistent, the
    default of the overloaded operators the source uses), one load or one
    store of a plain variable, one mutex acquisition or release, or one
    call into the framework or the clock.  A run is the fold of the
    transition function over a schedule.

    The first half (the function-call and the cache-miss benchmarks) is
    sequential: a benchmark is the list of values its loop hands to
    [benchmark::DoNotOptimize], or [None] when the run meets undefined
    behaviour.  Time is not modelled there. *)

From stdpp Require Import base list.
From Stdlib Require Import ZArith Lia.

Local Open Scope Z_scope.

(** ** Machine integers *)

(** [std::uint32_t]: arithmetic modulo 2^32. *)
Definition wrap_u32 (z : Z) : Z := z mod 2 ^ 32.

(** [std::atomic_int32_t]: two's complement, wrapping (atomic arithmetic on
    signed integers has no undefined overflow). *)
Definition wrap_i32 (z : Z) : Z := (z + 2 ^ 31) mod 2 ^ 32 - 2 ^ 31.

Definition INT_MAX : Z := 2 ^ 31 - 1.

(** ** class Barrier *)

Record Barrier := mkBarrier {
  _numThreadsArrived : Z;   (* std::atomic_int32_t, initialised {0} *)
  _numTotalThreads : Z      (* int *)
}.

(** [Barrier(int numTotalThreads)] *)
Definition Barrier_new (numTotalThreads : Z) : Barrier :=
  {| _numThreadsArrived := 0; _numTotalThreads := numTotalThreads |}.

(** [++_numThreadsArrived;] one atomic read-modify-write. *)
Definition arrive (b : Barrier) : Barrier :=
  {| _numThreadsArrived := wrap_i32 (_numThreadsArrived b + 1);
     _numTotalThreads := _numTotalThreads b |}.

(** The condition of [while (_numThreadsArrived < _numTotalThreads) {}]:
    one atomic load and a comparison. *)
Definition must_spin (b : Barrier) : bool :=
  _numThreadsArrived b <? _numTotalThreads b.

(** Where a thread stands in its call of [arriveAndWait()]. *)
Inductive CallPc :=
| Calling     (* about to execute the increment *)
| Polling     (* in the while loop *)
| Returned.   (* the call has returned *)

(** One atomic action of [arriveAndWait()].  The loop body is empty: a
    thread that finds the condition true evaluates it again, and nothing
    else can end the loop. *)
Definition arriveAndWait_step (pc : CallPc) (b : Barrier) : CallPc * Barrier :=
  match pc with
  | Calling => (Polling, arrive b)
  | Polling => if must_spin b then (Polling, b) else (Returned, b)
  | Returned => (Returned, b)
  end.

(** ** A barrier used by any number of threads

    [callers] holds one [CallPc] per thread that calls [arriveAndWait()]
    once; scheduling thread [i] lets it do one atomic action. *)
Module Rendezvous.

Record State := mkState {
  barrier : Barrier;
  callers : list CallPc
}.

Definition init (numTotalThreads : Z) (numCallers : nat) : State :=
  {| barrier := Barrier_new numTotalThreads;
     callers := replicate numCallers Calling |}.

Definition step (i : nat) (st : State) : State :=
  match callers st !! i with
  | None => st
  | Some pc =>
      let '(pc', b') := arriveAndWait_step pc (barrier st) in
      {| barrier := b'; callers := <[i := pc']> (callers st) |}
  end.

(** The state after the first [n] steps of a schedule; [sched k] is the
    thread that takes step [k]. *)
Fixpoint run_upto (sched : nat -> nat) (n : nat) (st : State) : State :=
  match n with
  | O => st
  | S n' => step (sched n') (run_upto sched n' st)
  end.

(** Every thread gets scheduled again and again. *)
Definition fair (numCallers : nat) (sched : nat -> nat) : Prop :=
  forall i n, (i < numCallers)%nat -> exists m, (n <= m)%nat /\ sched m = i.

(** Threads that have executed the increment. *)
Fixpoint arrived (pcs : list CallPc) : Z :=
  match pcs with
  | [] => 0
  | Calling :: pcs' => arrived pcs'
  | _ :: pcs' => 1 + arrived pcs'
  end.

(** What every reachable state satisfies when no more threads call than an
    [int] can count. *)
Record inv (total : Z) (K : nat) (st : State) : Prop := mkInv {
  inv_total : _numTotalThreads (barrier st) = total;
  inv_length : length (callers st) = K;
  inv_count : _numThreadsArrived (barrier st) = arrived (callers st);
  inv_released : forall i, callers st !! i = Some Returned ->
                           total <= arrived (callers st)
}.

(** The schedule that runs the threads in turn. *)
Definition round_robin (K : nat) (k : nat) : nat := (k mod K)%nat.

End Rendezvous.

(** ** The five contention benchmarks *)

Definition kNumIterationsFalseSharing : Z := 1000000.
Definition kNumIterationsMutex : Z := 1000000.

(** What the loop body of the two worker lambdas does. *)
Inductive Scenario :=
| OwnCounter      (* a: ++counterA.val   b: ++counterB.val   (plain uint32_t) *)
| SharedMutex     (* lock_guard lk(mtx); ++counter;  mtx, counter of the function *)
| PrivateMutex    (* the same on a mtx and a counter declared inside the lambda *)
| AtomicCounter.  (* ++counter on the trial's std::atomic_int32_t *)

Record Benchmark := mkBenchmark {
  counterAlignas : option Z;  (* the alignas(...) of struct Counter, if any *)
  barrierArg : Z;             (* the argument of Barrier barrier(...) *)
  numIterations : Z;          (* the bound of the workers' for loops *)
  scenario : Scenario
}.

Definition BM_falseSharing : Benchmark :=
  {| counterAlignas := None; barrierArg := 3;
     numIterations := kNumIterationsFalseSharing; scenario := OwnCounter |}.

Definition BM_noFalseSharing : Benchmark :=
  {| counterAlignas := Some 128; barrierArg := 3;
     numIterations := kNumIterationsFalseSharing; scenario := OwnCounter |}.

Definition BM_useMutex : Benchmark :=
  {| counterAlignas := None; barrierArg := 3;
     numIterations := kNumIterationsMutex; scenario := SharedMutex |}.

Definition BM_useMutexNoContention : Benchmark :=
  {| counterAlignas := None; barrierArg := 2;
     numIterations := kNumIterationsMutex; scenario := PrivateMutex |}.

Definition BM_useAtomic : Benchmark :=
  {| counterAlignas := None; barrierArg := 2;
     numIterations := kNumIterationsMutex; scenario := AtomicCounter |}.

(** The two [std::thread]s of a trial, and all three threads. *)
Inductive Worker := ThreadA | ThreadB.
Inductive Tid := W (w : Worker) | Main.

(** What a schedule is made of: a thread does one atomic action, or the
    clock advances by one tick. *)
Inductive Event := Run (t : Tid) | Tick.

(** The variables a benchmark function declares before its
    [for (auto _ : state)] loop; they live across trials. *)
Record Outer := mkOuter {
  counterA : Z;           (* BM_falseSharing, BM_noFalseSharing *)
  counterB : Z;
  counter : Z;            (* BM_useMutex *)
  mtx : option Worker     (* BM_useMutex: the thread holding the mutex *)
}.

Definition Outer_init : Outer :=
  {| counterA := 0; counterB := 0; counter := 0; mtx := None |}.

(** Program points of a worker lambda; [i] is the loop variable, [r] the
    value loaded by the first half of a plain [++]. *)
Inductive WorkerPc :=
| NotStarted
| InBarrier (c : CallPc)
| LoopTest (i : Z)
| Lock (i : Z)
| Load (i : Z)
| Store (i r : Z)
| AtomicInc (i : Z)
| Unlock (i : Z)
| Exited.

Record Frame := mkFrame {
  pc : WorkerPc;
  local_counter : Z;    (* BM_useMutexNoContention: std::uint32_t counter *)
  local_mtx : bool      (* BM_useMutexNoContention: std::mutex mtx, locked? *)
}.

Inductive MainPc :=
| SpawnA
| SpawnB
| MainBarrier (c : CallPc)
| JoinA
| JoinB
| TakeEnd
| Report
| TrialDone.

(** The [double] that [duration_cast<duration<double>>(d).count()] gives
    for a difference [d] of two clock readings, kept symbolically: the
    division by the clock period and its rounding are not modelled. *)
Inductive Seconds := elapsed_seconds (d : Z).

(** What the measuring thread does, in order. *)
Inductive MainEvent :=
| EvSpawn (w : Worker)
| EvArrive
| EvBarrierReturn
| EvNow (t : Z)
| EvJoin (w : Worker)
| EvSetIterationTime (s : Seconds).

Record State := mkState {
  outer : Outer;
  barrier : Barrier;             (* Barrier barrier(...) of this trial *)
  atomic_counter : Z;            (* BM_useAtomic: counter{0} of this trial *)
  frame_a : Frame;
  frame_b : Frame;
  main_pc : MainPc;
  start : Z;
  end_ : Z;
  now : Z;                       (* high_resolution_clock *)
  reports : list Seconds;        (* the calls of state.SetIterationTime *)
  log : list MainEvent
}.

Definition set_outer (o : Outer) (st : State) : State :=
  mkState o (barrier st) (atomic_counter st) (frame_a st) (frame_b st)
    (main_pc st) (start st) (end_ st) (now st) (reports st) (log st).

Definition set_barrier (b : Barrier) (st : State) : State :=
  mkState (outer st) b (atomic_counter st) (frame_a st) (frame_b st)
    (main_pc st) (start st) (end_ st) (now st) (reports st) (log st).

Definition set_atomic (v : Z) (st : State) : State :=
  mkState (outer st) (barrier st) v (frame_a st) (frame_b st)
    (main_pc st) (start st) (end_ st) (now st) (reports st) (log st).

Definition frame (w : Worker) (st : State) : Frame :=
  match w with ThreadA => frame_a st | ThreadB => frame_b st end.

Definition set_frame (w : Worker) (f : Frame) (st : State) : State :=
  match w with
  | ThreadA =>
      mkState (outer st) (barrier st) (atomic_counter st) f (frame_b st)
        (main_pc st) (start st) (end_ st) (now st) (reports st) (log st)
  | ThreadB =>
      mkState (outer st) (barrier st) (atomic_counter st) (frame_a st) f
        (main_pc st) (start st) (end_ st) (now st) (reports st) (log st)
  end.

Definition set_pc (w : Worker) (p : WorkerPc) (st : State) : State :=
  set_frame w (mkFrame p (local_counter (frame w st)) (local_mtx (frame w st))) st.

(** The measuring thread moves to [p] and logs what it just did. *)
Definition main_goes (p : MainPc) (ev : list MainEvent) (st : State) : State :=
  mkState (outer st) (barrier st) (atomic_counter st) (frame_a st) (frame_b st)
    p (start st) (end_ st) (now st) (reports st) (log st ++ ev).

Definition set_start (t : Z) (st : State) : State :=
  mkState (outer st) (barrier st) (atomic_counter st) (frame_a st) (frame_b st)
    (main_pc st) t (end_ st) (now st) (reports st) (log st).

Definition set_end (t : Z) (st : State) : State :=
  mkState (outer st) (barrier st) (atomic_counter st) (frame_a st) (frame_b st)
    (main_pc st) (start st) t (now st) (reports st) (log st).

Definition set_now (t : Z) (st : State) : State :=
  mkState (outer st) (barrier st) (atomic_counter st) (frame_a st) (frame_b st)
    (main_pc st) (start st) (end_ st) t (reports st) (log st).

Definition SetIterationTime (s : Seconds) (st : State) : State :=
  mkState (outer st) (barrier st) (atomic_counter st) (frame_a st) (frame_b st)
    (main_pc st) (start st) (end_ st) (now st) (reports st ++ [s]) (log st).

Definition set_mtx (m : option Worker) (st : State) : State :=
  set_outer (mkOuter (counterA (outer st)) (counterB (outer st))
               (counter (outer st)) m) st.

(** The counter a worker's [++] names. *)
Definition read_counter (sc : Scenario) (w : Worker) (st : State) : Z :=
  match sc, w with
  | OwnCounter, ThreadA => counterA (outer st)
  | OwnCounter, ThreadB => counterB (outer st)
  | SharedMutex, _ => counter (outer st)
  | PrivateMutex, _ => local_counter (frame w st)
  | AtomicCounter, _ => atomic_counter st
  end.

Definition write_counter (sc : Scenario) (w : Worker) (v : Z) (st : State) : State :=
  match sc, w with
  | OwnCounter, ThreadA =>
      set_outer (mkOuter v (counterB (outer st)) (counter (outer st))
                   (mtx (outer st))) st
  | OwnCounter, ThreadB =>
      set_outer (mkOuter (counterA (outer st)) v (counter (outer st))
                   (mtx (outer st))) st
  | SharedMutex, _ =>
      set_outer (mkOuter (counterA (outer st)) (counterB (outer st)) v
                   (mtx (outer st))) st
  | PrivateMutex, _ =>
      set_frame w (mkFrame (pc (frame w st)) v (local_mtx (frame w st))) st
  | AtomicCounter, _ => set_atomic v st
  end.

(** One atomic action of a worker lambda:
<<
    barrier.arriveAndWait();
    [std::mutex mtx; std::uint32_t counter{0};]       (PrivateMutex)
    for (auto i = 0; i < kNumIterations; ++i) {
        [std::lock_guard lk(mtx);]                    (the two mutex scenarios)
        benchmark::DoNotOptimize(++counter);
    }
>>
    A plain [++] is a load followed by a store; the [++] of the atomic is
    one action.  A thread that cannot proceed (mutex taken) stays put. *)
Definition worker_step (bm : Benchmark) (w : Worker) (st : State) : State :=
  let f := frame w st in
  match pc f with
  | NotStarted => st
  | InBarrier Returned =>
      match scenario bm with
      | PrivateMutex => set_frame w (mkFrame (LoopTest 0) 0 false) st
      | _ => set_pc w (LoopTest 0) st
      end
  | InBarrier c =>
      let '(c', b') := arriveAndWait_step c (barrier st) in
      set_pc w (InBarrier c') (set_barrier b' st)
  | LoopTest i =>
      if i <? numIterations bm then
        set_pc w match scenario bm with
                 | OwnCounter => Load i
                 | SharedMutex | PrivateMutex => Lock i
                 | AtomicCounter => AtomicInc i
                 end st
      else set_pc w Exited st
  | Lock i =>
      match scenario bm with
      | SharedMutex =>
          match mtx (outer st) with
          | None => set_pc w (Load i) (set_mtx (Some w) st)
          | Some _ => st
          end
      | PrivateMutex =>
          if local_mtx f then st
          else set_frame w (mkFrame (Load i) (local_counter f) true) st
      | _ => st
      end
  | Load i => set_pc w (Store i (read_counter (scenario bm) w st)) st
  | Store i r =>
      set_pc w match scenario bm with
               | SharedMutex | PrivateMutex => Unlock i
               | _ => LoopTest (i + 1)
               end
        (write_counter (scenario bm) w (wrap_u32 (r + 1)) st)
  | AtomicInc i =>
      set_pc w (LoopTest (i + 1))
        (set_atomic (wrap_i32 (atomic_counter st + 1)) st)
  | Unlock i =>
      match scenario bm with
      | SharedMutex => set_pc w (LoopTest (i + 1)) (set_mtx None st)
      | PrivateMutex =>
          set_frame w (mkFrame (LoopTest (i + 1)) (local_counter f) false) st
      | _ => st
      end
  | Exited => st
  end.

(** What one action of [arriveAndWait()] adds to the measuring thread's log. *)
Definition barrier_events (c c' : CallPc) : list MainEvent :=
  match c, c' with
  | Calling, _ => [EvArrive]
  | Polling, Returned => [EvBarrierReturn]
  | _, _ => []
  end.

Definition exited (w : Worker) (st : State) : bool :=
  match pc (frame w st) with Exited => true | _ => false end.

(** One atomic action of the thread that runs the benchmark function, inside
    one iteration of [for (auto _ : state)]:
<<
    std::thread a(...);  std::thread b(...);
    barrier.arriveAndWait();
    auto start = std::chrono::high_resolution_clock::now();
    a.join();  b.join();
    auto end = std::chrono::high_resolution_clock::now();
    state.SetIterationTime(duration_cast<duration<double>>(end - start).count());
>> *)
Definition main_step (bm : Benchmark) (st : State) : State :=
  match main_pc st with
  | SpawnA =>
      main_goes SpawnB [EvSpawn ThreadA] (set_pc ThreadA (InBarrier Calling) st)
  | SpawnB =>
      main_goes (MainBarrier Calling) [EvSpawn ThreadB]
        (set_pc ThreadB (InBarrier Calling) st)
  | MainBarrier Returned =>
      main_goes JoinA [EvNow (now st)] (set_start (now st) st)
  | MainBarrier c =>
      let '(c', b') := arriveAndWait_step c (barrier st) in
      main_goes (MainBarrier c') (barrier_events c c') (set_barrier b' st)
  | JoinA =>
      if exited ThreadA st then main_goes JoinB [EvJoin ThreadA] st else st
  | JoinB =>
      if exited ThreadB st then main_goes TakeEnd [EvJoin ThreadB] st else st
  | TakeEnd =>
      main_goes Report [EvNow (now st)] (set_end (now st) st)
  | Report =>
      let s := elapsed_seconds (end_ st - start st) in
      main_goes TrialDone [EvSetIterationTime s] (SetIterationTime s st)
  | TrialDone => st
  end.

Definition step (bm : Benchmark) (e : Event) (st : State) : State :=
  match e with
  | Run (W w) => worker_step bm w st
  | Run Main => main_step bm st
  | Tick => set_now (now st + 1) st
  end.

Definition run (bm : Benchmark) (sched : list Event) (st : State) : State :=
  foldl (fun s e => step bm e s) st sched.

(** The start of one iteration of [for (auto _ : state)]: the barrier and
    (in BM_useAtomic) the atomic counter are constructed afresh, the outer
    variables are whatever the previous iteration left. *)
Definition start_trial (bm : Benchmark) (o : Outer) (clk : Z) : State :=
  {| outer := o;
     barrier := Barrier_new (barrierArg bm);
     atomic_counter := 0;
     frame_a := mkFrame NotStarted 0 false;
     frame_b := mkFrame NotStarted 0 false;
     main_pc := SpawnA;
     start := 0; end_ := 0;
     now := clk;
     reports := [];
     log := [] |}.

Definition finished (st : State) : bool :=
  match main_pc st with TrialDone => true | _ => false end.

(** A whole benchmark invocation: the outer variables are initialised once,
    then the framework runs the loop body once per schedule.  [None] when
    some trial's schedule ends before the trial does. *)
Fixpoint trials (bm : Benchmark) (o : Outer) (clk : Z)
    (scheds : list (list Event)) : option (list State) :=
  match scheds with
  | [] => Some []
  | s :: rest =>
      let st := run bm s (start_trial bm o clk) in
      if finished st then
        match trials bm (outer st) (now st) rest with
        | Some sts => Some (st :: sts)
        | None => None
        end
      else None
  end.

Definition invoke (bm : Benchmark) (scheds : list (list Event)) : option (list State) :=
  trials bm Outer_init 0 scheds.

(** ** What holds throughout a trial *)

(** Increments a worker has completed in this trial, read off its program
    point; [n] is the loop bound. *)
Definition completed (n : Z) (p : WorkerPc) : Z :=
  match p with
  | NotStarted | InBarrier _ => 0
  | LoopTest i | Lock i | Load i | Store i _ | AtomicInc i => i
  | Unlock i => i + 1
  | Exited => Z.max 0 n
  end.

(** The program point belongs to the scenario's loop body and its loop
    variable is within the bound. *)
Definition pc_ok (sc : Scenario) (n : Z) (p : WorkerPc) : Prop :=
  match p with
  | NotStarted | InBarrier _ | Exited => True
  | LoopTest i => 0 <= i <= Z.max 0 n
  | Lock i | Unlock i =>
      0 <= i < n /\ match sc with SharedMutex | PrivateMutex => True | _ => False end
  | Load i | Store i _ =>
      0 <= i < n /\ match sc with AtomicCounter => False | _ => True end
  | AtomicInc i =>
      0 <= i < n /\ match sc with AtomicCounter => True | _ => False end
  end.

(** Between the constructor of [lock_guard] and its destructor. *)
Definition holds_lock (p : WorkerPc) : bool :=
  match p with Load _ | Store _ _ | Unlock _ => true | _ => false end.

Definition in_loop (p : WorkerPc) : bool :=
  match p with NotStarted | InBarrier _ => false | _ => true end.

(** Has the thread executed the barrier's increment (1) or not (0)? *)
Definition worker_arrived (p : WorkerPc) : Z :=
  match p with NotStarted | InBarrier Calling => 0 | _ => 1 end.

Definition main_arrived (p : MainPc) : Z :=
  match p with SpawnA | SpawnB | MainBarrier Calling => 0 | _ => 1 end.

(** Has the thread's [arriveAndWait()] returned? *)
Definition worker_released (p : WorkerPc) : bool :=
  match p with NotStarted | InBarrier Calling | InBarrier Polling => false | _ => true end.

Definition main_released (p : MainPc) : bool :=
  match p with
  | SpawnA | SpawnB | MainBarrier Calling | MainBarrier Polling => false
  | _ => true
  end.

(** Has the measuring thread read the clock for [start]? *)
Definition timing_started (p : MainPc) : bool :=
  match p with
  | SpawnA | SpawnB | MainBarrier _ => false
  | _ => true
  end.

(** The barrier counts the threads that have arrived, nobody is released
    before the count reaches the constructor's argument, and a worker runs
    only once it has been spawned. *)
Record barrier_inv (bm : Benchmark) (st : State) : Prop := mkBarrierInv {
  bi_total : _numTotalThreads (barrier st) = barrierArg bm;
  bi_count : _numThreadsArrived (barrier st)
             = worker_arrived (pc (frame_a st)) + worker_arrived (pc (frame_b st))
               + main_arrived (main_pc st);
  bi_main : main_released (main_pc st) = true ->
            barrierArg bm <= _numThreadsArrived (barrier st);
  bi_worker : forall w, worker_released (pc (frame w st)) = true ->
              barrierArg bm <= _numThreadsArrived (barrier st);
  bi_spawn_a : main_pc st = SpawnA -> pc (frame_a st) = NotStarted;
  bi_spawn_b : main_pc st = SpawnA \/ main_pc st = SpawnB ->
               pc (frame_b st) = NotStarted
}.

(** The counters hold what the completed increments account for; [o0] is
    what the outer variables were when the trial began. *)
Definition counters_inv (bm : Benchmark) (o0 : Outer) (st : State) : Prop :=
  let n := numIterations bm in
  let pa := pc (frame_a st) in
  let pb := pc (frame_b st) in
  match scenario bm with
  | OwnCounter =>
      counterA (outer st) = wrap_u32 (counterA o0 + completed n pa) /\
      counterB (outer st) = wrap_u32 (counterB o0 + completed n pb)
  | SharedMutex =>
      counter (outer st) = wrap_u32 (counter o0 + (completed n pa + completed n pb)) /\
      mtx (outer st) = (if holds_lock pa then Some ThreadA
                        else if holds_lock pb then Some ThreadB else None) /\
      holds_lock pa && holds_lock pb = false
  | PrivateMutex =>
      forall w, in_loop (pc (frame w st)) = true ->
        local_counter (frame w st) = wrap_u32 (completed n (pc (frame w st))) /\
        local_mtx (frame w st) = holds_lock (pc (frame w st))
  | AtomicCounter =>
      atomic_counter st = wrap_i32 (completed n pa + completed n pb)
  end.

(** The outer variables as a trial of the scenario may find them: the
    counters it uses within [uint32_t], its mutex free. *)
Definition Outer_ok (sc : Scenario) (o : Outer) : Prop :=
  match sc with
  | OwnCounter => 0 <= counterA o < 2 ^ 32 /\ 0 <= counterB o < 2 ^ 32
  | SharedMutex => 0 <= counter o < 2 ^ 32 /\ mtx o = None
  | PrivateMutex | AtomicCounter => True
  end.

Record trial_inv (bm : Benchmark) (o0 : Outer) (st : State) : Prop := mkTrialInv {
  ti_pc : forall w, pc_ok (scenario bm) (numIterations bm) (pc (frame w st));
  (* the value loaded by the first half of a [++] is still the counter's *)
  ti_store : forall w i r, pc (frame w st) = Store i r ->
                           r = read_counter (scenario bm) w st;
  ti_counters : counters_inv bm o0 st
}.

(** The log the measuring thread has written when it stands at [p], given
    the two clock readings it has taken. *)
Definition expected_log (p : MainPc) (t0 t1 : Z) : list MainEvent :=
  match p with
  | SpawnA => []
  | SpawnB => [EvSpawn ThreadA]
  | MainBarrier Calling => [EvSpawn ThreadA; EvSpawn ThreadB]
  | MainBarrier Polling => [EvSpawn ThreadA; EvSpawn ThreadB; EvArrive]
  | MainBarrier Returned =>
      [EvSpawn ThreadA; EvSpawn ThreadB; EvArrive; EvBarrierReturn]
  | JoinA =>
      [EvSpawn ThreadA; EvSpawn ThreadB; EvArrive; EvBarrierReturn; EvNow t0]
  | JoinB =>
      [EvSpawn ThreadA; EvSpawn ThreadB; EvArrive; EvBarrierReturn; EvNow t0;
       EvJoin ThreadA]
  | TakeEnd =>
      [EvSpawn ThreadA; EvSpawn ThreadB; EvArrive; EvBarrierReturn; EvNow t0;
       EvJoin ThreadA; EvJoin ThreadB]
  | Report =>
      [EvSpawn ThreadA; EvSpawn ThreadB; EvArrive; EvBarrierReturn; EvNow t0;
       EvJoin ThreadA; EvJoin ThreadB; EvNow t1]
  | TrialDone =>
      [EvSpawn ThreadA; EvSpawn ThreadB; EvArrive; EvBarrierReturn; EvNow t0;
       EvJoin ThreadA; EvJoin ThreadB; EvNow t1;
       EvSetIterationTime (elapsed_seconds (t1 - t0))]
  end.

Definition joined_a (p : MainPc) : bool :=
  match p with JoinB | TakeEnd | Report | TrialDone => true | _ => false end.

Definition joined_b (p : MainPc) : bool :=
  match p with TakeEnd | Report | TrialDone => true | _ => false end.

Definition end_taken (p : MainPc) : bool :=
  match p with Report | TrialDone => true | _ => false end.

Record main_inv (st : State) : Prop := mkMainInv {
  mi_log : log st = expected_log (main_pc st) (start st) (end_ st);
  mi_reports : reports st
               = match main_pc st with
                 | TrialDone => [elapsed_seconds (end_ st - start st)]
                 | _ => []
                 end;
  mi_join_a : joined_a (main_pc st) = true -> pc (frame_a st) = Exited;
  mi_join_b : joined_b (main_pc st) = true -> pc (frame_b st) = Exited;
  mi_start : timing_started (main_pc st) = true -> start st <= now st;
  mi_end : end_taken (main_pc st) = true -> start st <= end_ st <= now st
}.


(** ** A schedule under which a trial completes *)

Definition other (w : Worker) : Worker :=
  match w with ThreadA => ThreadB | ThreadB => ThreadA end.

(** Atomic actions in one pass through the loop, the test included. *)
Definition steps_per_iteration (sc : Scenario) : Z :=
  match sc with
  | OwnCounter => 3
  | SharedMutex | PrivateMutex => 5
  | AtomicCounter => 2
  end.

(** Atomic actions a worker that is never held up still has to do. *)
Definition remaining (bm : Benchmark) (p : WorkerPc) : Z :=
  let n := Z.max 0 (numIterations bm) in
  let k := steps_per_iteration (scenario bm) in
  match p with
  | NotStarted => k * n + 5
  | InBarrier Calling => k * n + 4
  | InBarrier Polling => k * n + 3
  | InBarrier Returned => k * n + 2
  | LoopTest i => k * (n - i) + 1
  | Lock i | AtomicInc i => k * (n - i)
  | Load i =>
      match scenario bm with OwnCounter => 3 * (n - i) | _ => 5 * (n - i) - 1 end
  | Store i _ =>
      match scenario bm with OwnCounter => 3 * (n - i) - 1 | _ => 5 * (n - i) - 2 end
  | Unlock i => 5 * (n - i) - 3
  | Exited => 0
  end.

Definition worker_steps (bm : Benchmark) : nat :=
  Z.to_nat (5 * Z.max 0 (numIterations bm) + 3).

(** Spawn both workers, let all three threads arrive, let the measuring
    thread leave the barrier and read the clock. *)
Definition sequential_prefix : list Event :=
  [Run Main; Run Main; Run (W ThreadA); Run (W ThreadB);
   Run Main; Run Main; Run Main; Tick].

(** Then run thread a to its end, then thread b, then let the measuring
    thread join, read the clock and report. *)
Definition sequential_schedule (bm : Benchmark) : list Event :=
  sequential_prefix
  ++ repeat (Run (W ThreadA)) (worker_steps bm)
  ++ repeat (Run (W ThreadB)) (worker_steps bm)
  ++ [Tick; Run Main; Run Main; Run Main; Run Main].

(** A schedule in which thread a and the measuring thread arrive at the
    barrier, the measuring thread polls once and then reads the clock, and
    thread b has not run at all. *)
Definition early_start_schedule : list Event :=
  [Run Main; Run Main; Run (W ThreadA); Run Main; Run Main; Run Main].

(** ** Memory layout of the counters *)

(** The index of the cache line, of [line] bytes, that holds [addr]. *)
Definition cache_line (line addr : Z) : Z := addr / line.

(** [addr] honours an [alignas(a)]. *)
Definition aligned (a addr : Z) : Prop := addr mod a = 0.

(** ** More schedules *)

(** Both workers are spawned and all three threads execute the barrier's
    increment. *)
Definition arrivals : list Event :=
  [Run Main; Run Main; Run (W ThreadA); Run (W ThreadB); Run Main].

(** Both workers in the loop of a mutex benchmark: thread b has taken the
    mutex and loaded the counter, thread a has come to its [lock()]. *)
Definition contended_schedule : list Event :=
  arrivals
  ++ [Run (W ThreadB); Run (W ThreadB); Run (W ThreadB); Run (W ThreadB);
      Run (W ThreadA); Run (W ThreadA); Run (W ThreadA)].

(** After the arrivals thread a runs to its end, then thread b, and only
    then does the measuring thread poll the barrier and read the clock. *)
Definition work_before_start_schedule (bm : Benchmark) : list Event :=
  arrivals
  ++ repeat (Run (W ThreadA)) (worker_steps bm)
  ++ repeat (Run (W ThreadB)) (worker_steps bm)
  ++ [Run Main; Run Main].

(** ** Unending schedules *)

(** The state after the first [n] events of an unending schedule. *)
Fixpoint run_prefix (bm : Benchmark) (sched : nat -> Event) (n : nat)
    (st : State) : State :=
  match n with
  | O => st
  | S n' => step bm (sched n') (run_prefix bm sched n' st)
  end.

(** Every thread is scheduled again and again. *)
Definition fair_schedule (sched : nat -> Event) : Prop :=
  forall t n, exists m, (n <= m)%nat /\ sched m = Run t.

(** Atomic actions the measuring thread still has to do. *)
Definition main_remaining (p : MainPc) : Z :=
  match p with
  | SpawnA => 9
  | SpawnB => 8
  | MainBarrier Calling => 7
  | MainBarrier Polling => 6
  | MainBarrier Returned => 5
  | JoinA => 4
  | JoinB => 3
  | TakeEnd => 2
  | Report => 1
  | TrialDone => 0
  end.

(** Atomic actions left in the whole trial. *)
Definition work_left (bm : Benchmark) (st : State) : Z :=
  remaining bm (pc (frame_a st)) + remaining bm (pc (frame_b st))
  + main_remaining (main_pc st).

(** The part of the state that decides what each thread does next: all of
    it but the clock, the two clock readings and what was logged. *)
Definition control (st : State)
    : Outer * Barrier * Z * Frame * Frame * MainPc :=
  (outer st, barrier st, atomic_counter st, frame_a st, frame_b st, main_pc st).

(** A worker has been spawned once the measuring thread is past its
    [std::thread] declaration. *)
Definition spawned_inv (st : State) : Prop :=
  (pc (frame_a st) = NotStarted -> main_pc st = SpawnA) /\
  (pc (frame_b st) = NotStarted -> main_pc st = SpawnA \/ main_pc st = SpawnB).

(** Round-robin over the three threads, with a clock tick after each round. *)
Definition round_robin_events (k : nat) : Event :=
  match (k mod 4)%nat with
  | 0%nat => Run Main
  | 1%nat => Run (W ThreadA)
  | 2%nat => Run (W ThreadB)
  | _ => Tick
  end.

(** ** The function-call benchmarks *)

Module FunctionCalls.

(** [++i] on an [int]: past [INT_MAX] the behaviour is undefined. *)
Definition pre_increment (i : Z) : option Z :=
  if decide (i < INT_MAX) then Some (i + 1) else None.

(** [class Parent]: the two pure virtual members. *)
Class Parent (T : Type) := {
  increment : T -> option T;
  get : T -> Z
}.

(** [class Child final : public Parent], with [int i{0}]. *)
Record Child := mkChild { Child_i : Z }.

Definition Child_new : Child := {| Child_i := 0 |}.

Definition Child_increment (c : Child) : option Child :=
  match pre_increment (Child_i c) with
  | Some i => Some {| Child_i := i |}
  | None => None
  end.

Definition Child_get (c : Child) : Z := Child_i c.

#[global] Instance Child_Parent : Parent Child := {|
  increment := Child_increment;
  get := Child_get
|}.

(** [std::unique_ptr<Parent>]: an object of some class together with that
    class's overrides; a call through the pointer goes through them. *)
Record ParentPtr := mkParentPtr {
  pointee : Type;
  vtable : Parent pointee;
  object : pointee
}.

Definition ParentPtr_increment (p : ParentPtr) : option ParentPtr :=
  match @increment _ (vtable p) (object p) with
  | Some o => Some {| pointee := pointee p; vtable := vtable p; object := o |}
  | None => None
  end.

Definition ParentPtr_get (p : ParentPtr) : Z := @get _ (vtable p) (object p).

(** [std::unique_ptr<Parent> parent = std::make_unique<Child>()] *)
Definition make_unique_Child : ParentPtr :=
  {| pointee := Child; vtable := Child_Parent; object := Child_new |}.

(** The two classes with virtual members.  Neither declares a destructor,
    so neither has a virtual one. *)
Inductive PolymorphicClass := class_Parent | class_Child.

Definition has_virtual_destructor (c : PolymorphicClass) : bool :=
  match c with
  | class_Parent => false
  | class_Child => false
  end.

(** [delete p], which is what a [std::unique_ptr] does when it goes out of
    scope: [static] is the class the pointer is declared with, [dynamic]
    the class of the object it points to.  Deleting an object of a derived
    class through a pointer to a base class whose destructor is not virtual
    is undefined. *)
Definition delete_object (static dynamic : PolymorphicClass) : option unit :=
  match static, dynamic with
  | class_Parent, class_Parent | class_Child, class_Child => Some tt
  | _, _ => if has_virtual_destructor static then Some tt else None
  end.

(** [class StandaloneNoInline], with [int i{0}]. *)
Record StandaloneNoInline := mkStandaloneNoInline { StandaloneNoInline_i : Z }.

Definition StandaloneNoInline_new : StandaloneNoInline :=
  {| StandaloneNoInline_i := 0 |}.

Definition StandaloneNoInline_increment (o : StandaloneNoInline)
    : option StandaloneNoInline :=
  match pre_increment (StandaloneNoInline_i o) with
  | Some i => Some {| StandaloneNoInline_i := i |}
  | None => None
  end.

Definition StandaloneNoInline_get (o : StandaloneNoInline) : Z :=
  StandaloneNoInline_i o.

(** [class StandaloneInline], with [int i{0}]. *)
Record StandaloneInline := mkStandaloneInline { StandaloneInline_i : Z }.

Definition StandaloneInline_new : StandaloneInline :=
  {| StandaloneInline_i := 0 |}.

Definition StandaloneInline_increment (o : StandaloneInline)
    : option StandaloneInline :=
  match pre_increment (StandaloneInline_i o) with
  | Some i => Some {| StandaloneInline_i := i |}
  | None => None
  end.

Definition StandaloneInline_get (o : StandaloneInline) : Z :=
  StandaloneInline_i o.

(** [for (auto _ : state) { ...; benchmark::DoNotOptimize(x); }]: the body
    changes the benchmark's variables and hands one value over; the run
    yields the values handed over, one per iteration. *)
Fixpoint benchmark_loop {St : Type} (iterations : nat)
    (body : St -> option (St * Z)) (s : St) : option (list Z) :=
  match iterations with
  | O => Some []
  | S n =>
      match body s with
      | Some (s', x) =>
          match benchmark_loop n body s' with
          | Some xs => Some (x :: xs)
          | None => None
          end
      | None => None
      end
  end.

(** A callable of type [void()] that captures the benchmark's variables by
    reference: what a call does to them. *)
Definition Callable (St : Type) : Type := St -> option St.

(** [std::function<void()>] holding such a callable. *)
Record std_function (St : Type) := mk_std_function { target : Callable St }.
Arguments mk_std_function {St} _.
Arguments target {St} _.

Definition std_function_call {St : Type} (f : std_function St) : Callable St :=
  target f.

(** [template <typename Callable> void functionThatCallsLambda(Callable&&)] *)
Definition functionThatCallsLambda {St : Type} (callable : Callable St)
    : Callable St :=
  fun s => callable s.

(** [void functionThatCallsFunction(std::function<void()>&&)] *)
Definition functionThatCallsFunction {St : Type} (callable : std_function St)
    : Callable St :=
  fun s => std_function_call callable s.

(** On return [parent], a [std::unique_ptr<Parent>] that holds the [Child]
    made by [std::make_unique<Child>()], is destroyed. *)
Definition BM_virtualFunctionCallsThroughPointerToParent (iterations : nat)
    : option (list Z) :=
  let parent := make_unique_Child in
  match
    benchmark_loop iterations
      (fun parent =>
         match ParentPtr_increment parent with
         | Some parent => Some (parent, ParentPtr_get parent)
         | None => None
         end) parent
  with
  | Some handed_over =>
      match delete_object class_Parent class_Child with
      | Some _ => Some handed_over
      | None => None
      end
  | None => None
  end.

(** On return [child], a [std::unique_ptr<Child>] that holds a [Child], is
    destroyed. *)
Definition BM_virtualFunctionCallsThroughPointerToChild (iterations : nat)
    : option (list Z) :=
  let child := Child_new in
  match
    benchmark_loop iterations
      (fun child =>
         match Child_increment child with
         | Some child => Some (child, Child_get child)
         | None => None
         end) child
  with
  | Some handed_over =>
      match delete_object class_Child class_Child with
      | Some _ => Some handed_over
      | None => None
      end
  | None => None
  end.

Definition BM_virtualFunctionCallsThroughInstanceOfChild (iterations : nat)
    : option (list Z) :=
  let child := Child_new in
  benchmark_loop iterations
    (fun child =>
       match Child_increment child with
       | Some child => Some (child, Child_get child)
       | None => None
       end) child.

Definition BM_nonVirtualNonInlineFunctionCall (iterations : nat)
    : option (list Z) :=
  let obj := StandaloneNoInline_new in
  benchmark_loop iterations
    (fun obj =>
       match StandaloneNoInline_increment obj with
       | Some obj => Some (obj, StandaloneNoInline_get obj)
       | None => None
       end) obj.

Definition BM_inlineFunctionCall (iterations : nat) : option (list Z) :=
  let obj := StandaloneInline_new in
  benchmark_loop iterations
    (fun obj =>
       match StandaloneInline_increment obj with
       | Some obj => Some (obj, StandaloneInline_get obj)
       | None => None
       end) obj.

Definition BM_noFunctionCall (iterations : nat) : option (list Z) :=
  let i := 0 in
  benchmark_loop iterations
    (fun i =>
       match pre_increment i with
       | Some i => Some (i, i)
       | None => None
       end) i.

Definition BM_stdFunctionCall (iterations : nat) : option (list Z) :=
  let i := 0 in
  let fn : std_function Z := mk_std_function (fun i => pre_increment i) in
  benchmark_loop iterations
    (fun i =>
       match std_function_call fn i with
       | Some i => Some (i, i)
       | None => None
       end) i.

Definition BM_lambdaFunctionCall (iterations : nat) : option (list Z) :=
  let i := 0 in
  let fn : Callable Z := fun i => pre_increment i in
  benchmark_loop iterations
    (fun i =>
       match fn i with
       | Some i => Some (i, i)
       | None => None
       end) i.

(** The two benchmarks below declare [fn] and never call it. *)
Definition BM_stdFunctionPassedAsParameterFunctionCall (iterations : nat)
    : option (list Z) :=
  let i := 0 in
  let fn : Callable Z := fun i => pre_increment i in
  benchmark_loop iterations
    (fun i =>
       match
         functionThatCallsFunction
           (mk_std_function (fun i => pre_increment i)) i
       with
       | Some i => Some (i, i)
       | None => None
       end) i.

Definition BM_lambdaPassedAsParameterFunctionCall (iterations : nat)
    : option (list Z) :=
  let i := 0 in
  let fn : Callable Z := fun i => pre_increment i in
  benchmark_loop iterations
    (fun i =>
       match functionThatCallsLambda (fun i => pre_increment i) i with
       | Some i => Some (i, i)
       | None => None
       end) i.

(** The ten benchmarks of this part, in the order the file registers
    them. *)
Definition function_call_benchmarks : list (nat -> option (list Z)) :=
  [ BM_virtualFunctionCallsThroughPointerToParent;
    BM_virtualFunctionCallsThroughPointerToChild;
    BM_virtualFunctionCallsThroughInstanceOfChild;
    BM_nonVirtualNonInlineFunctionCall;
    BM_inlineFunctionCall;
    BM_noFunctionCall;
    BM_stdFunctionCall;
    BM_lambdaFunctionCall;
    BM_stdFunctionPassedAsParameterFunctionCall;
    BM_lambdaPassedAsParameterFunctionCall ].

End FunctionCalls.

(** ** The cache-miss benchmarks *)

Module CacheMisses.

(** [for (auto i = start; ...; ++i) body], [count] iterations from [i];
    the body may run into undefined behaviour ([None]), which ends the
    run. *)
Fixpoint for_from {St : Type} (count i : nat) (body : nat -> St -> option St)
    (s : St) : option St :=
  match count with
  | O => Some s
  | S count' =>
      match body i s with
      | Some s' => for_from count' (S i) body s'
      | None => None
      end
  end.

(** [for (auto i = 0; i < k; ++i) body] *)
Definition for_upto {St : Type} (k : nat) (body : nat -> St -> option St)
    (s : St) : option St :=
  for_from k 0 body s.

(** [i * j] on two [int]s; a product outside [int] is undefined. *)
Definition mul_int (a b : Z) : option Z :=
  if (- 2 ^ 31 <=? a * b) && (a * b <=? INT_MAX) then Some (a * b) else None.

(** [std::uint32_t arr[k][k]]: rows of cells.  An access outside the array
    is undefined. *)
Definition get2 (arr : list (list Z)) (r c : nat) : option Z :=
  match arr !! r with
  | Some row => row !! c
  | None => None
  end.

Definition set2 (arr : list (list Z)) (r c : nat) (v : Z)
    : option (list (list Z)) :=
  match arr !! r with
  | Some row =>
      if decide (c < length row)%nat then Some (<[r := <[c := v]> row]> arr)
      else None
  | None => None
  end.

(** The array is [k] by [k]; what its cells hold is not known (the source
    declares it without an initialiser). *)
Definition shape (k : nat) (arr : list (list Z)) : Prop :=
  length arr = k /\ forall r row, arr !! r = Some row -> length row = k.

(** The two smaller-than-L1 benchmarks fill with [arr[j][i] = i * j]. *)
Definition fill_ji (k : nat) (arr : list (list Z)) : option (list (list Z)) :=
  for_upto k
    (fun i arr =>
       for_upto k
         (fun j arr =>
            match mul_int (Z.of_nat i) (Z.of_nat j) with
            | Some v => set2 arr j i (wrap_u32 v)
            | None => None
            end) arr) arr.

(** The two bigger-than-L1 benchmarks fill with [arr[i][j] = i * j]. *)
Definition fill_ij (k : nat) (arr : list (list Z)) : option (list (list Z)) :=
  for_upto k
    (fun i arr =>
       for_upto k
         (fun j arr =>
            match mul_int (Z.of_nat i) (Z.of_nat j) with
            | Some v => set2 arr i j (wrap_u32 v)
            | None => None
            end) arr) arr.

(** Row order traversal: [sum += arr[i][j]]. *)
Definition sum_rows (k : nat) (arr : list (list Z)) : option Z :=
  for_upto k
    (fun i sum =>
       for_upto k
         (fun j sum =>
            match get2 arr i j with
            | Some x => Some (wrap_u32 (sum + x))
            | None => None
            end) sum) 0.

(** Column order traversal: [sum += arr[j][i]]. *)
Definition sum_cols (k : nat) (arr : list (list Z)) : option Z :=
  for_upto k
    (fun i sum =>
       for_upto k
         (fun j sum =>
            match get2 arr j i with
            | Some x => Some (wrap_u32 (sum + x))
            | None => None
            end) sum) 0.

(** [for (auto _ : state)] around a body that computes a value and hands
    it to [DoNotOptimize]: the values handed over, one per iteration. *)
Fixpoint observe (iterations : nat) (body : option Z) : option (list Z) :=
  match iterations with
  | O => Some []
  | S n =>
      match body with
      | Some x =>
          match observe n body with
          | Some xs => Some (x :: xs)
          | None => None
          end
      | None => None
      end
  end.

Definition BM_sequentialArrayAccessSmallerThanL1
    (arr0 : list (list Z)) (iterations : nat) : option (list Z) :=
  match fill_ji 32 arr0 with
  | Some arr => observe iterations (sum_rows 32 arr)
  | None => None
  end.

Definition BM_randomArrayAccessSmallerThanL1
    (arr0 : list (list Z)) (iterations : nat) : option (list Z) :=
  match fill_ji 32 arr0 with
  | Some arr => observe iterations (sum_cols 32 arr)
  | None => None
  end.

Definition BM_sequentialArrayAccessBiggerThanL1
    (arr0 : list (list Z)) (iterations : nat) : option (list Z) :=
  match fill_ij 1024 arr0 with
  | Some arr => observe iterations (sum_rows 1024 arr)
  | None => None
  end.

Definition BM_randomArrayAccessBiggerThanL1
    (arr0 : list (list Z)) (iterations : nat) : option (list Z) :=
  match fill_ij 1024 arr0 with
  | Some arr => observe iterations (sum_cols 1024 arr)
  | None => None
  end.

(** [arr.emplace_back(i)] on a sequence of [std::uint32_t]. *)
Definition emplace_back (arr : list Z) (x : Z) : list Z := arr ++ [wrap_u32 x].

(** [for (auto i = 0; i < k; ++i) arr.emplace_back(i);] *)
Definition fill_sequence (k : nat) : option (list Z) :=
  for_upto k (fun i arr => Some (emplace_back arr (Z.of_nat i))) [].

(** [for (auto x : arr) sum += x;] *)
Definition sum_sequence (arr : list Z) : Z :=
  foldl (fun sum x => wrap_u32 (sum + x)) 0 arr.

(** [std::list] and [std::vector] are both the sequence of their elements
    here; where the elements live is not modelled. *)
Definition BM_sequentialListAccess (iterations : nat) : option (list Z) :=
  match fill_sequence 1024 with
  | Some arr => observe iterations (Some (sum_sequence arr))
  | None => None
  end.

Definition BM_sequentialArrayAccess (iterations : nat) : option (list Z) :=
  match fill_sequence 1024 with
  | Some arr => observe iterations (Some (sum_sequence arr))
  | None => None
  end.

(** The sum of [f start], ..., [f (start + count - 1)], without wrap. *)
Fixpoint sum_from (count start : nat) (f : nat -> Z) : Z :=
  match count with
  | O => 0
  | S count' => f start + sum_from count' (S start) f
  end.

(** The cell values as a total function (0 outside the array). *)
Definition cell (arr : list (list Z)) (r c : nat) : Z :=
  match get2 arr r c with Some x => x | None => 0 end.

(** The [k] by [k] multiplication table. *)
Definition product_table (k : nat) : list (list Z) :=
  map (fun a => map (fun b => Z.of_nat a * Z.of_nat b) (seq 0 k)) (seq 0 k).

(** 0 + 1 + ... + (k - 1). *)
Definition triangle (k : nat) : Z := Z.of_nat k * (Z.of_nat k - 1) / 2.

End CacheMisses.

(** * Facts *)

(** ** Machine integers *)

Lemma wrap_i32_small z : - 2 ^ 31 <= z <= INT_MAX -> wrap_i32 z = z.
Proof.
  unfold wrap_i32, INT_MAX. intros H.
  rewrite Z.mod_small by lia. lia.
Qed.

Lemma wrap_u32_small z : 0 <= z < 2 ^ 32 -> wrap_u32 z = z.
Proof. unfold wrap_u32. intros H. now apply Z.mod_small. Qed.

Lemma wrap_u32_range z : 0 <= wrap_u32 z < 2 ^ 32.
Proof. unfold wrap_u32. apply Z.mod_pos_bound. lia. Qed.

Lemma wrap_u32_succ z k : wrap_u32 (wrap_u32 (z + k) + 1) = wrap_u32 (z + (k + 1)).
Proof.
  unfold wrap_u32. rewrite Zplus_mod_idemp_l. f_equal. lia.
Qed.

Lemma wrap_i32_succ k : wrap_i32 (wrap_i32 k + 1) = wrap_i32 (k + 1).
Proof.
  unfold wrap_i32.
  replace ((k + 2 ^ 31) mod 2 ^ 32 - 2 ^ 31 + 1 + 2 ^ 31)
    with ((k + 2 ^ 31) mod 2 ^ 32 + 1) by lia.
  rewrite Zplus_mod_idemp_l. do 2 f_equal. lia.
Qed.

Lemma wrap_u32_succ' k : wrap_u32 (wrap_u32 k + 1) = wrap_u32 (k + 1).
Proof. pose proof (wrap_u32_succ 0 k) as H. now rewrite !Z.add_0_l in H. Qed.

Lemma wrap_u32_add_l z k : wrap_u32 (wrap_u32 z + k) = wrap_u32 (z + k).
Proof. unfold wrap_u32. now rewrite Zplus_mod_idemp_l. Qed.

Lemma wrap_u32_periods z n : wrap_u32 (z + n * 2 ^ 32) = wrap_u32 z.
Proof. unfold wrap_u32. apply Z_mod_plus_full. Qed.

Lemma wrap_u32_le z : 0 <= z -> wrap_u32 z <= z.
Proof. intros H. unfold wrap_u32. apply Z.mod_le; lia. Qed.

Global Opaque wrap_u32 wrap_i32.

(** ** The barrier with any number of callers *)

Module RendezvousFacts.
Import Rendezvous.

Lemma arrived_bounds pcs : 0 <= arrived pcs <= Z.of_nat (length pcs).
Proof.
  induction pcs as [|p pcs IH]; simpl; [lia|].
  destruct p; lia.
Qed.

Lemma arrived_replicate n : arrived (replicate n Calling) = 0.
Proof. induction n; simpl; auto. Qed.

Lemma arrived_enter pcs i :
  pcs !! i = Some Calling ->
  arrived (<[i := Polling]> pcs) = arrived pcs + 1.
Proof.
  revert i. induction pcs as [|p pcs IH]; intros [|i] H; simpl in *;
    try discriminate.
  - injection H as ->. lia.
  - rewrite (IH _ H). destruct p; lia.
Qed.

Lemma arrived_stay pcs i p p' :
  pcs !! i = Some p -> p <> Calling -> p' <> Calling ->
  arrived (<[i := p']> pcs) = arrived pcs.
Proof.
  revert i. induction pcs as [|q pcs IH]; intros [|i] H Hp Hp'; simpl in *;
    try discriminate.
  - injection H as ->. destruct p, p'; congruence.
  - rewrite (IH _ H Hp Hp'). reflexivity.
Qed.

Lemma arrived_all pcs j :
  Z.of_nat (length pcs) <= arrived pcs -> pcs !! j <> Some Calling.
Proof.
  revert j. induction pcs as [|p pcs IH]; intros j H; simpl in *.
  - destruct j; discriminate.
  - pose proof (arrived_bounds pcs) as Hb.
    destruct j as [|j]; simpl.
    + destruct p; [lia | discriminate | discriminate].
    + apply IH. destruct p; lia.
Qed.

Lemma arrived_none_calling pcs :
  (forall j, pcs !! j <> Some Calling) -> arrived pcs = Z.of_nat (length pcs).
Proof.
  induction pcs as [|p pcs IH]; intros H; simpl; [reflexivity|].
  assert (Hp : p <> Calling) by (intros ->; exact (H O eq_refl)).
  rewrite IH by (intros j; exact (H (S j))).
  destruct p; [congruence | lia | lia].
Qed.

Lemma inv_init total K : inv total K (init total K).
Proof.
  split; simpl.
  - reflexivity.
  - apply length_replicate.
  - now rewrite arrived_replicate.
  - intros i H. apply lookup_replicate in H as [H _]. discriminate.
Qed.

Lemma inv_step total K i st :
  Z.of_nat K <= INT_MAX -> inv total K st -> inv total K (step i st).
Proof.
  intros HK [Ht Hl Hc Hr]. unfold step.
  destruct (callers st !! i) as [p|] eqn:Hi; [|now split].
  pose proof (arrived_bounds (callers st)) as Hb.
  destruct p; simpl.
  - (* the increment *)
    pose proof (arrived_enter _ _ Hi) as He.
    pose proof (arrived_bounds (<[i:=Polling]> (callers st))) as Hb'.
    rewrite length_insert in Hb'.
    split; simpl; auto.
    + now rewrite length_insert.
    + rewrite He, Hc. apply wrap_i32_small. unfold INT_MAX in *. lia.
    + intros j Hj. rewrite He.
      destruct (decide (i = j)) as [->|Hne].
      * rewrite list_lookup_insert_eq in Hj by (eapply lookup_lt_Some; eauto).
        discriminate.
      * rewrite list_lookup_insert_ne in Hj by assumption.
        specialize (Hr _ Hj). lia.
  - (* one evaluation of the loop condition *)
    unfold must_spin. destruct (Z.ltb_spec (_numThreadsArrived (barrier st))
                                  (_numTotalThreads (barrier st))) as [Hlt|Hge]; simpl.
    + rewrite list_insert_id by assumption. now split.
    + split; simpl; auto.
      * now rewrite length_insert.
      * rewrite (arrived_stay _ _ _ _ Hi); [assumption | discriminate | discriminate].
      * intros j _.
        rewrite (arrived_stay _ _ _ _ Hi); [lia | discriminate | discriminate].
  - rewrite list_insert_id by assumption. now split.
Qed.

Lemma inv_run_upto total K sched n st :
  Z.of_nat K <= INT_MAX -> inv total K st -> inv total K (run_upto sched n st).
Proof.
  intros HK H. induction n as [|n IH]; simpl; [exact H|].
  now apply inv_step.
Qed.

(** A thread that has executed the increment never goes back. *)
Lemma step_not_calling i j st :
  callers st !! i <> Some Calling -> callers (step j st) !! i <> Some Calling.
Proof.
  intros H. unfold step.
  destruct (callers st !! j) as [p|] eqn:Hj; [|exact H].
  destruct (arriveAndWait_step p (barrier st)) as [p' b'] eqn:Hs. simpl.
  destruct (decide (j = i)) as [->|Hne].
  - rewrite list_lookup_insert_eq by (eapply lookup_lt_Some; eauto).
    destruct p; simpl in Hs; try congruence.
    destruct (must_spin (barrier st)); congruence.
  - now rewrite list_lookup_insert_ne.
Qed.

(** A call that has returned stays returned. *)
Lemma step_returned i j st :
  callers st !! i = Some Returned -> callers (step j st) !! i = Some Returned.
Proof.
  intros H. unfold step.
  destruct (callers st !! j) as [p|] eqn:Hj; [|exact H].
  destruct (arriveAndWait_step p (barrier st)) as [p' b'] eqn:Hs. simpl.
  destruct (decide (j = i)) as [->|Hne].
  - rewrite list_lookup_insert_eq by (eapply lookup_lt_Some; eauto).
    rewrite H in Hj. injection Hj as <-. simpl in Hs. congruence.
  - now rewrite list_lookup_insert_ne.
Qed.

(** The scheduled thread leaves [Calling] at once. *)
Lemma step_self_not_calling i st :
  callers (step i st) !! i <> Some Calling.
Proof.
  unfold step. destruct (callers st !! i) as [p|] eqn:Hi.
  - destruct (arriveAndWait_step p (barrier st)) as [p' b'] eqn:Hs. simpl.
    rewrite list_lookup_insert_eq by (eapply lookup_lt_Some; eauto).
    destruct p; simpl in Hs; try congruence.
    destruct (must_spin (barrier st)); congruence.
  - rewrite Hi. discriminate.
Qed.

(** Once the count has reached the total, the scheduled thread returns. *)
Lemma step_self_returns total K i st :
  inv total K st -> (i < K)%nat ->
  callers st !! i <> Some Calling ->
  total <= arrived (callers st) ->
  callers (step i st) !! i = Some Returned.
Proof.
  intros [Ht Hl Hc Hr] Hi Hnc Hge. unfold step.
  destruct (lookup_lt_is_Some_2 (callers st) i) as [p Hp]; [lia|].
  rewrite Hp. destruct p; simpl.
  - congruence.
  - unfold must_spin.
    destruct (Z.ltb_spec (_numThreadsArrived (barrier st))
                (_numTotalThreads (barrier st))) as [Hlt|Hge2]; [lia|].
    simpl. apply list_lookup_insert_eq. lia.
  - simpl. apply list_lookup_insert_eq. lia.
Qed.

(** Finitely many eventually-always facts hold together from some point on. *)
Lemma eventually_all (P : nat -> nat -> Prop) (K : nat) :
  (forall i, (i < K)%nat -> exists n, forall m, (n <= m)%nat -> P i m) ->
  exists n, forall i, (i < K)%nat -> forall m, (n <= m)%nat -> P i m.
Proof.
  induction K as [|K IH]; intros H.
  - exists O. intros i Hi. lia.
  - destruct IH as [n1 H1]; [intros i Hi; apply H; lia|].
    destruct (H K) as [n2 H2]; [lia|].
    exists (Nat.max n1 n2). intros i Hi m Hm.
    destruct (decide (i = K)) as [->|Hne].
    + apply H2. lia.
    + apply H1; lia.
Qed.

Lemma run_upto_not_calling sched st i n m :
  (n <= m)%nat ->
  callers (run_upto sched n st) !! i <> Some Calling ->
  callers (run_upto sched m st) !! i <> Some Calling.
Proof.
  induction 1 as [|m Hle IH]; intros H; [exact H|].
  simpl. apply step_not_calling. now apply IH.
Qed.

Lemma run_upto_returned sched st i n m :
  (n <= m)%nat ->
  callers (run_upto sched n st) !! i = Some Returned ->
  callers (run_upto sched m st) !! i = Some Returned.
Proof.
  induction 1 as [|m Hle IH]; intros H; [exact H|].
  simpl. apply step_returned. now apply IH.
Qed.

(** Under a fair schedule every thread has eventually incremented. *)
Lemma all_arrive K sched st :
  fair K sched ->
  exists n, forall i, (i < K)%nat -> forall m, (n <= m)%nat ->
    callers (run_upto sched m st) !! i <> Some Calling.
Proof.
  intros Hfair. apply eventually_all. intros i Hi.
  destruct (Hfair i O Hi) as (m0 & _ & Hm0).
  exists (S m0). intros m Hm.
  apply (run_upto_not_calling sched st i (S m0) m Hm).
  simpl. rewrite Hm0. apply step_self_not_calling.
Qed.

(** Under a fair schedule, with as many callers as the barrier was built
    for, every call eventually returns, and stays returned. *)
Lemma all_return N sched :
  Z.of_nat N <= INT_MAX -> fair N sched ->
  exists n, forall i, (i < N)%nat -> forall m, (n <= m)%nat ->
    callers (run_upto sched m (init (Z.of_nat N) N)) !! i = Some Returned.
Proof.
  intros HN Hfair.
  set (st0 := init (Z.of_nat N) N).
  destruct (all_arrive N sched st0 Hfair) as [n1 H1].
  apply eventually_all. intros i Hi.
  destruct (Hfair i n1 Hi) as (m1 & Hm1 & Hs).
  exists (S m1). intros m Hm.
  apply (run_upto_returned sched st0 i (S m1) m Hm).
  simpl. rewrite Hs.
  assert (Hinv : inv (Z.of_nat N) N (run_upto sched m1 st0))
    by (apply inv_run_upto; [assumption | apply inv_init]).
  eapply step_self_returns; eauto.
  rewrite arrived_none_calling.
  - rewrite (inv_length _ _ _ Hinv). lia.
  - intros j. destruct (decide (j < N)%nat) as [Hj|Hj].
    + now apply H1.
    + rewrite lookup_ge_None_2; [discriminate|].
      rewrite (inv_length _ _ _ Hinv). lia.
Qed.

Lemma run_upto_polling total K sched i n m :
  Z.of_nat K <= INT_MAX -> Z.of_nat K < total -> (n <= m)%nat ->
  callers (run_upto sched n (init total K)) !! i = Some Polling ->
  callers (run_upto sched m (init total K)) !! i = Some Polling.
Proof.
  intros HK Hlt Hnm Hn.
  assert (Hinv : inv total K (run_upto sched m (init total K)))
    by (apply inv_run_upto; [assumption | apply inv_init]).
  assert (Hnc : callers (run_upto sched m (init total K)) !! i <> Some Calling).
  { apply (run_upto_not_calling sched _ i n m Hnm). rewrite Hn. discriminate. }
  destruct (callers (run_upto sched m (init total K)) !! i) as [p|] eqn:Hp.
  - destruct p; [congruence | reflexivity |].
    pose proof (inv_released _ _ _ Hinv i Hp) as Hge.
    pose proof (arrived_bounds (callers (run_upto sched m (init total K)))) as Hb.
    rewrite (inv_length _ _ _ Hinv) in Hb. lia.
  - apply lookup_ge_None_1 in Hp. rewrite (inv_length _ _ _ Hinv) in Hp.
    apply lookup_lt_Some in Hn.
    assert (Hinv' : inv total K (run_upto sched n (init total K)))
      by (apply inv_run_upto; [assumption | apply inv_init]).
    rewrite (inv_length _ _ _ Hinv') in Hn. lia.
Qed.

Lemma round_robin_fair K : fair K (round_robin K).
Proof.
  intros i n Hi. exists (n * K + i)%nat. split.
  - nia.
  - unfold round_robin. rewrite Nat.add_comm, Nat.Div0.mod_add.
    now apply Nat.mod_small.
Qed.

End RendezvousFacts.

(** ** Trials: the invariants are kept by every transition *)

Lemma worker_arrived_range p : 0 <= worker_arrived p <= 1.
Proof. destruct p as [|[]| | | | | | |]; simpl; lia. Qed.

Lemma main_arrived_range p : 0 <= main_arrived p <= 1.
Proof. destruct p as [| |[]| | | | |]; simpl; lia. Qed.

Lemma barrier_inv_start bm o clk : barrier_inv bm (start_trial bm o clk).
Proof.
  split; simpl; try reflexivity; try discriminate; auto.
  intros []; discriminate.
Qed.

(** Case analysis on whatever the transition function branches on. *)
Ltac break_step :=
  unfold must_spin, exited; simpl;
  repeat match goal with
         | |- context [match ?x with _ => _ end] =>
             lazymatch x with
             | context [match _ with _ => _ end] => fail
             | ?a <? ?b => destruct (Z.ltb_spec a b); simpl
             | _ => destruct x eqn:?; simpl
             end
         end.

Ltac use_refl :=
  repeat match goal with
         | H : ?a = ?a -> _ |- _ => specialize (H eq_refl)
         | H : ?a = ?a \/ _ -> _ |- _ => specialize (H (or_introl eq_refl))
         | H : _ \/ ?a = ?a -> _ |- _ => specialize (H (or_intror eq_refl))
         end.

Ltac use_eqs :=
  repeat match goal with
         | H : pc ?f = _ |- context [pc ?f] => rewrite H
         | H : pc ?f = _, H' : context [pc ?f] |- _ => rewrite H in H'
         | H : main_pc ?f = _ |- context [main_pc ?f] => rewrite H
         | H : main_pc ?f = _, H' : context [main_pc ?f] |- _ => rewrite H in H'
         end.

Ltac close_barrier :=
  split; simpl;
  repeat match goal with
         | |- forall w : Worker, _ => intros [|]
         | |- _ -> _ => intro
         end;
  simpl in *; use_eqs; simpl in *; use_refl; use_eqs; simpl in *;
  try rewrite wrap_i32_small by (unfold INT_MAX; simpl in *; lia);
  try first [ reflexivity | discriminate | congruence | lia
            | intuition (first [congruence | lia]) ].

Lemma barrier_inv_step bm e st :
  barrier_inv bm st -> barrier_inv bm (step bm e st).
Proof.
  intros Hinv. pose proof Hinv as [Ht Hc Hm Hw Hsa Hsb].
  pose proof (Hw ThreadA) as HwA. pose proof (Hw ThreadB) as HwB.
  clear Hw. simpl in HwA, HwB.
  pose proof (worker_arrived_range (pc (frame_a st))).
  pose proof (worker_arrived_range (pc (frame_b st))).
  pose proof (main_arrived_range (main_pc st)).
  destruct e as [[[|]|]|]; simpl.
  - unfold worker_step, arriveAndWait_step; simpl. break_step.
    all: try assumption.
    all: try (close_barrier; fail).
  - unfold worker_step, arriveAndWait_step; simpl. break_step.
    all: try assumption.
    all: try (close_barrier; fail).
  - unfold main_step, arriveAndWait_step; simpl. break_step.
    all: try assumption.
    all: try (close_barrier; fail).

  - close_barrier.
Qed. 

Lemma trial_inv_start bm o clk :
  Outer_ok (scenario bm) o -> trial_inv bm o (start_trial bm o clk).
Proof.
  intros Hok. split.
  - intros []; exact I.
  - intros [] i r H; discriminate.
  - unfold counters_inv, Outer_ok in *. simpl.
    destruct (scenario bm); simpl.
    + destruct Hok as [Ha Hb].
      now rewrite !Z.add_0_r, !wrap_u32_small by assumption.
    + destruct Hok as [Hc Hm].
      now rewrite Hm, !Z.add_0_r, !wrap_u32_small by assumption.
    + intros []; discriminate.
    + reflexivity.
Qed.

Ltac unfold_step :=
  unfold step, worker_step, main_step, arriveAndWait_step, read_counter,
    write_counter, counters_inv in *; simpl in *.

Ltac close_arith :=
  simpl in *; use_eqs; simpl in *; use_refl; use_eqs; simpl in *;
  rewrite ?wrap_u32_succ, ?wrap_i32_succ;
  try first [ assumption | reflexivity | discriminate | congruence | lia
            | f_equal; lia
            | intuition (first [congruence | lia | f_equal; lia]) ].

Ltac finish_counters :=
  simpl in *; use_refl; use_eqs; simpl in *; use_refl;
  repeat match goal with
         | H : ?P -> _, H' : ?P |- _ =>
             match type of P with Prop => specialize (H H') end
         | H : _ /\ _ |- _ => destruct H
         | H : forall i r, Store ?a ?b = Store i r -> @?Q i r |- _ =>
             specialize (H a b eq_refl)
         | H : context [if ?c then _ else _] |- _ => destruct c eqn:?
         | |- context [if ?c then _ else _] => destruct c eqn:?
         end;
  simpl in *; subst;
  repeat split;
  try first
    [ assumption | reflexivity | discriminate | congruence | lia
    | match goal with
      | H : ?x = wrap_u32 _ |- context [?x] => rewrite H
      | H : ?x = wrap_i32 _ |- context [?x] => rewrite H
      end;
      rewrite ?wrap_u32_succ, ?wrap_u32_succ', ?wrap_i32_succ; f_equal; lia ].

Lemma trial_inv_step bm o0 e st :
  barrier_inv bm st -> trial_inv bm o0 st -> trial_inv bm o0 (step bm e st).
Proof.
  intros [_ _ _ _ Hsa Hsb] Hinv. pose proof Hinv as [Hpc Hst Hcn].
  pose proof (Hpc ThreadA) as HpcA. pose proof (Hpc ThreadB) as HpcB.
  pose proof (Hst ThreadA) as HstA. pose proof (Hst ThreadB) as HstB.
  clear Hpc Hst.
  split.
  - intros w. unfold_step. destruct (scenario bm) eqn:Hsc.
    all: destruct e as [[[|]|]|], w; simpl; break_step.
    all: try assumption.
    all: try (close_arith; fail).
  - intros w i0 r0. unfold_step. destruct (scenario bm) eqn:Hsc.
    all: destruct e as [[[|]|]|], w; simpl; break_step.
    all: try (intros Hw; injection Hw as <- <-).
    all: try assumption.
    all: try (close_arith; fail).
    all: try (intros Hw; first [apply HstA in Hw | apply HstB in Hw];
              close_arith; fail).
    all: try (intros Hw; use_eqs;
              first [apply HstA in Hw | apply HstB in Hw | idtac];
              close_arith; fail).
  - unfold_step. destruct (scenario bm) eqn:Hsc.
    all: try (pose proof (Hcn ThreadA) as HcnA; pose proof (Hcn ThreadB) as HcnB;
              clear Hcn; simpl in HcnA, HcnB).
    all: destruct e as [[[|]|]|]; simpl; break_step.
    all: try assumption.
    all: try (intros [|] Hin; simpl in *).
    all: use_eqs.
    all: try (finish_counters; fail).
Qed.

Lemma main_inv_start bm o clk : main_inv (start_trial bm o clk).
Proof. split; simpl; try reflexivity; discriminate. Qed.

Ltac close_main :=
  split; simpl;
  repeat match goal with
         | |- _ -> _ => intro
         end;
  simpl in *; use_eqs; simpl in *; use_refl; use_eqs; simpl in *;
  repeat match goal with
         | H : ?P -> _, H' : ?P |- _ =>
             match type of P with Prop => specialize (H H') end
         end;
  rewrite ?app_nil_r;
  try first [ assumption | reflexivity | discriminate | congruence | lia
            | match goal with H : log _ = _ |- _ => rewrite H; reflexivity end
            | match goal with H : reports _ = _ |- _ => rewrite H; reflexivity end ].

Lemma main_inv_step bm e st : main_inv st -> main_inv (step bm e st).
Proof.
  intros Hinv. pose proof Hinv as [Hl Hr Hja Hjb Hs He].
  destruct e as [[[|]|]|]; simpl.
  - unfold worker_step, arriveAndWait_step; simpl. break_step.
    all: try assumption.
    all: try (close_main; fail).
  - unfold worker_step, arriveAndWait_step; simpl. break_step.
    all: try assumption.
    all: try (close_main; fail).
  - unfold main_step, arriveAndWait_step; simpl. break_step.
    all: try assumption.
    all: try (close_main; fail).
  - close_main.
Qed.

(** ** Trials: a worker on its own finishes, and so does the trial *)

Lemma remaining_exited bm p :
  pc_ok (scenario bm) (numIterations bm) p -> remaining bm p = 0 -> p = Exited.
Proof.
  unfold remaining, steps_per_iteration.
  destruct p as [|[]| | | | | | |]; simpl; destruct (scenario bm); simpl; intros; try reflexivity; lia.
Qed.

Lemma worker_step_alone bm o0 w st :
  barrier_inv bm st -> trial_inv bm o0 st ->
  barrierArg bm <= _numThreadsArrived (barrier st) ->
  worker_arrived (pc (frame w st)) = 1 ->
  holds_lock (pc (frame (other w) st)) = false ->
  let st' := step bm (Run (W w)) st in
  remaining bm (pc (frame w st')) = Z.max 0 (remaining bm (pc (frame w st)) - 1) /\
  frame (other w) st' = frame (other w) st /\
  main_pc st' = main_pc st /\
  barrier st' = barrier st /\
  now st' = now st /\
  worker_arrived (pc (frame w st')) = 1.
Proof.
  intros [Ht _ _ _ _ _] [Hpc Hst Hcn] Hge Harr Hother.
  pose proof (Hpc w) as Hpcw. clear Hpc Hst.
  unfold_step. destruct (scenario bm) eqn:Hsc.
  all: try (pose proof (Hcn w) as Hcnw; clear Hcn; simpl in Hcnw).
  all: destruct w; simpl in *; break_step.
  all: unfold remaining, steps_per_iteration; rewrite ?Hsc; simpl.
  all: use_eqs; simpl in *; use_refl.
  all: try (repeat split; simpl; try reflexivity; try discriminate; try lia; fail).
  all: rewrite Hother in Hcn; destruct Hcn as (_ & Hm & _); discriminate.
Qed.

Lemma run_app bm s1 s2 st : run bm (s1 ++ s2) st = run bm s2 (run bm s1 st).
Proof. apply foldl_app. Qed.

(** A worker left to run on its own, past the barrier's increment and with
    the barrier open, gets through its loop. *)
Lemma worker_alone bm o0 w k st :
  barrier_inv bm st -> trial_inv bm o0 st ->
  barrierArg bm <= _numThreadsArrived (barrier st) ->
  worker_arrived (pc (frame w st)) = 1 ->
  holds_lock (pc (frame (other w) st)) = false ->
  let st' := run bm (repeat (Run (W w)) k) st in
  remaining bm (pc (frame w st'))
  = Z.max 0 (remaining bm (pc (frame w st)) - Z.of_nat k) /\
  frame (other w) st' = frame (other w) st /\
  main_pc st' = main_pc st /\
  barrier st' = barrier st /\
  now st' = now st.
Proof.
  revert st. induction k as [|k IH]; intros st Hb Ht Hge Harr Hother; simpl.
  - repeat split; try reflexivity.
    assert (0 <= remaining bm (pc (frame w st))); [|lia].
    pose proof (ti_pc _ _ _ Ht w) as Hpc.
    unfold remaining, steps_per_iteration.
    destruct (pc (frame w st)) as [|[]| | | | | | |], (scenario bm);
      simpl in *; lia.
  - destruct (worker_step_alone bm o0 w st Hb Ht Hge Harr Hother)
      as (Hr & Hf & Hm & Hbar & Hnow & Harr').
    simpl in Hr, Hf, Hm, Hbar, Hnow, Harr'.
    destruct (IH (worker_step bm w st)) as (Hr2 & Hf2 & Hm2 & Hbar2 & Hnow2).
    + apply (barrier_inv_step bm (Run (W w))); assumption.
    + apply (trial_inv_step bm o0 (Run (W w))); assumption.
    + rewrite Hbar. assumption.
    + assumption.
    + rewrite Hf. assumption.
    + simpl in *. rewrite Hr2, Hf2, Hm2, Hbar2, Hnow2, Hr, Hf, Hm, Hbar, Hnow.
      repeat split; try reflexivity. lia.
Qed.

Lemma barrier_inv_run bm sched : forall st,
  barrier_inv bm st -> barrier_inv bm (run bm sched st).
Proof.
  induction sched as [|e sched IH]; intros st H; simpl; [exact H|].
  apply IH. now apply barrier_inv_step.
Qed.

Lemma main_inv_run bm sched : forall st,
  main_inv st -> main_inv (run bm sched st).
Proof.
  induction sched as [|e sched IH]; intros st H; simpl; [exact H|].
  apply IH. now apply main_inv_step.
Qed.

Lemma run_preserves bm o0 sched st :
  barrier_inv bm st -> trial_inv bm o0 st -> main_inv st ->
  barrier_inv bm (run bm sched st) /\ trial_inv bm o0 (run bm sched st) /\
  main_inv (run bm sched st).
Proof.
  revert st. induction sched as [|e sched IH]; intros st Hb Ht Hm; simpl.
  - auto.
  - apply IH.
    + now apply barrier_inv_step.
    + now apply trial_inv_step.
    + now apply main_inv_step.
Qed.

Lemma run_inv bm o clk sched :
  Outer_ok (scenario bm) o ->
  barrier_inv bm (run bm sched (start_trial bm o clk)) /\
  trial_inv bm o (run bm sched (start_trial bm o clk)) /\
  main_inv (run bm sched (start_trial bm o clk)).
Proof.
  intros Hok. apply run_preserves.
  - apply barrier_inv_start.
  - now apply trial_inv_start.
  - apply main_inv_start.
Qed.

Lemma remaining_bound bm p :
  p <> NotStarted -> p <> InBarrier Calling ->
  pc_ok (scenario bm) (numIterations bm) p ->
  remaining bm p <= Z.of_nat (worker_steps bm).
Proof.
  unfold remaining, steps_per_iteration, worker_steps.
  destruct p as [|[]| | | | | | |], (scenario bm); simpl; intros; try congruence; lia.
Qed.

Lemma sequential_prefix_state bm o clk :
  barrierArg bm <= 3 ->
  run bm sequential_prefix (start_trial bm o clk)
  = {| outer := o;
       barrier := {| _numThreadsArrived := 3; _numTotalThreads := barrierArg bm |};
       atomic_counter := 0;
       frame_a := mkFrame (InBarrier Polling) 0 false;
       frame_b := mkFrame (InBarrier Polling) 0 false;
       main_pc := JoinA;
       start := clk; end_ := 0;
       now := clk + 1;
       reports := [];
       log := [EvSpawn ThreadA; EvSpawn ThreadB; EvArrive; EvBarrierReturn;
               EvNow clk] |}.
Proof.
  intros H3.
  change sequential_prefix
    with ([Run Main; Run Main; Run (W ThreadA); Run (W ThreadB); Run Main]
          ++ [Run Main; Run Main; Tick]).
  rewrite run_app.
  assert (Harr : run bm [Run Main; Run Main; Run (W ThreadA); Run (W ThreadB);
                         Run Main] (start_trial bm o clk)
          = {| outer := o;
               barrier := {| _numThreadsArrived := 3;
                             _numTotalThreads := barrierArg bm |};
               atomic_counter := 0;
               frame_a := mkFrame (InBarrier Polling) 0 false;
               frame_b := mkFrame (InBarrier Polling) 0 false;
               main_pc := MainBarrier Polling;
               start := 0; end_ := 0;
               now := clk;
               reports := [];
               log := [EvSpawn ThreadA; EvSpawn ThreadB; EvArrive] |}).
  { cbv - [wrap_i32 Z.add].
    change (0 + 1) with 1.
    rewrite (wrap_i32_small 1) by (vm_compute; split; discriminate).
    change (1 + 1) with 2.
    rewrite (wrap_i32_small 2) by (vm_compute; split; discriminate).
    change (2 + 1) with 3.
    rewrite (wrap_i32_small 3) by (vm_compute; split; discriminate).
    reflexivity. }
  rewrite Harr. clear Harr.
  cbv - [Z.ltb Z.add barrierArg].
  destruct (Z.ltb_spec 3 (barrierArg bm)); [lia|].
  reflexivity.
Qed.

Lemma main_finishes bm st :
  main_pc st = JoinA -> pc (frame_a st) = Exited -> pc (frame_b st) = Exited ->
  finished (run bm [Tick; Run Main; Run Main; Run Main; Run Main] st) = true.
Proof.
  destruct st as [o b ac [pa ca ma] [pb cb mb] mp s e n r l]. simpl.
  intros -> -> ->. reflexivity.
Qed.

(** Under the sequential schedule the trial completes, whatever the
    scenario, as long as the barrier was built for at most three. *)
Lemma sequential_schedule_finishes bm o clk :
  barrierArg bm <= 3 -> Outer_ok (scenario bm) o ->
  finished (run bm (sequential_schedule bm) (start_trial bm o clk)) = true.
Proof.
  intros H3 Hok. unfold sequential_schedule. rewrite !run_app.
  destruct (run_inv bm o clk sequential_prefix Hok) as (Hb0 & Ht0 & Hmi0).
  pose proof (sequential_prefix_state bm o clk H3) as Hst0.
  remember (run bm sequential_prefix (start_trial bm o clk)) as st0 eqn:E0.
  clear E0.
  assert (Ha0 : pc (frame ThreadA st0) = InBarrier Polling) by now rewrite Hst0.
  assert (Hb0' : pc (frame ThreadB st0) = InBarrier Polling) by now rewrite Hst0.
  assert (Hm0 : main_pc st0 = JoinA) by now rewrite Hst0.
  assert (Hc0 : _numThreadsArrived (barrier st0) = 3) by now rewrite Hst0.
  clear Hst0.
  (* thread a runs to its end *)
  destruct (worker_alone bm o ThreadA (worker_steps bm) st0 Hb0 Ht0)
    as (Hr1 & Hf1 & Hm1 & Hbar1 & _).
  { lia. }
  { now rewrite Ha0. }
  { change (other ThreadA) with ThreadB. now rewrite Hb0'. }
  destruct (run_preserves bm o (repeat (Run (W ThreadA)) (worker_steps bm)) st0
              Hb0 Ht0 Hmi0) as (Hb1 & Ht1 & Hmi1).
  remember (run bm (repeat (Run (W ThreadA)) (worker_steps bm)) st0) as st1 eqn:E1.
  clear E1. change (other ThreadA) with ThreadB in Hf1.
  assert (Ha1 : pc (frame ThreadA st1) = Exited).
  { apply (remaining_exited bm); [apply (ti_pc _ _ _ Ht1 ThreadA)|].
    rewrite Hr1.
    pose proof (remaining_bound bm (pc (frame ThreadA st0))) as Hbound.
    rewrite Ha0 in Hbound.
    specialize (Hbound ltac:(discriminate) ltac:(discriminate) I).
    rewrite Ha0. lia. }
  (* thread b runs to its end *)
  destruct (worker_alone bm o ThreadB (worker_steps bm) st1 Hb1 Ht1)
    as (Hr2 & Hf2 & Hm2 & _).
  { rewrite Hbar1. lia. }
  { now rewrite Hf1, Hb0'. }
  { change (other ThreadB) with ThreadA. now rewrite Ha1. }
  destruct (run_preserves bm o (repeat (Run (W ThreadB)) (worker_steps bm)) st1
              Hb1 Ht1 Hmi1) as (_ & Ht2 & _).
  remember (run bm (repeat (Run (W ThreadB)) (worker_steps bm)) st1) as st2 eqn:E2.
  clear E2. change (other ThreadB) with ThreadA in Hf2.
  assert (Hb2 : pc (frame ThreadB st2) = Exited).
  { apply (remaining_exited bm); [apply (ti_pc _ _ _ Ht2 ThreadB)|].
    rewrite Hr2, Hf1.
    pose proof (remaining_bound bm (pc (frame ThreadB st0))) as Hbound.
    rewrite Hb0' in Hbound.
    specialize (Hbound ltac:(discriminate) ltac:(discriminate) I).
    rewrite Hb0'. lia. }
  apply main_finishes.
  - congruence.
  - change (pc (frame ThreadA st2) = Exited). now rewrite Hf2.
  - exact Hb2.
Qed.

(* The schedule of a real benchmark has millions of events: never unfold it
   by accident. *)
Global Opaque sequential_schedule worker_steps.
Global Arguments sequential_schedule : simpl never.
Global Arguments worker_steps : simpl never.
Global Arguments work_before_start_schedule : simpl never.

(** ** Trials: what a completed trial leaves behind *)

(** When the measuring thread is done, both workers have exited. *)
Lemma finished_exited st :
  main_inv st -> finished st = true ->
  pc (frame_a st) = Exited /\ pc (frame_b st) = Exited.
Proof.
  intros [_ _ Hja Hjb _ _] Hf. unfold finished in Hf.
  destruct (main_pc st); try discriminate. auto.
Qed.

(** What a completed trial leaves in the counters. *)
Lemma trial_end bm o clk sched :
  Outer_ok (scenario bm) o ->
  finished (run bm sched (start_trial bm o clk)) = true ->
  counters_inv bm o (run bm sched (start_trial bm o clk)) /\
  pc (frame_a (run bm sched (start_trial bm o clk))) = Exited /\
  pc (frame_b (run bm sched (start_trial bm o clk))) = Exited.
Proof.
  intros Hok Hf.
  destruct (run_inv bm o clk sched Hok) as (_ & Ht & Hm).
  destruct (finished_exited _ Hm Hf) as [Ha Hb].
  split; [apply (ti_counters _ _ _ Ht) | auto].
Qed.

Lemma trial_end_ok bm o clk sched :
  Outer_ok (scenario bm) o ->
  finished (run bm sched (start_trial bm o clk)) = true ->
  Outer_ok (scenario bm) (outer (run bm sched (start_trial bm o clk))).
Proof.
  intros Hok Hf. destruct (trial_end bm o clk sched Hok Hf) as (Hc & Ha & Hb).
  unfold counters_inv, Outer_ok in *. rewrite Ha, Hb in Hc. simpl in Hc.
  destruct (scenario bm); auto.
  - destruct Hc as [-> ->]. split; apply wrap_u32_range.
  - destruct Hc as (-> & -> & _). split; [apply wrap_u32_range | reflexivity].
Qed.

(** The outer counters after each of the trials of one invocation. *)
Lemma trials_counters bm scheds : forall o clk sts k st,
  Outer_ok (scenario bm) o ->
  trials bm o clk scheds = Some sts ->
  sts !! k = Some st ->
  let I := Z.max 0 (numIterations bm) in
  match scenario bm with
  | OwnCounter =>
      counterA (outer st) = wrap_u32 (counterA o + (Z.of_nat k + 1) * I) /\
      counterB (outer st) = wrap_u32 (counterB o + (Z.of_nat k + 1) * I)
  | SharedMutex =>
      counter (outer st) = wrap_u32 (counter o + (Z.of_nat k + 1) * (2 * I))
  | PrivateMutex =>
      local_counter (frame_a st) = wrap_u32 I /\
      local_counter (frame_b st) = wrap_u32 I
  | AtomicCounter => atomic_counter st = wrap_i32 (2 * I)
  end.
Proof.
  induction scheds as [|s scheds IH]; intros o clk sts k st Hok Htr Hk; simpl in Htr.
  - injection Htr as <-. discriminate.
  - destruct (finished (run bm s (start_trial bm o clk))) eqn:Hf; [|discriminate].
    destruct (trials bm _ _ scheds) as [sts'|] eqn:Hrest; [|discriminate].
    injection Htr as <-.
    pose proof (trial_end bm o clk s Hok Hf) as (Hc & Ha & Hb).
    pose proof (trial_end_ok bm o clk s Hok Hf) as Hok'.
    destruct k as [|k]; simpl in Hk.
    + injection Hk as <-. unfold counters_inv in Hc. rewrite Ha, Hb in Hc.
      simpl in Hc. simpl. destruct (scenario bm).
      * destruct Hc as [-> ->]. split; f_equal; lia.
      * destruct Hc as (-> & _). f_equal. lia.
      * pose proof (Hc ThreadA) as HA. pose proof (Hc ThreadB) as HB.
        simpl in HA, HB. rewrite Ha in HA. rewrite Hb in HB.
        split; [apply (HA eq_refl) | apply (HB eq_refl)].
      * rewrite Hc. f_equal. lia.
    + specialize (IH _ _ _ _ _ Hok' Hrest Hk). simpl in IH.
      unfold counters_inv in Hc. rewrite Ha, Hb in Hc. simpl in Hc.
      destruct (scenario bm); auto.
      * destruct IH as [-> ->]. destruct Hc as [-> ->].
        split; rewrite wrap_u32_add_l; f_equal; lia.
      * rewrite IH. destruct Hc as (-> & _).
        rewrite wrap_u32_add_l; f_equal; lia.
Qed.

(** Repeating the sequential schedule completes trial after trial. *)
Lemma trials_sequential bm k : forall o clk,
  barrierArg bm <= 3 -> Outer_ok (scenario bm) o ->
  exists sts, trials bm o clk (replicate k (sequential_schedule bm)) = Some sts /\
              length sts = k.
Proof.
  induction k as [|k IH]; intros o clk H3 Hok; cbn [replicate trials].
  - exists []. auto.
  - pose proof (sequential_schedule_finishes bm o clk H3 Hok) as Hf.
    rewrite Hf.
    destruct (IH (outer (run bm (sequential_schedule bm) (start_trial bm o clk)))
                (now (run bm (sequential_schedule bm) (start_trial bm o clk))) H3)
      as (sts & -> & Hl).
    + now apply trial_end_ok.
    + eexists. split; [reflexivity|]. simpl. now rewrite Hl.
Qed.

(** ** The barrier: the claims *)

(** C3. A [Barrier] built for [N] participants and called once by each of
    [N] threads: at no moment has a call returned while some thread has
    still to execute its increment (so none returns before all [N] have
    called), and under every fair schedule all [N] calls return. *)
Theorem barrier_rendezvous (N : nat) (sched : nat -> nat) :
  (1 <= N)%nat -> Z.of_nat N <= INT_MAX ->
  (forall m i : nat,
      Rendezvous.callers
        (Rendezvous.run_upto sched m (Rendezvous.init (Z.of_nat N) N)) !! i
      = Some Returned ->
      forall j : nat, (j < N)%nat ->
        exists p,
          Rendezvous.callers
            (Rendezvous.run_upto sched m (Rendezvous.init (Z.of_nat N) N)) !! j
          = Some p /\ p <> Calling) /\
  (Rendezvous.fair N sched ->
   exists n : nat, forall m : nat, (n <= m)%nat -> forall i : nat, (i < N)%nat ->
     Rendezvous.callers
       (Rendezvous.run_upto sched m (Rendezvous.init (Z.of_nat N) N)) !! i
     = Some Returned).
Proof.
  intros _ HN. split.
  - intros m i Hi j Hj.
    assert (Hinv : Rendezvous.inv (Z.of_nat N) N
                     (Rendezvous.run_upto sched m (Rendezvous.init (Z.of_nat N) N)))
      by (apply RendezvousFacts.inv_run_upto;
          [assumption | apply RendezvousFacts.inv_init]).
    pose proof (Rendezvous.inv_released _ _ _ Hinv i Hi) as Hge.
    pose proof (Rendezvous.inv_length _ _ _ Hinv) as Hlen.
    destruct (lookup_lt_is_Some_2
                (Rendezvous.callers
                   (Rendezvous.run_upto sched m (Rendezvous.init (Z.of_nat N) N)))
                j) as [p Hp]; [lia|].
    exists p. split; [assumption|]. intros ->.
    apply (RendezvousFacts.arrived_all _ j) in Hp; [assumption|].
    rewrite Hlen. assumption.
  - intros Hfair.
    destruct (RendezvousFacts.all_return N sched HN Hfair) as [n Hn].
    exists n. intros m Hm i Hi. now apply Hn.
Qed.

Lemma barrier_rendezvous_witness :
  Rendezvous.fair 3 (Rendezvous.round_robin 3) /\
  exists n, forall m, (n <= m)%nat -> forall i, (i < 3)%nat ->
    Rendezvous.callers
      (Rendezvous.run_upto (Rendezvous.round_robin 3) m (Rendezvous.init 3 3)) !! i
    = Some Returned.
Proof.
  split; [apply RendezvousFacts.round_robin_fair|].
  apply (barrier_rendezvous 3 (Rendezvous.round_robin 3)).
  - lia.
  - vm_compute. discriminate.
  - apply RendezvousFacts.round_robin_fair.
Defined.

(** C4. Construction sets the arrival counter to zero.  In every reachable
    state, one action of a thread that is about to arrive adds exactly one
    to the counter and puts the thread in its polling loop; one action of a
    polling thread changes nothing in the barrier, and the thread returns
    exactly when the counter is no longer below [_numTotalThreads], else it
    polls again; no other thread is affected. *)
Theorem barrier_arriveAndWait_protocol
    (total : Z) (K : nat) (sched : nat -> nat) (m i : nat) :
  Z.of_nat K <= INT_MAX ->
  let st := Rendezvous.run_upto sched m (Rendezvous.init total K) in
  _numThreadsArrived (Rendezvous.barrier (Rendezvous.init total K)) = 0 /\
  match Rendezvous.callers st !! i with
  | Some Calling =>
      _numThreadsArrived (Rendezvous.barrier (Rendezvous.step i st))
      = _numThreadsArrived (Rendezvous.barrier st) + 1 /\
      Rendezvous.callers (Rendezvous.step i st) !! i = Some Polling
  | Some Polling =>
      Rendezvous.barrier (Rendezvous.step i st) = Rendezvous.barrier st /\
      Rendezvous.callers (Rendezvous.step i st) !! i
      = Some (if _numThreadsArrived (Rendezvous.barrier st)
                 <? _numTotalThreads (Rendezvous.barrier st)
              then Polling else Returned)
  | Some Returned | None => Rendezvous.step i st = st
  end /\
  _numTotalThreads (Rendezvous.barrier (Rendezvous.step i st)) = total /\
  forall j, j <> i ->
    Rendezvous.callers (Rendezvous.step i st) !! j = Rendezvous.callers st !! j.
Proof.
  intros HK st.
  assert (Hinv : Rendezvous.inv total K st)
    by (apply RendezvousFacts.inv_run_upto;
        [assumption | apply RendezvousFacts.inv_init]).
  assert (Hinv' : Rendezvous.inv total K (Rendezvous.step i st))
    by (now apply RendezvousFacts.inv_step).
  split; [reflexivity|]. split; [|split].
  - destruct (Rendezvous.callers st !! i) as [p|] eqn:Hi.
    + pose proof (lookup_lt_Some _ _ _ Hi) as Hlt.
      destruct p.
      * split.
        -- rewrite (Rendezvous.inv_count _ _ _ Hinv'), (Rendezvous.inv_count _ _ _ Hinv).
           unfold Rendezvous.step. rewrite Hi. simpl.
           now apply RendezvousFacts.arrived_enter.
        -- unfold Rendezvous.step. rewrite Hi. simpl.
           now apply list_lookup_insert_eq.
      * unfold Rendezvous.step. rewrite Hi. simpl. unfold must_spin.
        destruct (_numThreadsArrived (Rendezvous.barrier st)
                    <? _numTotalThreads (Rendezvous.barrier st)); simpl;
          (split; [reflexivity | now apply list_lookup_insert_eq]).
      * unfold Rendezvous.step. rewrite Hi. simpl.
        rewrite list_insert_id by assumption. now destruct st.
    + unfold Rendezvous.step. now rewrite Hi.
  - apply (Rendezvous.inv_total _ _ _ Hinv').
  - intros j Hne. unfold Rendezvous.step.
    destruct (Rendezvous.callers st !! i) as [p|]; [|reflexivity].
    destruct (arriveAndWait_step p (Rendezvous.barrier st)) as [p' b']. simpl.
    now apply list_lookup_insert_ne.
Qed.

Lemma barrier_arriveAndWait_protocol_witness :
  _numThreadsArrived
    (Rendezvous.barrier
       (Rendezvous.step 1
          (Rendezvous.run_upto (Rendezvous.round_robin 3) 1 (Rendezvous.init 3 3))))
  = _numThreadsArrived
      (Rendezvous.barrier
         (Rendezvous.run_upto (Rendezvous.round_robin 3) 1 (Rendezvous.init 3 3)))
    + 1.
Proof.
  pose proof (barrier_arriveAndWait_protocol 3 3 (Rendezvous.round_robin 3) 1 1)
    as H.
  assert (HK : Z.of_nat 3 <= INT_MAX) by (vm_compute; discriminate).
  specialize (H HK). simpl in H.
  exact (proj1 (proj1 (proj2 H))).
Defined.

(** C5. When fewer threads call [arriveAndWait()] than the barrier was built
    for, no call ever returns: every thread that has arrived polls for ever,
    under every schedule. *)
Theorem barrier_too_few_callers (total : Z) (K : nat) (sched : nat -> nat) :
  total <= INT_MAX -> Z.of_nat K < total ->
  (forall m i,
      Rendezvous.callers (Rendezvous.run_upto sched m (Rendezvous.init total K)) !! i
      <> Some Returned) /\
  (forall n m i, (n <= m)%nat ->
      Rendezvous.callers (Rendezvous.run_upto sched n (Rendezvous.init total K)) !! i
      = Some Polling ->
      Rendezvous.callers (Rendezvous.run_upto sched m (Rendezvous.init total K)) !! i
      = Some Polling).
Proof.
  intros Ht HK. split.
  - intros m i Hi.
    assert (Hinv : Rendezvous.inv total K
                     (Rendezvous.run_upto sched m (Rendezvous.init total K)))
      by (apply RendezvousFacts.inv_run_upto;
          [lia | apply RendezvousFacts.inv_init]).
    pose proof (Rendezvous.inv_released _ _ _ Hinv i Hi) as Hge.
    pose proof (RendezvousFacts.arrived_bounds
                  (Rendezvous.callers
                     (Rendezvous.run_upto sched m (Rendezvous.init total K)))) as Hb.
    rewrite (Rendezvous.inv_length _ _ _ Hinv) in Hb. lia.
  - intros n m i Hnm Hn.
    eapply RendezvousFacts.run_upto_polling; eauto. lia.
Qed.

Lemma barrier_too_few_callers_witness :
  Z.of_nat 2 < 3 /\
  Rendezvous.callers
    (Rendezvous.run_upto (Rendezvous.round_robin 2) 1 (Rendezvous.init 3 2)) !! 0%nat
  = Some Polling /\
  Rendezvous.callers
    (Rendezvous.run_upto (Rendezvous.round_robin 2) 9 (Rendezvous.init 3 2)) !! 0%nat
  = Some Polling.
Proof.
  assert (Ht : 3 <= INT_MAX) by (vm_compute; discriminate).
  assert (HK : Z.of_nat 2 < 3) by lia.
  split; [exact HK|]. split; [reflexivity|].
  apply (proj2 (barrier_too_few_callers 3 2 (Rendezvous.round_robin 2) Ht HK)
           1%nat 9%nat 0%nat).
  - lia.
  - reflexivity.
Defined.

(** ** The trials: the claims *)

(** C1. [BM_falseSharing], [BM_noFalseSharing] and [BM_useMutex] build
    their barrier for the two workers plus the measuring thread, and with
    such a barrier the clock is read for [start] only after both workers
    have arrived.  [BM_useMutexNoContention] and [BM_useAtomic] build it for
    two: there the measuring thread can read the clock while thread b has
    not yet arrived. *)
Theorem barrier_arg_and_thread_count :
  barrierArg BM_falseSharing = 2 + 1 /\
  barrierArg BM_noFalseSharing = 2 + 1 /\
  barrierArg BM_useMutex = 2 + 1 /\
  (forall bm o clk sched,
      barrierArg bm = 2 + 1 ->
      timing_started (main_pc (run bm sched (start_trial bm o clk))) = true ->
      worker_arrived (pc (frame_a (run bm sched (start_trial bm o clk)))) = 1 /\
      worker_arrived (pc (frame_b (run bm sched (start_trial bm o clk)))) = 1) /\
  barrierArg BM_useMutexNoContention = 2 /\
  barrierArg BM_useAtomic = 2 /\
  (timing_started
     (main_pc (run BM_useMutexNoContention early_start_schedule
                 (start_trial BM_useMutexNoContention Outer_init 0))) = true /\
   pc (frame_b (run BM_useMutexNoContention early_start_schedule
                  (start_trial BM_useMutexNoContention Outer_init 0)))
   = InBarrier Calling) /\
  (timing_started
     (main_pc (run BM_useAtomic early_start_schedule
                 (start_trial BM_useAtomic Outer_init 0))) = true /\
   pc (frame_b (run BM_useAtomic early_start_schedule
                  (start_trial BM_useAtomic Outer_init 0)))
   = InBarrier Calling).
Proof.
  repeat split; try reflexivity.
  all: match goal with |- worker_arrived _ = 1 => idtac end.
  all: pose proof (barrier_inv_run bm sched _ (barrier_inv_start bm o clk))
    as [_ Hc Hm _ _ _].
  all: pose proof (worker_arrived_range
                     (pc (frame_a (run bm sched (start_trial bm o clk))))).
  all: pose proof (worker_arrived_range
                     (pc (frame_b (run bm sched (start_trial bm o clk))))).
  all: pose proof (main_arrived_range (main_pc (run bm sched (start_trial bm o clk)))).
  all: assert (Hrel : main_released (main_pc (run bm sched (start_trial bm o clk)))
                      = true)
    by (destruct (main_pc (run bm sched (start_trial bm o clk))) as [| |[]| | | | |];
        simpl in *; congruence).
  all: specialize (Hm Hrel); lia.
Qed.

(** C2, as the code has it.  A completed trial of a shared-mutex benchmark
    leaves the counter at its value from before the trial plus two times
    the iteration count, modulo 2^32, and a completed trial of an
    atomic-counter benchmark leaves its counter at two times the iteration
    count (as an [int32_t]): no increment is lost, under any schedule.  So
    the first trial of [BM_useMutex] and every trial of [BM_useAtomic] end
    with 2000000. *)
Theorem synchronized_counter_exact :
  (forall bm o clk sched,
      scenario bm = SharedMutex -> Outer_ok SharedMutex o ->
      finished (run bm sched (start_trial bm o clk)) = true ->
      counter (outer (run bm sched (start_trial bm o clk)))
      = wrap_u32 (counter o + 2 * Z.max 0 (numIterations bm))) /\
  (forall bm o clk sched,
      scenario bm = AtomicCounter ->
      finished (run bm sched (start_trial bm o clk)) = true ->
      atomic_counter (run bm sched (start_trial bm o clk))
      = wrap_i32 (2 * Z.max 0 (numIterations bm))) /\
  (forall clk sched,
      finished (run BM_useMutex sched (start_trial BM_useMutex Outer_init clk)) = true ->
      counter (outer (run BM_useMutex sched (start_trial BM_useMutex Outer_init clk)))
      = 2000000) /\
  (forall o clk sched,
      finished (run BM_useAtomic sched (start_trial BM_useAtomic o clk)) = true ->
      atomic_counter (run BM_useAtomic sched (start_trial BM_useAtomic o clk))
      = 2000000).
Proof.
  assert (Hshared : forall bm o clk sched,
      scenario bm = SharedMutex -> Outer_ok SharedMutex o ->
      finished (run bm sched (start_trial bm o clk)) = true ->
      counter (outer (run bm sched (start_trial bm o clk)))
      = wrap_u32 (counter o + 2 * Z.max 0 (numIterations bm))).
  { intros bm o clk sched Hsc Hok Hf. rewrite <- Hsc in Hok.
    destruct (trial_end bm o clk sched Hok Hf) as (Hc & Ha & Hb).
    unfold counters_inv in Hc. rewrite Hsc, Ha, Hb in Hc. simpl in Hc.
    destruct Hc as (-> & _). f_equal. lia. }
  assert (Hatomic : forall bm o clk sched,
      scenario bm = AtomicCounter ->
      finished (run bm sched (start_trial bm o clk)) = true ->
      atomic_counter (run bm sched (start_trial bm o clk))
      = wrap_i32 (2 * Z.max 0 (numIterations bm))).
  { intros bm o clk sched Hsc Hf.
    assert (Hok : Outer_ok (scenario bm) o) by (rewrite Hsc; exact I).
    destruct (trial_end bm o clk sched Hok Hf) as (Hc & Ha & Hb).
    unfold counters_inv in Hc. rewrite Hsc, Ha, Hb in Hc. simpl in Hc.
    rewrite Hc. f_equal. lia. }
  repeat split; try assumption.
  - intros clk sched Hf.
    rewrite (Hshared BM_useMutex Outer_init clk sched eq_refl); [| |assumption].
    + simpl. apply wrap_u32_small. lia.
    + simpl. split; [lia | reflexivity].
  - intros o clk sched Hf.
    rewrite (Hatomic BM_useAtomic o clk sched eq_refl Hf).
    simpl. apply wrap_i32_small. unfold INT_MAX. lia.
Qed.

Lemma synchronized_counter_exact_witness :
  finished (run BM_useMutex (sequential_schedule BM_useMutex)
              (start_trial BM_useMutex Outer_init 0)) = true /\
  counter (outer (run BM_useMutex (sequential_schedule BM_useMutex)
                    (start_trial BM_useMutex Outer_init 0))) = 2000000.
Proof.
  assert (Hf : finished (run BM_useMutex (sequential_schedule BM_useMutex)
                           (start_trial BM_useMutex Outer_init 0)) = true).
  { apply sequential_schedule_finishes.
    - simpl. lia.
    - simpl. split; [lia | reflexivity]. }
  split; [exact Hf|].
  exact (proj1 (proj2 (proj2 synchronized_counter_exact)) 0 _ Hf).
Defined.

(** C2 as stated fails from the second trial of [BM_useMutex] on: the
    counter is declared before the trial loop, so after the second trial it
    holds 4000000, not 2 * 1000000. *)
Lemma useMutex_second_trial_counter :
  exists st1 st2,
    invoke BM_useMutex
      [sequential_schedule BM_useMutex; sequential_schedule BM_useMutex]
    = Some [st1; st2] /\
    counter (outer st2) = 4000000 /\
    counter (outer st2) <> 2 * kNumIterationsMutex.
Proof.
  assert (Hok : Outer_ok (scenario BM_useMutex) Outer_init)
    by (simpl; split; [lia | reflexivity]).
  assert (H3 : barrierArg BM_useMutex <= 3) by (simpl; lia).
  destruct (trials_sequential BM_useMutex 2 Outer_init 0 H3 Hok) as (sts & Htr & Hl).
  unfold invoke.
  remember (sequential_schedule BM_useMutex) as s eqn:E. clear E.
  destruct sts as [|st1 [|st2 [|? ?]]]; try discriminate Hl.
  exists st1, st2. split; [exact Htr|].
  pose proof (trials_counters BM_useMutex _ Outer_init 0 _ 1%nat st2 Hok Htr eq_refl)
    as Hc.
  simpl in Hc. rewrite Hc.
  change (0 + (Z.of_nat 1 + 1) * (2 * Z.max 0 kNumIterationsMutex)) with 4000000.
  rewrite wrap_u32_small by lia. split; [reflexivity | discriminate].
Qed.

(** C6, as the code has it.  After a trial of the false-sharing scenario
    in which each worker performs its [numIterations] plain increments on
    its own counter, each counter is at most its value from before the
    trial plus the iteration count, and it lies within [std::uint32_t];
    when the trial starts from counters at zero, as the first trial of
    [BM_falseSharing] does, each counter is therefore at most the iteration
    count.  Nothing but increments reaches a counter: at every moment it
    holds its value from before the trial plus the increments its thread has
    completed, modulo 2^32, which after the trial is that value plus the
    iteration count, modulo 2^32; after the first trial of
    [BM_falseSharing] it is 1000000. *)
Theorem own_counter_trial_adds_I :
  (forall bm o clk sched,
      scenario bm = OwnCounter -> Outer_ok OwnCounter o ->
      finished (run bm sched (start_trial bm o clk)) = true ->
      counterA (outer (run bm sched (start_trial bm o clk)))
      <= counterA o + Z.max 0 (numIterations bm) /\
      counterB (outer (run bm sched (start_trial bm o clk)))
      <= counterB o + Z.max 0 (numIterations bm)) /\
  (forall bm o clk sched,
      scenario bm = OwnCounter -> counterA o = 0 -> counterB o = 0 ->
      0 <= numIterations bm ->
      finished (run bm sched (start_trial bm o clk)) = true ->
      counterA (outer (run bm sched (start_trial bm o clk))) <= numIterations bm /\
      counterB (outer (run bm sched (start_trial bm o clk))) <= numIterations bm) /\
  (forall bm o clk sched,
      scenario bm = OwnCounter -> Outer_ok OwnCounter o ->
      counterA (outer (run bm sched (start_trial bm o clk)))
      = wrap_u32 (counterA o
                  + completed (numIterations bm)
                      (pc (frame_a (run bm sched (start_trial bm o clk))))) /\
      counterB (outer (run bm sched (start_trial bm o clk)))
      = wrap_u32 (counterB o
                  + completed (numIterations bm)
                      (pc (frame_b (run bm sched (start_trial bm o clk))))) /\
      0 <= counterA (outer (run bm sched (start_trial bm o clk))) < 2 ^ 32 /\
      0 <= counterB (outer (run bm sched (start_trial bm o clk))) < 2 ^ 32) /\
  (forall bm o clk sched,
      scenario bm = OwnCounter -> Outer_ok OwnCounter o ->
      finished (run bm sched (start_trial bm o clk)) = true ->
      counterA (outer (run bm sched (start_trial bm o clk)))
      = wrap_u32 (counterA o + Z.max 0 (numIterations bm)) /\
      counterB (outer (run bm sched (start_trial bm o clk)))
      = wrap_u32 (counterB o + Z.max 0 (numIterations bm))) /\
  (forall clk sched,
      finished (run BM_falseSharing sched (start_trial BM_falseSharing Outer_init clk))
      = true ->
      counterA (outer (run BM_falseSharing sched
                         (start_trial BM_falseSharing Outer_init clk)))
      = kNumIterationsFalseSharing /\
      counterB (outer (run BM_falseSharing sched
                         (start_trial BM_falseSharing Outer_init clk)))
      = kNumIterationsFalseSharing).
Proof.
  assert (Hany : forall bm o clk sched,
      scenario bm = OwnCounter -> Outer_ok OwnCounter o ->
      counterA (outer (run bm sched (start_trial bm o clk)))
      = wrap_u32 (counterA o
                  + completed (numIterations bm)
                      (pc (frame_a (run bm sched (start_trial bm o clk))))) /\
      counterB (outer (run bm sched (start_trial bm o clk)))
      = wrap_u32 (counterB o
                  + completed (numIterations bm)
                      (pc (frame_b (run bm sched (start_trial bm o clk)))))).
  { intros bm o clk sched Hsc Hok. rewrite <- Hsc in Hok.
    destruct (run_inv bm o clk sched Hok) as (_ & Ht & _).
    pose proof (ti_counters _ _ _ Ht) as Hc.
    unfold counters_inv in Hc. now rewrite Hsc in Hc. }
  assert (Hdone : forall bm o clk sched,
      scenario bm = OwnCounter -> Outer_ok OwnCounter o ->
      finished (run bm sched (start_trial bm o clk)) = true ->
      counterA (outer (run bm sched (start_trial bm o clk)))
      = wrap_u32 (counterA o + Z.max 0 (numIterations bm)) /\
      counterB (outer (run bm sched (start_trial bm o clk)))
      = wrap_u32 (counterB o + Z.max 0 (numIterations bm))).
  { intros bm o clk sched Hsc Hok Hf.
    destruct (Hany bm o clk sched Hsc Hok) as [HA HB].
    rewrite <- Hsc in Hok.
    destruct (trial_end bm o clk sched Hok Hf) as (_ & Ha & Hb).
    rewrite Ha in HA. rewrite Hb in HB. auto. }
  assert (Hbound : forall bm o clk sched,
      scenario bm = OwnCounter -> Outer_ok OwnCounter o ->
      finished (run bm sched (start_trial bm o clk)) = true ->
      counterA (outer (run bm sched (start_trial bm o clk)))
      <= counterA o + Z.max 0 (numIterations bm) /\
      counterB (outer (run bm sched (start_trial bm o clk)))
      <= counterB o + Z.max 0 (numIterations bm)).
  { intros bm o clk sched Hsc Hok Hf.
    destruct (Hdone bm o clk sched Hsc Hok Hf) as [-> ->].
    destruct Hok as [HA HB]. split; apply wrap_u32_le; lia. }
  split; [exact Hbound|]. split; [|split; [|split]].
  - intros bm o clk sched Hsc HA0 HB0 HI Hf.
    destruct (Hbound bm o clk sched Hsc) as [HA HB];
      [simpl; rewrite HA0, HB0; lia | assumption |].
    rewrite HA0 in HA. rewrite HB0 in HB. split; lia.
  - intros bm o clk sched Hsc Hok.
    destruct (Hany bm o clk sched Hsc Hok) as [HA HB].
    repeat split; try assumption.
    all: first [rewrite HA | rewrite HB]; apply wrap_u32_range.
  - exact Hdone.
  - intros clk sched Hf.
    destruct (Hdone BM_falseSharing Outer_init clk sched eq_refl) as [HA HB];
      [simpl; lia | assumption |].
    rewrite HA, HB. simpl. split; apply wrap_u32_small; unfold kNumIterationsFalseSharing; lia.
Qed.

Lemma own_counter_trial_adds_I_witness :
  finished (run BM_falseSharing (sequential_schedule BM_falseSharing)
              (start_trial BM_falseSharing Outer_init 0)) = true /\
  counterA (outer (run BM_falseSharing (sequential_schedule BM_falseSharing)
                     (start_trial BM_falseSharing Outer_init 0)))
  <= numIterations BM_falseSharing /\
  counterA (outer (run BM_falseSharing (sequential_schedule BM_falseSharing)
                     (start_trial BM_falseSharing Outer_init 0)))
  = kNumIterationsFalseSharing.
Proof.
  assert (Hf : finished (run BM_falseSharing (sequential_schedule BM_falseSharing)
                           (start_trial BM_falseSharing Outer_init 0)) = true).
  { apply sequential_schedule_finishes.
    - simpl. lia.
    - simpl. lia. }
  split; [exact Hf|]. split.
  - exact (proj1 (proj1 (proj2 own_counter_trial_adds_I)
                    BM_falseSharing Outer_init 0 _ eq_refl eq_refl eq_refl
                    ltac:(simpl; unfold kNumIterationsFalseSharing; lia) Hf)).
  - exact (proj1 (proj2 (proj2 (proj2 (proj2 own_counter_trial_adds_I))) 0 _ Hf)).
Defined.

(** C6 as stated fails at the second trial of [BM_falseSharing]: the
    counters are declared before the trial loop, so the second trial starts
    from 1000000 and leaves [counterA] at 2000000, more than the iteration
    count. *)
Lemma falseSharing_second_trial_counter :
  exists st1 st2,
    invoke BM_falseSharing
      [sequential_schedule BM_falseSharing; sequential_schedule BM_falseSharing]
    = Some [st1; st2] /\
    counterA (outer st2) = 2000000 /\
    ~ counterA (outer st2) <= kNumIterationsFalseSharing.
Proof.
  assert (Hok : Outer_ok (scenario BM_falseSharing) Outer_init) by (simpl; lia).
  assert (H3 : barrierArg BM_falseSharing <= 3) by (simpl; lia).
  destruct (trials_sequential BM_falseSharing 2 Outer_init 0 H3 Hok)
    as (sts & Htr & Hl).
  unfold invoke.
  remember (sequential_schedule BM_falseSharing) as s eqn:E. clear E.
  destruct sts as [|st1 [|st2 [|? ?]]]; try discriminate Hl.
  exists st1, st2. split; [exact Htr|].
  pose proof (trials_counters BM_falseSharing _ Outer_init 0 _ 1%nat st2 Hok Htr
                eq_refl) as Hc.
  simpl in Hc. destruct Hc as [Hc _]. rewrite Hc.
  change (0 + (Z.of_nat 1 + 1) * Z.max 0 kNumIterationsFalseSharing) with 2000000.
  rewrite wrap_u32_small by lia.
  split; [reflexivity | unfold kNumIterationsFalseSharing; lia].
Qed.

(** A worker's action in the private-mutex scenario touches its own frame
    and, while it is at the barrier, the barrier; nothing else. *)
Lemma private_step_frame bm w st :
  scenario bm = PrivateMutex ->
  pc_ok PrivateMutex (numIterations bm) (pc (frame w st)) ->
  frame (other w) (worker_step bm w st) = frame (other w) st /\
  outer (worker_step bm w st) = outer st /\
  atomic_counter (worker_step bm w st) = atomic_counter st.
Proof.
  intros Hsc Hpc.
  unfold worker_step, arriveAndWait_step, read_counter, write_counter.
  rewrite Hsc. destruct w; simpl in *; break_step; auto.
  all: simpl in Hpc; rewrite ?Heqw in Hpc; simpl in Hpc; tauto.
Qed.

(** C7. In the private-mutex scenario a worker declares its own mutex and
    its own counter when it leaves the barrier; its actions change nothing
    of the other worker's frame nor any variable outside; and when the
    trial is over each worker's counter equals the iteration count, its
    mutex released.  For [BM_useMutexNoContention] that is 1000000. *)
Theorem private_counters_exact :
  (forall bm w st,
      scenario bm = PrivateMutex -> pc (frame w st) = InBarrier Returned ->
      frame w (worker_step bm w st) = mkFrame (LoopTest 0) 0 false) /\
  (forall bm o clk sched w,
      scenario bm = PrivateMutex ->
      frame (other w)
        (step bm (Run (W w)) (run bm sched (start_trial bm o clk)))
      = frame (other w) (run bm sched (start_trial bm o clk)) /\
      outer (step bm (Run (W w)) (run bm sched (start_trial bm o clk)))
      = outer (run bm sched (start_trial bm o clk)) /\
      atomic_counter (step bm (Run (W w)) (run bm sched (start_trial bm o clk)))
      = atomic_counter (run bm sched (start_trial bm o clk))) /\
  (forall bm o clk sched w,
      scenario bm = PrivateMutex -> 0 <= numIterations bm < 2 ^ 32 ->
      finished (run bm sched (start_trial bm o clk)) = true ->
      local_counter (frame w (run bm sched (start_trial bm o clk)))
      = numIterations bm /\
      local_mtx (frame w (run bm sched (start_trial bm o clk))) = false) /\
  (forall o clk sched w,
      finished (run BM_useMutexNoContention sched
                  (start_trial BM_useMutexNoContention o clk)) = true ->
      local_counter (frame w (run BM_useMutexNoContention sched
                                (start_trial BM_useMutexNoContention o clk)))
      = 1000000).
Proof.
  assert (Hdone : forall bm o clk sched w,
      scenario bm = PrivateMutex -> 0 <= numIterations bm < 2 ^ 32 ->
      finished (run bm sched (start_trial bm o clk)) = true ->
      local_counter (frame w (run bm sched (start_trial bm o clk)))
      = numIterations bm /\
      local_mtx (frame w (run bm sched (start_trial bm o clk))) = false).
  { intros bm o clk sched w Hsc Hn Hf.
    assert (Hok : Outer_ok (scenario bm) o) by (rewrite Hsc; exact I).
    destruct (trial_end bm o clk sched Hok Hf) as (Hc & Ha & Hb).
    unfold counters_inv in Hc. rewrite Hsc in Hc.
    specialize (Hc w).
    assert (Hw : pc (frame w (run bm sched (start_trial bm o clk))) = Exited)
      by (destruct w; assumption).
    rewrite Hw in Hc. destruct (Hc eq_refl) as [-> ->]. simpl.
    split; [|reflexivity].
    rewrite Z.max_r by lia. now apply wrap_u32_small. }
  assert (Hframe : forall bm o clk sched w,
      scenario bm = PrivateMutex ->
      frame (other w)
        (step bm (Run (W w)) (run bm sched (start_trial bm o clk)))
      = frame (other w) (run bm sched (start_trial bm o clk)) /\
      outer (step bm (Run (W w)) (run bm sched (start_trial bm o clk)))
      = outer (run bm sched (start_trial bm o clk)) /\
      atomic_counter (step bm (Run (W w)) (run bm sched (start_trial bm o clk)))
      = atomic_counter (run bm sched (start_trial bm o clk))).
  { intros bm o clk sched w Hsc.
    assert (Hok : Outer_ok (scenario bm) o) by (rewrite Hsc; exact I).
    destruct (run_inv bm o clk sched Hok) as (_ & Ht & _).
    pose proof (ti_pc _ _ _ Ht w) as Hpc. rewrite Hsc in Hpc.
    now apply private_step_frame. }
  split; [|split; [|split]].
  - intros bm w st Hsc Hpc. unfold worker_step. rewrite Hpc, Hsc.
    destruct w; reflexivity.
  - exact Hframe.
  - exact Hdone.
  - intros o clk sched w Hf.
    apply (Hdone BM_useMutexNoContention); [reflexivity | simpl | assumption].
    unfold kNumIterationsMutex. lia.
Qed.

Lemma private_counters_exact_witness :
  finished (run BM_useMutexNoContention (sequential_schedule BM_useMutexNoContention)
              (start_trial BM_useMutexNoContention Outer_init 0)) = true /\
  local_counter
    (frame ThreadB
       (run BM_useMutexNoContention (sequential_schedule BM_useMutexNoContention)
          (start_trial BM_useMutexNoContention Outer_init 0))) = 1000000.
Proof.
  assert (Hf : finished (run BM_useMutexNoContention
                           (sequential_schedule BM_useMutexNoContention)
                           (start_trial BM_useMutexNoContention Outer_init 0)) = true).
  { apply sequential_schedule_finishes.
    - simpl. lia.
    - exact I. }
  split; [exact Hf|].
  exact (proj2 (proj2 (proj2 private_counters_exact)) Outer_init 0 _ ThreadB Hf).
Defined.

Lemma step_same_body bm bm' e st :
  scenario bm = scenario bm' -> numIterations bm = numIterations bm' ->
  step bm e st = step bm' e st.
Proof.
  intros Hs Hn. destruct e as [[w|]|]; simpl; [|reflexivity|reflexivity].
  unfold worker_step. now rewrite Hs, Hn.
Qed.

Lemma run_same_body bm bm' sched : forall st,
  scenario bm = scenario bm' -> numIterations bm = numIterations bm' ->
  run bm sched st = run bm' sched st.
Proof.
  induction sched as [|e sched IH]; intros st Hs Hn; simpl; [reflexivity|].
  rewrite (step_same_body bm bm') by assumption. now apply IH.
Qed.

Lemma aligned_cache_line line addr i :
  4 <= line -> (line | 128) -> aligned 128 addr -> 0 <= i < 4 ->
  exists m, 0 < m /\ 128 = m * line /\
            cache_line line (addr + i) = m * (addr / 128).
Proof.
  intros Hl [m Hm] Ha Hi. unfold aligned in Ha. unfold cache_line.
  exists m. assert (0 < m) by nia. repeat split; try assumption.
  pose proof (Z.div_mod addr 128 ltac:(lia)) as Hdm.
  set (q := addr / 128) in *.
  assert (Haddr : addr + i = m * q * line + i).
  { replace (m * q * line) with (m * line * q) by ring. rewrite <- Hm. lia. }
  rewrite Haddr, Z.div_add_l by lia.
  rewrite (Z.div_small i line) by lia. lia.
Qed.

(** C8. [BM_noFalseSharing] has the barrier argument, the iteration count
    and the loop body of [BM_falseSharing]; every transition and so every
    run of the two is the same; the one difference is the [alignas(128)] of
    its counters, which puts the [val] of two distinct counters in distinct
    cache lines, whatever the line size dividing 128. *)
Theorem noFalseSharing_differs_in_alignment_only :
  barrierArg BM_noFalseSharing = barrierArg BM_falseSharing /\
  numIterations BM_noFalseSharing = numIterations BM_falseSharing /\
  scenario BM_noFalseSharing = scenario BM_falseSharing /\
  (forall e st, step BM_noFalseSharing e st = step BM_falseSharing e st) /\
  (forall o clk sched,
      run BM_noFalseSharing sched (start_trial BM_noFalseSharing o clk)
      = run BM_falseSharing sched (start_trial BM_falseSharing o clk)) /\
  counterAlignas BM_falseSharing = None /\
  counterAlignas BM_noFalseSharing = Some 128 /\
  (forall line addrA addrB i j,
      4 <= line -> (line | 128) ->
      aligned 128 addrA -> aligned 128 addrB -> addrA <> addrB ->
      0 <= i < 4 -> 0 <= j < 4 ->
      cache_line line (addrA + i) <> cache_line line (addrB + j)).
Proof.
  do 3 (split; [reflexivity|]).
  split; [intros e st; now apply step_same_body|].
  split; [intros o clk sched; now apply run_same_body|].
  do 2 (split; [reflexivity|]).
  intros line addrA addrB i j Hl Hd HA HB Hne Hi Hj Heq.
  destruct (aligned_cache_line line addrA i Hl Hd HA Hi) as (m & Hm & E & EA).
  destruct (aligned_cache_line line addrB j Hl Hd HB Hj) as (m' & Hm' & E' & EB).
  assert (m = m') by nia. subst m'.
  rewrite EA, EB in Heq.
  assert (addrA / 128 = addrB / 128) by nia.
  unfold aligned in HA, HB.
  pose proof (Z.div_mod addrA 128 ltac:(lia)).
  pose proof (Z.div_mod addrB 128 ltac:(lia)).
  lia.
Qed.

Lemma noFalseSharing_differs_in_alignment_only_witness :
  aligned 128 0 /\ aligned 128 128 /\
  cache_line 64 (0 + 3) <> cache_line 64 (128 + 0).
Proof.
  split; [reflexivity|]. split; [reflexivity|].
  apply (proj2 (proj2 (proj2 (proj2 (proj2 (proj2 (proj2
           noFalseSharing_differs_in_alignment_only))))))).
  - lia.
  - exists 2. reflexivity.
  - reflexivity.
  - reflexivity.
  - discriminate.
  - lia.
  - lia.
Defined.

(** C9.  In a trial of any of the five benchmarks the measuring thread's
    next action after its [arriveAndWait()] has returned is to read the
    clock into [start]; a [join()] does not return before the worker has
    run to its end; the next action after the second join is to read the
    clock into [end], and both workers have ended by then.  When the trial
    is over its log is: spawn a, spawn b, arrive, return from the barrier,
    read the clock, join a, join b, read the clock, report; the framework
    has received exactly one sample, the seconds of [end - start].  Before
    that it has received none.

    With a barrier built for three ([BM_falseSharing], [BM_noFalseSharing],
    [BM_useMutex]) both workers have been started and have arrived at the
    barrier once the measuring thread is past it, and the barrier is open:
    what lies between [start] and [end] contains no start of a thread and no
    waiting at the barrier.  [BM_useMutexNoContention] and [BM_useAtomic]
    build the barrier for two, and there this fails: [start] is read while
    thread b, though spawned, has not executed anything yet. *)
Theorem trial_reports_end_minus_start :
  (forall (bm : Benchmark) (o : Outer) (clk : Z) (sched : list Event),
      let st := run bm sched (start_trial bm o clk) in
      (main_pc st = MainBarrier Returned ->
       main_pc (step bm (Run Main) st) = JoinA /\
       start (step bm (Run Main) st) = now st) /\
      (main_pc st = JoinA -> pc (frame_a st) <> Exited ->
       step bm (Run Main) st = st) /\
      (main_pc st = JoinB -> pc (frame_b st) <> Exited ->
       step bm (Run Main) st = st) /\
      (main_pc st = TakeEnd ->
       pc (frame_a st) = Exited /\ pc (frame_b st) = Exited /\
       main_pc (step bm (Run Main) st) = Report /\
       end_ (step bm (Run Main) st) = now st) /\
      (finished st = true ->
       log st = [EvSpawn ThreadA; EvSpawn ThreadB; EvArrive; EvBarrierReturn;
                 EvNow (start st); EvJoin ThreadA; EvJoin ThreadB; EvNow (end_ st);
                 EvSetIterationTime (elapsed_seconds (end_ st - start st))] /\
       reports st = [elapsed_seconds (end_ st - start st)]) /\
      (finished st = false -> reports st = []) /\
      (barrierArg bm = 3 -> main_released (main_pc st) = true ->
       worker_arrived (pc (frame_a st)) = 1 /\
       worker_arrived (pc (frame_b st)) = 1 /\
       _numTotalThreads (barrier st) <= _numThreadsArrived (barrier st))) /\
  (main_pc (run BM_useMutexNoContention early_start_schedule
              (start_trial BM_useMutexNoContention Outer_init 0)) = JoinA /\
   log (run BM_useMutexNoContention early_start_schedule
          (start_trial BM_useMutexNoContention Outer_init 0))
   = [EvSpawn ThreadA; EvSpawn ThreadB; EvArrive; EvBarrierReturn; EvNow 0] /\
   pc (frame_b (run BM_useMutexNoContention early_start_schedule
                  (start_trial BM_useMutexNoContention Outer_init 0)))
   = InBarrier Calling) /\
  (main_pc (run BM_useAtomic early_start_schedule
              (start_trial BM_useAtomic Outer_init 0)) = JoinA /\
   log (run BM_useAtomic early_start_schedule
          (start_trial BM_useAtomic Outer_init 0))
   = [EvSpawn ThreadA; EvSpawn ThreadB; EvArrive; EvBarrierReturn; EvNow 0] /\
   pc (frame_b (run BM_useAtomic early_start_schedule
                  (start_trial BM_useAtomic Outer_init 0)))
   = InBarrier Calling).
Proof.
  split; [|split; repeat split; reflexivity].
  intros bm o clk sched st.
  pose proof (main_inv_run bm sched _ (main_inv_start bm o clk))
    as [Hl Hr Hja Hjb _ _].
  pose proof (barrier_inv_run bm sched _ (barrier_inv_start bm o clk))
    as [Htot Hc Hm _ _ _].
  fold st in Hl, Hr, Hja, Hjb, Htot, Hc, Hm.
  split; [|split; [|split; [|split; [|split; [|split]]]]].
  - intros Hpc. simpl. unfold main_step. rewrite Hpc. simpl. auto.
  - intros Hpc Hne. simpl. unfold main_step, exited. rewrite Hpc.
    change (frame ThreadA st) with (frame_a st).
    destruct (pc (frame_a st)); try reflexivity. now elim Hne.
  - intros Hpc Hne. simpl. unfold main_step, exited. rewrite Hpc.
    change (frame ThreadB st) with (frame_b st).
    destruct (pc (frame_b st)); try reflexivity. now elim Hne.
  - intros Hpc. rewrite Hpc in Hja, Hjb.
    split; [now apply Hja|]. split; [now apply Hjb|].
    simpl. unfold main_step. rewrite Hpc. simpl. auto.
  - intros Hf. unfold finished in Hf.
    destruct (main_pc st) eqn:Hpc; try discriminate.
    simpl in *. split; assumption.
  - intros Hf. unfold finished in Hf.
    destruct (main_pc st) eqn:Hpc; try discriminate; assumption.
  - intros H3 Hrel. specialize (Hm Hrel). rewrite Htot.
    pose proof (worker_arrived_range (pc (frame_a st))).
    pose proof (worker_arrived_range (pc (frame_b st))).
    pose proof (main_arrived_range (main_pc st)).
    lia.
Qed.

Lemma trial_reports_end_minus_start_witness :
  finished (run BM_useAtomic (sequential_schedule BM_useAtomic)
              (start_trial BM_useAtomic Outer_init 0)) = true /\
  reports (run BM_useAtomic (sequential_schedule BM_useAtomic)
             (start_trial BM_useAtomic Outer_init 0))
  = [elapsed_seconds
       (end_ (run BM_useAtomic (sequential_schedule BM_useAtomic)
                (start_trial BM_useAtomic Outer_init 0))
        - start (run BM_useAtomic (sequential_schedule BM_useAtomic)
                   (start_trial BM_useAtomic Outer_init 0)))].
Proof.
  assert (Hf : finished (run BM_useAtomic (sequential_schedule BM_useAtomic)
                           (start_trial BM_useAtomic Outer_init 0)) = true).
  { apply sequential_schedule_finishes.
    - simpl. lia.
    - exact I. }
  split; [exact Hf|].
  exact (proj2 (proj1 (proj2 (proj2 (proj2 (proj2
           (proj1 trial_reports_end_minus_start BM_useAtomic Outer_init 0
              (sequential_schedule BM_useAtomic)))))) Hf)).
Defined.

(** Each trial of an invocation starts from the outer variables and the
    clock that the trial before it left. *)
Lemma trials_chain bm scheds : forall o clk sts k s st st',
  trials bm o clk scheds = Some sts ->
  sts !! k = Some st -> sts !! S k = Some st' -> scheds !! S k = Some s ->
  st' = run bm s (start_trial bm (outer st) (now st)).
Proof.
  induction scheds as [|s0 scheds IH]; intros o clk sts k s st st' Htr Hk Hk' Hs;
    cbn [trials] in Htr.
  - discriminate.
  - destruct (finished (run bm s0 (start_trial bm o clk))); [|discriminate].
    destruct (trials bm _ _ scheds) as [sts'|] eqn:Hrest; [|discriminate].
    injection Htr as <-.
    destruct k as [|k].
    + injection Hk as <-. simpl in Hk', Hs.
      destruct scheds as [|s1 scheds]; [discriminate|].
      injection Hs as ->. cbn [trials] in Hrest.
      destruct (finished _) in Hrest; [|discriminate].
      destruct (trials bm _ _ scheds) in Hrest; [|discriminate].
      injection Hrest as <-. now injection Hk' as <-.
    + simpl in Hk, Hk', Hs. eapply IH; eauto.
Qed.

(** C10.  The counters of [BM_useMutex] and of [BM_falseSharing] are zero
    when the function is entered and a trial starts from whatever the trial
    before it left, so after trial number [k] (counted from 0) they hold
    [k + 1] times what one trial adds, modulo 2^32; the counter of
    [BM_useAtomic] is zero at the start of every trial and 2000000 at the
    end of every trial. *)
Theorem outer_counters_accumulate
    (scheds : list (list Event)) (sts : list State) (k : nat) (st : State) :
  sts !! k = Some st ->
  (invoke BM_useMutex scheds = Some sts ->
   counter (outer st) = wrap_u32 ((Z.of_nat k + 1) * 2000000)) /\
  (invoke BM_falseSharing scheds = Some sts ->
   counterA (outer st) = wrap_u32 ((Z.of_nat k + 1) * 1000000) /\
   counterB (outer st) = wrap_u32 ((Z.of_nat k + 1) * 1000000)) /\
  (invoke BM_useAtomic scheds = Some sts -> atomic_counter st = 2000000) /\
  (forall bm s st', invoke bm scheds = Some sts ->
     sts !! S k = Some st' -> scheds !! S k = Some s ->
     st' = run bm s (start_trial bm (outer st) (now st))) /\
  (forall bm o clk,
     outer (start_trial bm o clk) = o /\ atomic_counter (start_trial bm o clk) = 0) /\
  counter Outer_init = 0 /\ counterA Outer_init = 0 /\ counterB Outer_init = 0.
Proof.
  intros Hk. split; [|split; [|split; [|split; [|split]]]].
  - intros Hinv.
    pose proof (trials_counters BM_useMutex scheds Outer_init 0 sts k st) as H.
    simpl in H. rewrite H; [f_equal; lia | split; [lia | reflexivity] | | ]; assumption.
  - intros Hinv.
    pose proof (trials_counters BM_falseSharing scheds Outer_init 0 sts k st) as H.
    simpl in H. destruct H as [-> ->]; [lia | assumption | assumption |].
    split; f_equal; lia.
  - intros Hinv.
    pose proof (trials_counters BM_useAtomic scheds Outer_init 0 sts k st) as H.
    simpl in H. rewrite H; [| exact I | assumption | assumption].
    apply wrap_i32_small. unfold INT_MAX. lia.
  - intros bm s st' Hinv Hk' Hs. eapply trials_chain; eauto.
  - intros bm o clk. split; reflexivity.
  - repeat split.
Qed.

Lemma outer_counters_accumulate_witness :
  exists st1 st2,
    invoke BM_useMutex
      [sequential_schedule BM_useMutex; sequential_schedule BM_useMutex]
    = Some [st1; st2] /\
    counter (outer st2) = wrap_u32 ((Z.of_nat 1 + 1) * 2000000).
Proof.
  assert (Hok : Outer_ok (scenario BM_useMutex) Outer_init)
    by (simpl; split; [lia | reflexivity]).
  assert (H3 : barrierArg BM_useMutex <= 3) by (simpl; lia).
  destruct (trials_sequential BM_useMutex 2 Outer_init 0 H3 Hok) as (sts & Htr & Hl).
  destruct sts as [|st1 [|st2 [|? ?]]]; try discriminate Hl.
  exists st1, st2. split; [exact Htr|].
  exact (proj1 (outer_counters_accumulate _ [st1; st2] 1%nat st2 eq_refl) Htr).
Defined.

(** ** The barrier with more callers than it was built for *)

Module RendezvousMore.
Import Rendezvous RendezvousFacts.

(** The arrival counter never goes down: the class has no reset. *)
Lemma count_step_mono total K i st :
  Z.of_nat K <= INT_MAX -> inv total K st ->
  _numThreadsArrived (barrier st) <= _numThreadsArrived (barrier (step i st)).
Proof.
  intros HK Hinv.
  pose proof (inv_step total K i st HK Hinv) as Hinv'.
  rewrite (inv_count _ _ _ Hinv), (inv_count _ _ _ Hinv').
  unfold step. destruct (callers st !! i) as [p|] eqn:Hi; [|lia].
  destruct p; simpl.
  - rewrite (arrived_enter _ _ Hi). lia.
  - destruct (must_spin (barrier st)); simpl.
    + rewrite list_insert_id by assumption. lia.
    + rewrite (arrived_stay _ _ _ _ Hi); [lia | discriminate | discriminate].
  - rewrite list_insert_id by assumption. lia.
Qed.

Lemma count_run_mono total K sched n m :
  Z.of_nat K <= INT_MAX -> (n <= m)%nat ->
  _numThreadsArrived (barrier (run_upto sched n (init total K)))
  <= _numThreadsArrived (barrier (run_upto sched m (init total K))).
Proof.
  intros HK. induction 1 as [|m Hle IH]; [lia|].
  simpl. etransitivity; [exact IH|].
  apply (count_step_mono total K); [assumption|].
  apply inv_run_upto; [assumption | apply inv_init].
Qed.

(** With at least as many callers as the barrier was built for, every call
    returns under a fair schedule. *)
Lemma all_return_ge total K sched :
  Z.of_nat K <= INT_MAX -> total <= Z.of_nat K -> fair K sched ->
  exists n, forall i, (i < K)%nat -> forall m, (n <= m)%nat ->
    callers (run_upto sched m (init total K)) !! i = Some Returned.
Proof.
  intros HK Ht Hfair.
  set (st0 := init total K).
  destruct (all_arrive K sched st0 Hfair) as [n1 H1].
  apply eventually_all. intros i Hi.
  destruct (Hfair i n1 Hi) as (m1 & Hm1 & Hs).
  exists (S m1). intros m Hm.
  apply (run_upto_returned sched st0 i (S m1) m Hm).
  simpl. rewrite Hs.
  assert (Hinv : inv total K (run_upto sched m1 st0))
    by (apply inv_run_upto; [assumption | apply inv_init]).
  eapply step_self_returns; eauto.
  rewrite arrived_none_calling.
  - rewrite (inv_length _ _ _ Hinv). lia.
  - intros j. destruct (decide (j < K)%nat) as [Hj|Hj].
    + now apply H1.
    + rewrite lookup_ge_None_2; [discriminate|].
      rewrite (inv_length _ _ _ Hinv). lia.
Qed.

End RendezvousMore.

(** X1. A [Barrier] built for [total] participants and called by [K]
    threads, [K] at least [total] (the class does not check who calls): no
    call has returned while the counter is below [total]; the counter never
    goes down and never exceeds the number of callers (nothing resets it, so
    a second round on the same barrier would not wait); and under every fair
    schedule all [K] calls return, with the counter at [K]. *)
Theorem barrier_more_callers_than_built_for
    (total : Z) (K : nat) (sched : nat -> nat) :
  Z.of_nat K <= INT_MAX -> total <= Z.of_nat K ->
  (forall m i,
      Rendezvous.callers (Rendezvous.run_upto sched m (Rendezvous.init total K)) !! i
      = Some Returned ->
      total <= _numThreadsArrived
                 (Rendezvous.barrier
                    (Rendezvous.run_upto sched m (Rendezvous.init total K)))) /\
  (forall n m, (n <= m)%nat ->
      _numThreadsArrived
        (Rendezvous.barrier (Rendezvous.run_upto sched n (Rendezvous.init total K)))
      <= _numThreadsArrived
           (Rendezvous.barrier (Rendezvous.run_upto sched m (Rendezvous.init total K)))
      <= Z.of_nat K) /\
  (Rendezvous.fair K sched ->
   exists n, forall m, (n <= m)%nat ->
     _numThreadsArrived
       (Rendezvous.barrier (Rendezvous.run_upto sched m (Rendezvous.init total K)))
     = Z.of_nat K /\
     forall i, (i < K)%nat ->
       Rendezvous.callers (Rendezvous.run_upto sched m (Rendezvous.init total K)) !! i
       = Some Returned).
Proof.
  intros HK Ht.
  assert (Hinv : forall m, Rendezvous.inv total K
                   (Rendezvous.run_upto sched m (Rendezvous.init total K)))
    by (intros m; apply RendezvousFacts.inv_run_upto;
        [assumption | apply RendezvousFacts.inv_init]).
  split; [|split].
  - intros m i Hi. rewrite (Rendezvous.inv_count _ _ _ (Hinv m)).
    apply (Rendezvous.inv_released _ _ _ (Hinv m) i Hi).
  - intros n m Hnm. split.
    + now apply RendezvousMore.count_run_mono.
    + rewrite (Rendezvous.inv_count _ _ _ (Hinv m)).
      pose proof (RendezvousFacts.arrived_bounds
                    (Rendezvous.callers
                       (Rendezvous.run_upto sched m (Rendezvous.init total K)))) as Hb.
      rewrite (Rendezvous.inv_length _ _ _ (Hinv m)) in Hb. lia.
  - intros Hfair.
    destruct (RendezvousMore.all_return_ge total K sched HK Ht Hfair) as [n Hn].
    exists n. intros m Hm. split; [|intros i Hi; now apply Hn].
    rewrite (Rendezvous.inv_count _ _ _ (Hinv m)).
    rewrite RendezvousFacts.arrived_none_calling.
    + now rewrite (Rendezvous.inv_length _ _ _ (Hinv m)).
    + intros j. destruct (decide (j < K)%nat) as [Hj|Hj].
      * rewrite (Hn j Hj m Hm). discriminate.
      * rewrite lookup_ge_None_2; [discriminate|].
        rewrite (Rendezvous.inv_length _ _ _ (Hinv m)). lia.
Qed.

Lemma barrier_more_callers_than_built_for_witness :
  Rendezvous.fair 3 (Rendezvous.round_robin 3) /\
  exists n, forall m, (n <= m)%nat ->
     _numThreadsArrived
       (Rendezvous.barrier
          (Rendezvous.run_upto (Rendezvous.round_robin 3) m (Rendezvous.init 2 3)))
     = Z.of_nat 3 /\
     forall i, (i < 3)%nat ->
       Rendezvous.callers
         (Rendezvous.run_upto (Rendezvous.round_robin 3) m (Rendezvous.init 2 3)) !! i
       = Some Returned.
Proof.
  split; [apply RendezvousFacts.round_robin_fair|].
  apply (barrier_more_callers_than_built_for 2 3 (Rendezvous.round_robin 3)).
  - vm_compute. discriminate.
  - lia.
  - apply RendezvousFacts.round_robin_fair.
Defined.

(** ** The trials: mutual exclusion, the barrier, the start of the clock *)

(** X2. In a trial of a benchmark whose workers share one mutex
    ([BM_useMutex]), under every schedule: the two workers are never both
    between [lock()] and [unlock()]; the mutex is held by a worker exactly
    when that worker is between its [lock()] and its [unlock()]; and a step
    of a worker that changes the shared counter is a step of the holder of
    the mutex. *)
Theorem shared_mutex_mutual_exclusion
    (bm : Benchmark) (o : Outer) (clk : Z) (sched : list Event) :
  scenario bm = SharedMutex -> Outer_ok SharedMutex o ->
  let st := run bm sched (start_trial bm o clk) in
  (holds_lock (pc (frame_a st)) = true -> holds_lock (pc (frame_b st)) = false) /\
  (forall w, mtx (outer st) = Some w <-> holds_lock (pc (frame w st)) = true) /\
  (forall w, counter (outer (step bm (Run (W w)) st)) <> counter (outer st) ->
             mtx (outer st) = Some w).
Proof.
  intros Hsc Hok st. rewrite <- Hsc in Hok.
  destruct (run_inv bm o clk sched Hok) as (_ & Ht & _). fold st in Ht.
  pose proof (ti_counters _ _ _ Ht) as Hc. unfold counters_inv in Hc.
  rewrite Hsc in Hc. destruct Hc as (_ & Hm & Hex).
  assert (Hown : forall w, mtx (outer st) = Some w <->
                           holds_lock (pc (frame w st)) = true).
  { intros w. rewrite Hm. destruct w; simpl.
    all: destruct (holds_lock (pc (frame_a st))), (holds_lock (pc (frame_b st)));
      simpl in *; split; intros; congruence. }
  split; [|split].
  - intros Ha. rewrite Ha in Hex. exact Hex.
  - exact Hown.
  - intros w Hne. apply Hown.
    destruct (holds_lock (pc (frame w st))) eqn:Hh; [reflexivity|].
    exfalso. apply Hne. clear Hne.
    simpl. unfold worker_step, arriveAndWait_step, write_counter, read_counter.
    rewrite Hsc. destruct w; simpl in *; break_step; try reflexivity.
    all: rewrite ?Heqw in Hh; simpl in Hh; discriminate.
Qed.

Lemma shared_mutex_mutual_exclusion_witness :
  holds_lock
    (pc (frame ThreadB
           (run BM_useMutex
              [Run Main; Run Main; Run (W ThreadA); Run (W ThreadB); Run Main;
               Run (W ThreadB); Run (W ThreadB); Run (W ThreadB); Run (W ThreadB)]
              (start_trial BM_useMutex Outer_init 0)))) = true /\
  mtx (outer (run BM_useMutex
                [Run Main; Run Main; Run (W ThreadA); Run (W ThreadB); Run Main;
                 Run (W ThreadB); Run (W ThreadB); Run (W ThreadB); Run (W ThreadB)]
                (start_trial BM_useMutex Outer_init 0)))
  = Some ThreadB.
Proof.
  split; [reflexivity|].
  apply (proj1 (proj2 (shared_mutex_mutual_exclusion BM_useMutex Outer_init 0 _
                         eq_refl ltac:(simpl; split; [lia | reflexivity])))).
  reflexivity.
Defined.

(** Until a worker has left the barrier nothing outside the barrier has
    been written. *)
Lemma untouched_step bm o e st :
  barrier_inv bm st -> trial_inv bm o st ->
  (worker_released (pc (frame_a st)) = false ->
   worker_released (pc (frame_b st)) = false ->
   outer st = o /\ atomic_counter st = 0) ->
  worker_released (pc (frame_a (step bm e st))) = false ->
  worker_released (pc (frame_b (step bm e st))) = false ->
  outer (step bm e st) = o /\ atomic_counter (step bm e st) = 0.
Proof.
  intros [_ _ _ _ Hsa Hsb] [Hpc _ _] H.
  pose proof (Hpc ThreadA) as HpcA. pose proof (Hpc ThreadB) as HpcB. clear Hpc.
  unfold step, worker_step, main_step, arriveAndWait_step, write_counter,
    read_counter.
  destruct e as [[[|]|]|]; simpl in *; break_step; simpl.
  all: intros Ha Hb; simpl in *.
  all: try discriminate.
  all: rewrite ?Heqw in *; simpl in *; try discriminate.
  all: use_refl.
  all: try (apply H; assumption).
  all: try (apply H; [assumption | reflexivity]).
  all: try (apply H; [reflexivity | assumption]).
  all: apply H; first [assumption | rewrite Hsa | rewrite Hsb]; reflexivity.
Qed.

Lemma untouched_run bm o sched : forall st,
  barrier_inv bm st -> trial_inv bm o st ->
  (worker_released (pc (frame_a st)) = false ->
   worker_released (pc (frame_b st)) = false ->
   outer st = o /\ atomic_counter st = 0) ->
  worker_released (pc (frame_a (run bm sched st))) = false ->
  worker_released (pc (frame_b (run bm sched st))) = false ->
  outer (run bm sched st) = o /\ atomic_counter (run bm sched st) = 0.
Proof.
  induction sched as [|e sched IH]; intros st Hb Ht H; simpl; [exact H|].
  apply IH.
  - now apply barrier_inv_step.
  - now apply trial_inv_step.
  - now apply untouched_step.
Qed.

(** X3. In every trial, under every schedule: a worker is in its loop only
    once the arrival counter has reached the barrier's argument; with a
    barrier built for three, only once the measuring thread and the other
    worker have arrived as well; and as long as neither worker has left the
    barrier, the counters and the mutex are as the trial found them. *)
Theorem no_work_before_the_barrier_opens
    (bm : Benchmark) (o : Outer) (clk : Z) (sched : list Event) :
  Outer_ok (scenario bm) o ->
  let st := run bm sched (start_trial bm o clk) in
  (forall w, in_loop (pc (frame w st)) = true ->
             barrierArg bm <= _numThreadsArrived (barrier st)) /\
  (barrierArg bm = 3 ->
   forall w, in_loop (pc (frame w st)) = true ->
             main_arrived (main_pc st) = 1 /\
             worker_arrived (pc (frame (other w) st)) = 1) /\
  (worker_released (pc (frame_a st)) = false ->
   worker_released (pc (frame_b st)) = false ->
   outer st = o /\ atomic_counter st = 0).
Proof.
  intros Hok st.
  destruct (run_inv bm o clk sched Hok) as (Hb & Ht & _). fold st in Hb, Ht.
  assert (Hopen : forall w, in_loop (pc (frame w st)) = true ->
                            barrierArg bm <= _numThreadsArrived (barrier st)).
  { intros w Hw. apply (bi_worker _ _ Hb w).
    destruct (pc (frame w st)) as [|[]| | | | | | |]; simpl in *; congruence. }
  split; [exact Hopen|]. split.
  - intros H3 w Hw. specialize (Hopen w Hw).
    rewrite (bi_count _ _ Hb), H3 in Hopen.
    pose proof (worker_arrived_range (pc (frame_a st))).
    pose proof (worker_arrived_range (pc (frame_b st))).
    pose proof (main_arrived_range (main_pc st)).
    destruct w; simpl; lia.
  - apply untouched_run.
    + apply barrier_inv_start.
    + now apply trial_inv_start.
    + intros _ _. split; reflexivity.
Qed.

Lemma no_work_before_the_barrier_opens_witness :
  in_loop
    (pc (frame ThreadB
           (run BM_useMutex
              [Run Main; Run Main; Run (W ThreadA); Run (W ThreadB); Run Main;
               Run (W ThreadB); Run (W ThreadB)]
              (start_trial BM_useMutex Outer_init 0)))) = true /\
  3 <= _numThreadsArrived
         (barrier
            (run BM_useMutex
               [Run Main; Run Main; Run (W ThreadA); Run (W ThreadB); Run Main;
                Run (W ThreadB); Run (W ThreadB)]
               (start_trial BM_useMutex Outer_init 0))).
Proof.
  split; [reflexivity|].
  apply (proj1 (no_work_before_the_barrier_opens BM_useMutex Outer_init 0 _
                  ltac:(simpl; split; [lia | reflexivity])) ThreadB).
  reflexivity.
Defined.

(** The state once both workers have been spawned and all three threads
    have executed the barrier's increment. *)
Lemma arrivals_state bm o clk :
  run bm arrivals (start_trial bm o clk)
  = {| outer := o;
       barrier := {| _numThreadsArrived := 3; _numTotalThreads := barrierArg bm |};
       atomic_counter := 0;
       frame_a := mkFrame (InBarrier Polling) 0 false;
       frame_b := mkFrame (InBarrier Polling) 0 false;
       main_pc := MainBarrier Polling;
       start := 0; end_ := 0;
       now := clk;
       reports := [];
       log := [EvSpawn ThreadA; EvSpawn ThreadB; EvArrive] |}.
Proof.
  cbv - [wrap_i32 Z.add].
  change (0 + 1) with 1.
  rewrite (wrap_i32_small 1) by (vm_compute; split; discriminate).
  change (1 + 1) with 2.
  rewrite (wrap_i32_small 2) by (vm_compute; split; discriminate).
  change (2 + 1) with 3.
  rewrite (wrap_i32_small 3) by (vm_compute; split; discriminate).
  reflexivity.
Qed.

Lemma main_reads_start bm st :
  main_pc st = MainBarrier Polling ->
  _numThreadsArrived (barrier st) = 3 -> _numTotalThreads (barrier st) <= 3 ->
  main_pc (run bm [Run Main; Run Main] st) = JoinA /\
  start (run bm [Run Main; Run Main] st) = now st /\
  frame_a (run bm [Run Main; Run Main] st) = frame_a st /\
  frame_b (run bm [Run Main; Run Main] st) = frame_b st.
Proof.
  destruct st as [o [c t] ac fa fb mp s e n r l]. simpl.
  intros -> -> Ht. unfold main_step, arriveAndWait_step, must_spin. simpl.
  destruct (Z.ltb_spec 3 t); [lia|]. simpl. auto.
Qed.

(** X5. Leaving the barrier and reading the clock are two steps of the
    measuring thread, and nothing keeps the workers from running in
    between: for every benchmark (barrier built for at most three) there is
    a schedule after which the measuring thread has only just taken [start]
    and both workers have already run all their iterations and exited. *)
Theorem start_may_follow_all_the_work (bm : Benchmark) (o : Outer) (clk : Z) :
  barrierArg bm <= 3 -> Outer_ok (scenario bm) o ->
  let st := run bm (work_before_start_schedule bm) (start_trial bm o clk) in
  main_pc st = JoinA /\ start st = clk /\
  pc (frame_a st) = Exited /\ pc (frame_b st) = Exited.
Proof.
  intros H3 Hok. unfold work_before_start_schedule. rewrite !run_app.
  destruct (run_inv bm o clk arrivals Hok) as (Hb0 & Ht0 & Hmi0).
  pose proof (arrivals_state bm o clk) as Hst0.
  remember (run bm arrivals (start_trial bm o clk)) as st0 eqn:E0. clear E0.
  assert (Ha0 : pc (frame ThreadA st0) = InBarrier Polling) by now rewrite Hst0.
  assert (Hb0' : pc (frame ThreadB st0) = InBarrier Polling) by now rewrite Hst0.
  assert (Hm0 : main_pc st0 = MainBarrier Polling) by now rewrite Hst0.
  assert (Hc0 : _numThreadsArrived (barrier st0) = 3) by now rewrite Hst0.
  assert (Hn0 : now st0 = clk) by now rewrite Hst0.
  clear Hst0.
  destruct (worker_alone bm o ThreadA (worker_steps bm) st0 Hb0 Ht0)
    as (Hr1 & Hf1 & Hm1 & Hbar1 & Hn1).
  { lia. }
  { now rewrite Ha0. }
  { change (other ThreadA) with ThreadB. now rewrite Hb0'. }
  destruct (run_preserves bm o (repeat (Run (W ThreadA)) (worker_steps bm)) st0
              Hb0 Ht0 Hmi0) as (Hb1 & Ht1 & Hmi1).
  remember (run bm (repeat (Run (W ThreadA)) (worker_steps bm)) st0) as st1 eqn:E1.
  clear E1. change (other ThreadA) with ThreadB in Hf1.
  assert (Ha1 : pc (frame ThreadA st1) = Exited).
  { apply (remaining_exited bm); [apply (ti_pc _ _ _ Ht1 ThreadA)|].
    rewrite Hr1.
    pose proof (remaining_bound bm (pc (frame ThreadA st0))) as Hbound.
    rewrite Ha0 in Hbound.
    specialize (Hbound ltac:(discriminate) ltac:(discriminate) I).
    rewrite Ha0. lia. }
  destruct (worker_alone bm o ThreadB (worker_steps bm) st1 Hb1 Ht1)
    as (Hr2 & Hf2 & Hm2 & Hbar2 & Hn2).
  { rewrite Hbar1. lia. }
  { now rewrite Hf1, Hb0'. }
  { change (other ThreadB) with ThreadA. now rewrite Ha1. }
  destruct (run_preserves bm o (repeat (Run (W ThreadB)) (worker_steps bm)) st1
              Hb1 Ht1 Hmi1) as (Hb2 & Ht2 & _).
  remember (run bm (repeat (Run (W ThreadB)) (worker_steps bm)) st1) as st2 eqn:E2.
  clear E2. change (other ThreadB) with ThreadA in Hf2.
  assert (Hb2' : pc (frame ThreadB st2) = Exited).
  { apply (remaining_exited bm); [apply (ti_pc _ _ _ Ht2 ThreadB)|].
    rewrite Hr2, Hf1.
    pose proof (remaining_bound bm (pc (frame ThreadB st0))) as Hbound.
    rewrite Hb0' in Hbound.
    specialize (Hbound ltac:(discriminate) ltac:(discriminate) I).
    rewrite Hb0'. lia. }
  destruct (main_reads_start bm st2) as (Hpc & Hs & Hfa & Hfb).
  - congruence.
  - rewrite Hbar2, Hbar1. exact Hc0.
  - rewrite (bi_total _ _ Hb2). exact H3.
  - cbv zeta. rewrite Hpc, Hs, Hfa, Hfb. repeat split.
    + congruence.
    + change (pc (frame ThreadA st2) = Exited). now rewrite Hf2.
    + exact Hb2'.
Qed.

Lemma start_may_follow_all_the_work_witness :
  barrierArg BM_useMutex <= 3 /\
  pc (frame_b (run BM_useMutex (work_before_start_schedule BM_useMutex)
                 (start_trial BM_useMutex Outer_init 0))) = Exited.
Proof.
  assert (H3 : barrierArg BM_useMutex <= 3) by (simpl; lia).
  split; [exact H3|].
  exact (proj2 (proj2 (proj2
           (start_may_follow_all_the_work BM_useMutex Outer_init 0 H3
              ltac:(simpl; split; [lia | reflexivity]))))).
Defined.

(** X13. A worker that stands at its [lock()], under every schedule: with
    a mutex of its own ([BM_useMutexNoContention]) its next step takes the
    mutex, it never waits; with the shared mutex ([BM_useMutex]) its next
    step changes nothing while the other worker is between [lock()] and
    [unlock()], and takes the mutex otherwise. *)
Theorem lock_waits_only_for_the_shared_mutex
    (bm : Benchmark) (o : Outer) (clk : Z) (sched : list Event)
    (w : Worker) (i : Z) :
  Outer_ok (scenario bm) o ->
  pc (frame w (run bm sched (start_trial bm o clk))) = Lock i ->
  let st := run bm sched (start_trial bm o clk) in
  (scenario bm = PrivateMutex ->
   pc (frame w (step bm (Run (W w)) st)) = Load i) /\
  (scenario bm = SharedMutex ->
   (holds_lock (pc (frame (other w) st)) = true ->
    step bm (Run (W w)) st = st) /\
   (holds_lock (pc (frame (other w) st)) = false ->
    pc (frame w (step bm (Run (W w)) st)) = Load i /\
    mtx (outer (step bm (Run (W w)) st)) = Some w)).
Proof.
  intros Hok Hpc st. fold st in Hpc.
  destruct (run_inv bm o clk sched Hok) as (_ & Ht & _). fold st in Ht.
  pose proof (ti_counters _ _ _ Ht) as Hc. unfold counters_inv in Hc.
  split; intros Hsc; rewrite Hsc in Hc.
  - destruct (Hc w) as [_ Hm]; [now rewrite Hpc|].
    rewrite Hpc in Hm. simpl in Hm.
    simpl. unfold worker_step. rewrite Hpc, Hsc, Hm.
    destruct w; reflexivity.
  - destruct Hc as (_ & Hm & _).
    split; intros Hother; simpl; unfold worker_step; rewrite Hpc, Hsc, Hm.
    + destruct w; simpl in *; rewrite Hpc in *; simpl; rewrite ?Hother;
        reflexivity.
    + destruct w; simpl in *; rewrite Hpc in *; simpl; rewrite ?Hother;
        split; reflexivity.
Qed.

Lemma lock_waits_only_for_the_shared_mutex_witness :
  pc (frame ThreadA
        (run BM_useMutex contended_schedule
           (start_trial BM_useMutex Outer_init 0))) = Lock 0 /\
  holds_lock
    (pc (frame ThreadB
           (run BM_useMutex contended_schedule
              (start_trial BM_useMutex Outer_init 0)))) = true /\
  step BM_useMutex (Run (W ThreadA))
    (run BM_useMutex contended_schedule (start_trial BM_useMutex Outer_init 0))
  = run BM_useMutex contended_schedule (start_trial BM_useMutex Outer_init 0).
Proof.
  split; [reflexivity|]. split; [reflexivity|].
  apply (proj1 (proj2 (lock_waits_only_for_the_shared_mutex BM_useMutex
                         Outer_init 0 contended_schedule ThreadA 0
                         ltac:(simpl; split; [lia | reflexivity]) eq_refl)
                 eq_refl)).
  reflexivity.
Defined.

(** ** The trials: completion under fair schedules *)

Lemma spawned_inv_start bm o clk : spawned_inv (start_trial bm o clk).
Proof. split; simpl; auto. Qed.

Lemma spawned_inv_step bm e st : spawned_inv st -> spawned_inv (step bm e st).
Proof.
  intros [Ha Hb].
  unfold spawned_inv, step, worker_step, main_step, arriveAndWait_step.
  destruct e as [[[|]|]|]; simpl in *; break_step.
  all: split; intros Hn; simpl in *; try discriminate.
  all: try first [ apply Ha in Hn | apply Hb in Hn ].
  all: repeat match goal with H : _ \/ _ |- _ => destruct H end.
  all: try congruence; auto.
  all: use_refl; repeat match goal with H : _ \/ _ |- _ => destruct H end;
    congruence.
Qed.

Lemma remaining_nonneg bm p :
  pc_ok (scenario bm) (numIterations bm) p -> 0 <= remaining bm p.
Proof.
  unfold remaining, steps_per_iteration.
  destruct p as [|[]| | | | | | |], (scenario bm); simpl in *; lia.
Qed.

(** A transition either leaves the control state as it is (a thread that
    polls, is blocked, has not started or has finished; a clock tick) or
    brings the trial nearer to its end. *)
Lemma step_stutters_or_advances bm o e st :
  barrier_inv bm st -> trial_inv bm o st ->
  control (step bm e st) = control st \/ work_left bm (step bm e st) < work_left bm st.
Proof.
  intros [_ _ _ _ Hsa Hsb] [Hpc _ _].
  pose proof (Hpc ThreadA) as HpcA. pose proof (Hpc ThreadB) as HpcB. clear Hpc.
  destruct st as [ou ba ac [pa ca ma] [pb cb mb] mp s e0 n r l].
  destruct bm as [al arg iters sc].
  unfold control, work_left, step, worker_step, main_step, arriveAndWait_step,
    write_counter, read_counter, exited in *.
  simpl in *.
  destruct e as [[[|]|]|]; simpl.
  - destruct pa as [|[]| | | | | | |], sc; simpl in *; break_step.
    all: try (left; reflexivity).
    all: try tauto.
    all: right;
      match goal with |- context [remaining ?b ?p] =>
        is_var p; generalize (remaining b p); intros rb end;
      unfold remaining, steps_per_iteration; simpl; lia.
  - destruct pb as [|[]| | | | | | |], sc; simpl in *; break_step.
    all: try (left; reflexivity).
    all: try tauto.
    all: right;
      match goal with |- context [remaining ?b ?p] =>
        is_var p; generalize (remaining b p); intros ra end;
      unfold remaining, steps_per_iteration; simpl; lia.
  - destruct mp as [| |[]| | | | |]; simpl in *; use_refl; subst; simpl;
      break_step.
    all: first [left; reflexivity | left; rewrite ?app_nil_r; reflexivity
               | right; unfold remaining; simpl; lia].
  - left. reflexivity.
Qed.

(** What a thread does next, and what it does to the control state, depends
    on the control state only. *)
Lemma control_step bm e st st' :
  control st = control st' -> control (step bm e st) = control (step bm e st').
Proof.
  destruct st as [ou ba ac fa fb mp s e0 n r l].
  destruct st' as [ou' ba' ac' fa' fb' mp' s' e0' n' r' l'].
  unfold control. simpl. intros [= -> -> -> -> -> ->].
  unfold step, worker_step, main_step, arriveAndWait_step, write_counter,
    read_counter, exited.
  destruct e as [[[|]|]|]; simpl; break_step; reflexivity.
Qed.

Lemma work_left_control bm st st' :
  control st = control st' -> work_left bm st = work_left bm st'.
Proof.
  unfold control, work_left. intros [= _ _ _ -> -> ->]. reflexivity.
Qed.

Lemma finished_control st st' :
  control st = control st' -> finished st = finished st'.
Proof. unfold control, finished. intros [= _ _ _ _ _ ->]. reflexivity. Qed.

Lemma finished_step bm e st : finished st = true -> finished (step bm e st) = true.
Proof.
  destruct st as [ou ba ac fa fb mp s e0 n r l].
  unfold finished, step, worker_step, main_step, arriveAndWait_step,
    write_counter, read_counter. simpl.
  destruct mp; try discriminate. intros _.
  destruct e as [[[|]|]|]; simpl; break_step; reflexivity.
Qed.

(** A worker that is neither at the closed barrier nor waiting for a mutex
    the other worker holds gets one action nearer to its end. *)
Lemma worker_advances bm o w st :
  barrier_inv bm st -> trial_inv bm o st ->
  pc (frame w st) <> NotStarted -> pc (frame w st) <> Exited ->
  (pc (frame w st) = InBarrier Polling ->
   barrierArg bm <= _numThreadsArrived (barrier st)) ->
  (scenario bm = SharedMutex -> holds_lock (pc (frame (other w) st)) = false) ->
  work_left bm (step bm (Run (W w)) st) < work_left bm st.
Proof.
  intros [Ht _ _ _ _ _] [Hpc Hst Hcn] Hns Hne Hopen Hother.
  pose proof (Hpc w) as Hpcw. clear Hpc Hst.
  unfold counters_inv in Hcn.
  destruct st as [ou [cnt tot] ac [pa ca ma] [pb cb mb] mp s e0 n r l].
  destruct bm as [al arg iters sc].
  unfold work_left, step, worker_step, arriveAndWait_step, write_counter,
    read_counter, must_spin in *.
  simpl in *. subst tot.
  destruct w; simpl in *.
  - destruct pa as [|[]| | | | | | |], sc; simpl in *; try congruence.
    all: try (specialize (Hopen eq_refl)).
    all: try (specialize (Hother eq_refl)).
    all: try (destruct (Z.ltb_spec cnt arg); [lia|]).
    all: try (pose proof (Hcn ThreadA eq_refl) as [_ Hl]; simpl in Hl; subst ma).
    all: break_step; simpl.
    all: try tauto.
    all: try (rewrite Hother in Hcn; simpl in Hcn; destruct Hcn as (_ & Hm & _);
              congruence).
    all: match goal with |- context [remaining ?b ?p] =>
           is_var p; generalize (remaining b p); intros rb end;
         unfold remaining, steps_per_iteration; simpl; lia.
  - destruct pb as [|[]| | | | | | |], sc; simpl in *; try congruence.
    all: try (specialize (Hopen eq_refl)).
    all: try (specialize (Hother eq_refl)).
    all: try (destruct (Z.ltb_spec cnt arg); [lia|]).
    all: try (pose proof (Hcn ThreadB eq_refl) as [_ Hl]; simpl in Hl; subst mb).
    all: break_step; simpl.
    all: try tauto.
    all: try (rewrite Hother in Hcn; simpl in Hcn; destruct Hcn as (_ & Hm & _);
              congruence).
    all: match goal with |- context [remaining ?b ?p] =>
           is_var p; generalize (remaining b p); intros rb end;
         unfold remaining, steps_per_iteration; simpl; lia.
Qed.

(** The measuring thread, when it is not polling a closed barrier nor
    joining a worker that still runs, gets one action nearer to its end. *)
Lemma main_advances bm st :
  barrier_inv bm st ->
  (main_pc st = MainBarrier Polling ->
   barrierArg bm <= _numThreadsArrived (barrier st)) ->
  (main_pc st = JoinA -> pc (frame_a st) = Exited) ->
  (main_pc st = JoinB -> pc (frame_b st) = Exited) ->
  finished st = false ->
  work_left bm (step bm (Run Main) st) < work_left bm st.
Proof.
  intros [Ht _ _ _ Hsa Hsb] Hopen Hja Hjb Hf.
  destruct st as [ou [cnt tot] ac [pa ca ma] [pb cb mb] mp s e0 n r l].
  unfold work_left, finished, step, main_step, arriveAndWait_step, must_spin,
    exited in *.
  simpl in *. subst tot.
  destruct mp as [| |[]| | | | |]; simpl in *; use_refl; subst; simpl;
    try discriminate.
  all: try (destruct (Z.ltb_spec cnt (barrierArg bm)); [lia|]); simpl.
  all: unfold remaining; simpl; lia.
Qed.

(** As long as the trial is not over some thread can take it further, when
    the barrier was built for at most the three threads there are. *)
Lemma some_thread_advances bm o st :
  barrierArg bm <= 3 ->
  barrier_inv bm st -> trial_inv bm o st -> main_inv st -> spawned_inv st ->
  finished st = false ->
  exists t, work_left bm (step bm (Run t) st) < work_left bm st.
Proof.
  intros H3 Hb Ht Hm [Hspa Hspb] Hf.
  pose proof (worker_arrived_range (pc (frame_a st))) as Hwa.
  pose proof (worker_arrived_range (pc (frame_b st))) as Hwb.
  assert (Hloop : forall w, holds_lock (pc (frame w st)) = true ->
                            barrierArg bm <= _numThreadsArrived (barrier st)).
  { intros w Hw. apply (bi_worker _ _ Hb w).
    destruct (pc (frame w st)) as [|[]| | | | | | |]; simpl in *; congruence. }
  assert (Hexcl : scenario bm = SharedMutex ->
                  holds_lock (pc (frame_a st)) = true ->
                  holds_lock (pc (frame_b st)) = false).
  { intros Hsc Ha. pose proof (ti_counters _ _ _ Ht) as Hc.
    unfold counters_inv in Hc. rewrite Hsc in Hc.
    destruct Hc as (_ & _ & Hx). now rewrite Ha in Hx. }
  destruct (main_pc st) as [| |[]| | | | |] eqn:Hmp.
  1-3, 5, 8-9: exists Main; apply main_advances; try assumption; congruence.
  - (* polling *)
    destruct (Z_lt_le_dec (_numThreadsArrived (barrier st)) (barrierArg bm))
      as [Hlt|Hge].
    + pose proof (bi_count _ _ Hb) as Hc. rewrite Hmp in Hc. simpl in Hc.
      assert (Hcase : worker_arrived (pc (frame_a st)) = 0 \/
                      worker_arrived (pc (frame_b st)) = 0) by lia.
      destruct Hcase as [H0|H0].
      * exists (W ThreadA). apply (worker_advances bm o); try assumption.
        all: simpl.
        -- intros Hn. apply Hspa in Hn. congruence.
        -- intros He. rewrite He in H0. discriminate.
        -- intros Hp. rewrite Hp in H0. discriminate.
        -- intros _. destruct (holds_lock (pc (frame_b st))) eqn:Hh; [|reflexivity].
           specialize (Hloop ThreadB Hh). lia.
      * exists (W ThreadB). apply (worker_advances bm o); try assumption.
        all: simpl.
        -- intros Hn. apply Hspb in Hn. destruct Hn; congruence.
        -- intros He. rewrite He in H0. discriminate.
        -- intros Hp. rewrite Hp in H0. discriminate.
        -- intros _. destruct (holds_lock (pc (frame_a st))) eqn:Hh; [|reflexivity].
           specialize (Hloop ThreadA Hh). lia.
    + exists Main. apply main_advances; try assumption; congruence.
  - (* join a *)
    assert (Hopen : barrierArg bm <= _numThreadsArrived (barrier st))
      by (apply (bi_main _ _ Hb); now rewrite Hmp).
    assert (Hd : pc (frame_a st) = Exited \/ pc (frame_a st) <> Exited)
      by (destruct (pc (frame_a st)); auto; right; discriminate).
    destruct Hd as [He|He].
    { exists Main. apply main_advances; try assumption; congruence. }
    destruct (holds_lock (pc (frame_b st))) eqn:Hh.
    + exists (W ThreadB). apply (worker_advances bm o); try assumption.
      all: simpl.
      * intros Hn. rewrite Hn in Hh. discriminate.
      * intros Hn. rewrite Hn in Hh. discriminate.
      * auto.
      * intros Hsc. destruct (holds_lock (pc (frame_a st))) eqn:Ha; [|reflexivity].
        specialize (Hexcl Hsc eq_refl). congruence.
    + exists (W ThreadA). apply (worker_advances bm o); try assumption.
      all: simpl; auto.
      intros Hn. apply Hspa in Hn. congruence.
  - (* join b *)
    assert (Hopen : barrierArg bm <= _numThreadsArrived (barrier st))
      by (apply (bi_main _ _ Hb); now rewrite Hmp).
    assert (Hd : pc (frame_b st) = Exited \/ pc (frame_b st) <> Exited)
      by (destruct (pc (frame_b st)); auto; right; discriminate).
    destruct Hd as [He|He].
    { exists Main. apply main_advances; try assumption; congruence. }
    exists (W ThreadB). apply (worker_advances bm o); try assumption.
    all: simpl; auto.
    + intros Hn. apply Hspb in Hn. destruct Hn; congruence.
    + intros _. rewrite (mi_join_a _ Hm); [reflexivity|]. now rewrite Hmp.
  - unfold finished in Hf. rewrite Hmp in Hf. discriminate.
Qed.

Lemma prefix_inv bm o clk sched n :
  Outer_ok (scenario bm) o ->
  barrier_inv bm (run_prefix bm sched n (start_trial bm o clk)) /\
  trial_inv bm o (run_prefix bm sched n (start_trial bm o clk)) /\
  main_inv (run_prefix bm sched n (start_trial bm o clk)) /\
  spawned_inv (run_prefix bm sched n (start_trial bm o clk)).
Proof.
  intros Hok. induction n as [|n (Hb & Ht & Hm & Hs)]; simpl.
  - split; [apply barrier_inv_start|].
    split; [now apply trial_inv_start|].
    split; [apply main_inv_start | apply spawned_inv_start].
  - split; [now apply barrier_inv_step|].
    split; [now apply trial_inv_step|].
    split; [now apply main_inv_step | now apply spawned_inv_step].
Qed.

Lemma work_left_nonneg bm o st : trial_inv bm o st -> 0 <= work_left bm st.
Proof.
  intros [Hpc _ _]. unfold work_left.
  pose proof (remaining_nonneg bm _ (Hpc ThreadA)).
  pose proof (remaining_nonneg bm _ (Hpc ThreadB)).
  simpl in *.
  assert (0 <= main_remaining (main_pc st))
    by (destruct (main_pc st) as [| |[]| | | | |]; simpl; lia).
  lia.
Qed.

(** Over any stretch of a run either the work left has dropped at some
    point, or the control state is what it was. *)
Lemma stretch_stutters_or_advances bm o clk sched p d :
  Outer_ok (scenario bm) o ->
  (exists q, (p <= q < p + d)%nat /\
             work_left bm (run_prefix bm sched (S q) (start_trial bm o clk))
             < work_left bm (run_prefix bm sched p (start_trial bm o clk))) \/
  control (run_prefix bm sched (p + d) (start_trial bm o clk))
  = control (run_prefix bm sched p (start_trial bm o clk)).
Proof.
  intros Hok. induction d as [|d IH].
  - right. now rewrite Nat.add_0_r.
  - destruct IH as [(q & Hq & Hlt)|Hsame].
    + left. exists q. split; [lia | assumption].
    + destruct (prefix_inv bm o clk sched (p + d) Hok) as (Hb & Ht & _).
      replace (p + S d)%nat with (S (p + d)) by lia. simpl.
      destruct (step_stutters_or_advances bm o (sched (p + d)%nat) _ Hb Ht)
        as [Hc|Hlt].
      * right. congruence.
      * left. exists (p + d)%nat. split; [lia|]. simpl.
        now rewrite <- (work_left_control bm _ _ Hsame).
Qed.

Lemma eventually_finished bm o clk sched :
  barrierArg bm <= 3 -> Outer_ok (scenario bm) o -> fair_schedule sched ->
  forall N p,
    work_left bm (run_prefix bm sched p (start_trial bm o clk)) < Z.of_nat N ->
    exists q, finished (run_prefix bm sched q (start_trial bm o clk)) = true.
Proof.
  intros H3 Hok Hfair. induction N as [|N IH]; intros p Hlt.
  - destruct (prefix_inv bm o clk sched p Hok) as (_ & Ht & _).
    pose proof (work_left_nonneg bm o _ Ht). lia.
  - destruct (finished (run_prefix bm sched p (start_trial bm o clk))) eqn:Hf.
    { now exists p. }
    destruct (prefix_inv bm o clk sched p Hok) as (Hb & Ht & Hm & Hs).
    destruct (some_thread_advances bm o _ H3 Hb Ht Hm Hs Hf) as [t Ht'].
    destruct (Hfair t p) as (m & Hpm & Hsm).
    destruct (stretch_stutters_or_advances bm o clk sched p (m - p) Hok)
      as [(q & Hq & Hdrop)|Hsame].
    + apply (IH (S q)). lia.
    + replace (p + (m - p))%nat with m in Hsame by lia.
      apply (IH (S m)). simpl. rewrite Hsm.
      rewrite (work_left_control bm _ _ (control_step bm (Run t) _ _ Hsame)).
      lia.
Qed.

Lemma finished_from bm sched st n m :
  (n <= m)%nat -> finished (run_prefix bm sched n st) = true ->
  finished (run_prefix bm sched m st) = true.
Proof.
  induction 1 as [|m Hle IH]; intros Hf; [exact Hf|].
  simpl. apply finished_step. now apply IH.
Qed.

Lemma round_robin_events_fair : fair_schedule round_robin_events.
Proof.
  intros t n.
  set (k := match t with Main => 0 | W ThreadA => 1 | W ThreadB => 2 end%nat).
  exists (n * 4 + k)%nat. split; [lia|].
  unfold round_robin_events.
  rewrite Nat.add_comm, Nat.Div0.mod_add.
  destruct t as [[|]|]; reflexivity.
Qed.

(** X4. Under every fair schedule (each of the three threads is scheduled
    again and again, with any number of clock ticks in between) a trial
    whose barrier is built for at most three completes and stays completed:
    spinning at the barrier and waiting for a mutex do not go on for ever.
    With a barrier built for more than three no trial ever completes. *)
Theorem trial_completes_under_every_fair_schedule
    (bm : Benchmark) (o : Outer) (clk : Z) (sched : nat -> Event) :
  Outer_ok (scenario bm) o ->
  (barrierArg bm <= 3 -> fair_schedule sched ->
   exists n, forall m, (n <= m)%nat ->
     finished (run_prefix bm sched m (start_trial bm o clk)) = true) /\
  (3 < barrierArg bm ->
   forall m, finished (run_prefix bm sched m (start_trial bm o clk)) = false).
Proof.
  intros Hok. split.
  - intros H3 Hfair.
    destruct (prefix_inv bm o clk sched 0 Hok) as (_ & Ht & _).
    pose proof (work_left_nonneg bm o _ Ht) as Hnn.
    destruct (eventually_finished bm o clk sched H3 Hok Hfair
                (S (Z.to_nat (work_left bm (run_prefix bm sched 0
                                              (start_trial bm o clk))))) 0%nat)
      as [q Hq]; [lia|].
    exists q. intros m Hm. now apply (finished_from bm sched _ q m).
  - intros H3 m.
    destruct (prefix_inv bm o clk sched m Hok) as (Hb & _).
    destruct (finished _) eqn:Hf; [|reflexivity].
    pose proof (bi_main _ _ Hb) as Hrel. pose proof (bi_count _ _ Hb) as Hc.
    pose proof (worker_arrived_range
                  (pc (frame_a (run_prefix bm sched m (start_trial bm o clk))))).
    pose proof (worker_arrived_range
                  (pc (frame_b (run_prefix bm sched m (start_trial bm o clk))))).
    pose proof (main_arrived_range
                  (main_pc (run_prefix bm sched m (start_trial bm o clk)))).
    unfold finished in Hf.
    destruct (main_pc (run_prefix bm sched m (start_trial bm o clk)));
      try discriminate.
    specialize (Hrel eq_refl). lia.
Qed.

Lemma trial_completes_under_every_fair_schedule_witness :
  fair_schedule round_robin_events /\
  exists n, forall m, (n <= m)%nat ->
    finished (run_prefix BM_useAtomic round_robin_events m
                (start_trial BM_useAtomic Outer_init 0)) = true.
Proof.
  split; [apply round_robin_events_fair|].
  apply (proj1 (trial_completes_under_every_fair_schedule BM_useAtomic Outer_init 0
                  round_robin_events I)).
  - simpl. lia.
  - apply round_robin_events_fair.
Defined.

(** ** The function-call benchmarks *)

Module CallFacts.
Import FunctionCalls.

Lemma pre_increment_below i : i < INT_MAX -> pre_increment i = Some (i + 1).
Proof. intros H. unfold pre_increment. now destruct (decide (i < INT_MAX)). Qed.

Lemma pre_increment_at_max i : INT_MAX <= i -> pre_increment i = None.
Proof.
  intros H. unfold pre_increment. destruct (decide (i < INT_MAX)); [lia|reflexivity].
Qed.

(** What a benchmark loop hands over when its body advances a counter by one
    and hands the new count over: the counts, until the counter would leave
    [int]. *)
Lemma benchmark_loop_counter {St : Type} (body : St -> option (St * Z))
    (value : St -> Z) (inv : St -> Prop) :
  (forall s, inv s -> value s < INT_MAX ->
     exists s', body s = Some (s', value s + 1) /\ inv s' /\
                value s' = value s + 1) ->
  (forall s, inv s -> INT_MAX <= value s -> body s = None) ->
  forall n s, inv s -> value s <= INT_MAX ->
    benchmark_loop n body s
    = if decide (value s + Z.of_nat n <= INT_MAX)
      then Some (map (fun j => value s + Z.of_nat j) (seq 1 n))
      else None.
Proof.
  intros Hinc Hmax. induction n as [|n IH]; intros s Hs Hv.
  - simpl. destruct (decide _); [reflexivity | lia].
  - cbn [benchmark_loop].
    destruct (Z_lt_le_dec (value s) INT_MAX) as [Hlt|Hge].
    + destruct (Hinc s Hs Hlt) as (s' & -> & Hs' & Hv').
      rewrite (IH s' Hs') by lia. rewrite Hv'.
      destruct (decide (value s + 1 + Z.of_nat n <= INT_MAX)) as [H1|H1];
        destruct (decide (value s + Z.of_nat (S n) <= INT_MAX)) as [H2|H2];
        try lia.
      2: reflexivity.
      f_equal. cbn [seq map]. f_equal.
      rewrite <- (seq_shift n 1), map_map. apply map_ext. intros j. lia.
    + rewrite (Hmax s Hs Hge).
      destruct (decide _); [lia | reflexivity].
Qed.

Lemma counter_from_zero {St : Type} (body : St -> option (St * Z))
    (value : St -> Z) (inv : St -> Prop) (s : St) (n : nat) :
  (forall s, inv s -> value s < INT_MAX ->
     exists s', body s = Some (s', value s + 1) /\ inv s' /\
                value s' = value s + 1) ->
  (forall s, inv s -> INT_MAX <= value s -> body s = None) ->
  inv s -> value s = 0 ->
  benchmark_loop n body s
  = if decide (Z.of_nat n <= INT_MAX) then Some (map Z.of_nat (seq 1 n))
    else None.
Proof.
  intros Hinc Hmax Hs Hv.
  rewrite (benchmark_loop_counter body value inv Hinc Hmax n s Hs)
    by (rewrite Hv; unfold INT_MAX; lia).
  rewrite Hv. rewrite Z.add_0_l.
  destruct (decide _); reflexivity.
Qed.

Ltac expose :=
  do 2 (unfold ParentPtr_increment, ParentPtr_get, Child_increment, Child_get,
    StandaloneNoInline_increment, StandaloneNoInline_get,
    StandaloneInline_increment, StandaloneInline_get in *;
  cbn [pointee vtable object increment get Child_Parent Child_i
       StandaloneNoInline_i StandaloneInline_i] in *).

(** The loop of [BM_virtualFunctionCallsThroughPointerToParent]. *)
Lemma ParentPtr_counts n :
  benchmark_loop n
    (fun parent =>
       match ParentPtr_increment parent with
       | Some parent => Some (parent, ParentPtr_get parent)
       | None => None
       end) make_unique_Child
  = if decide (Z.of_nat n <= INT_MAX) then Some (map Z.of_nat (seq 1 n))
    else None.
Proof.
  apply (counter_from_zero _ ParentPtr_get
           (fun p => exists c, p = mkParentPtr Child Child_Parent c)).
  - intros s [c ->] Hlt. expose.
    rewrite pre_increment_below by assumption.
    eexists. split; [reflexivity|]. split; [eexists; reflexivity | reflexivity].
  - intros s [c ->] Hge. expose.
    now rewrite pre_increment_at_max by assumption.
  - now exists Child_new.
  - reflexivity.
Qed.

Lemma Child_counts n :
  benchmark_loop n
    (fun child =>
       match Child_increment child with
       | Some child => Some (child, Child_get child)
       | None => None
       end) Child_new
  = if decide (Z.of_nat n <= INT_MAX) then Some (map Z.of_nat (seq 1 n))
    else None.
Proof.
  apply (counter_from_zero _ Child_get (fun _ => True));
    [| | exact I | reflexivity].
  - intros [i] _ Hlt. expose.
    rewrite pre_increment_below by assumption.
    eexists. split; [reflexivity|]. split; [exact I | reflexivity].
  - intros [i] _ Hge. expose.
    now rewrite pre_increment_at_max by assumption.
Qed.

Lemma BM_nonVirtualNonInlineFunctionCall_counts n :
  BM_nonVirtualNonInlineFunctionCall n
  = if decide (Z.of_nat n <= INT_MAX) then Some (map Z.of_nat (seq 1 n))
    else None.
Proof.
  unfold BM_nonVirtualNonInlineFunctionCall.
  apply (counter_from_zero _ StandaloneNoInline_get (fun _ => True));
    [| | exact I | reflexivity].
  - intros [i] _ Hlt. expose.
    rewrite pre_increment_below by assumption.
    eexists. split; [reflexivity|]. split; [exact I | reflexivity].
  - intros [i] _ Hge. expose.
    now rewrite pre_increment_at_max by assumption.
Qed.

Lemma BM_inlineFunctionCall_counts n :
  BM_inlineFunctionCall n
  = if decide (Z.of_nat n <= INT_MAX) then Some (map Z.of_nat (seq 1 n))
    else None.
Proof.
  unfold BM_inlineFunctionCall.
  apply (counter_from_zero _ StandaloneInline_get (fun _ => True));
    [| | exact I | reflexivity].
  - intros [i] _ Hlt. expose.
    rewrite pre_increment_below by assumption.
    eexists. split; [reflexivity|]. split; [exact I | reflexivity].
  - intros [i] _ Hge. expose.
    now rewrite pre_increment_at_max by assumption.
Qed.

Lemma int_counts n :
  benchmark_loop n
    (fun i =>
       match pre_increment i with
       | Some i => Some (i, i)
       | None => None
       end) 0
  = if decide (Z.of_nat n <= INT_MAX) then Some (map Z.of_nat (seq 1 n))
    else None.
Proof.
  apply (counter_from_zero _ (fun i => i) (fun _ => True));
    [| | exact I | reflexivity].
  - intros i _ Hlt. rewrite pre_increment_below by assumption.
    eexists. split; [reflexivity|]. split; [exact I | reflexivity].
  - intros i _ Hge. now rewrite pre_increment_at_max by assumption.
Qed.

(** A [Child] deleted through a pointer to [Parent]: undefined, whatever
    the loop did. *)
Lemma BM_virtualFunctionCallsThroughPointerToParent_undefined n :
  BM_virtualFunctionCallsThroughPointerToParent n = None.
Proof.
  unfold BM_virtualFunctionCallsThroughPointerToParent.
  cbv zeta. now destruct (benchmark_loop _ _ _).
Qed.

Lemma BM_virtualFunctionCallsThroughPointerToChild_counts n :
  BM_virtualFunctionCallsThroughPointerToChild n
  = if decide (Z.of_nat n <= INT_MAX) then Some (map Z.of_nat (seq 1 n))
    else None.
Proof.
  unfold BM_virtualFunctionCallsThroughPointerToChild. cbv zeta.
  rewrite Child_counts. now destruct (decide _).
Qed.

End CallFacts.

(** X10. Run for [n] iterations with [n] at most [INT_MAX], nine of the ten
    function-call benchmarks hand 1, 2, ..., [n] to [DoNotOptimize] and
    return: through a call on a [Child], a non-inlined or inlined member, no
    call, a [std::function] or a lambda, the counter goes up by exactly one
    per iteration.  The loop of
    [BM_virtualFunctionCallsThroughPointerToParent] hands over the same
    values through the virtual call, but that benchmark has no defined run,
    for any [n]: on return its [std::unique_ptr<Parent>] deletes a [Child]
    through [Parent], which has no virtual destructor. *)
Theorem function_call_benchmarks_hand_over_the_counts (n : nat) :
  Z.of_nat n <= INT_MAX ->
  FunctionCalls.BM_virtualFunctionCallsThroughPointerToChild n
  = Some (map Z.of_nat (seq 1 n)) /\
  FunctionCalls.BM_virtualFunctionCallsThroughInstanceOfChild n
  = Some (map Z.of_nat (seq 1 n)) /\
  FunctionCalls.BM_nonVirtualNonInlineFunctionCall n
  = Some (map Z.of_nat (seq 1 n)) /\
  FunctionCalls.BM_inlineFunctionCall n = Some (map Z.of_nat (seq 1 n)) /\
  FunctionCalls.BM_noFunctionCall n = Some (map Z.of_nat (seq 1 n)) /\
  FunctionCalls.BM_stdFunctionCall n = Some (map Z.of_nat (seq 1 n)) /\
  FunctionCalls.BM_lambdaFunctionCall n = Some (map Z.of_nat (seq 1 n)) /\
  FunctionCalls.BM_stdFunctionPassedAsParameterFunctionCall n
  = Some (map Z.of_nat (seq 1 n)) /\
  FunctionCalls.BM_lambdaPassedAsParameterFunctionCall n
  = Some (map Z.of_nat (seq 1 n)) /\
  FunctionCalls.benchmark_loop n
    (fun parent =>
       match FunctionCalls.ParentPtr_increment parent with
       | Some parent => Some (parent, FunctionCalls.ParentPtr_get parent)
       | None => None
       end) FunctionCalls.make_unique_Child
  = Some (map Z.of_nat (seq 1 n)) /\
  FunctionCalls.delete_object FunctionCalls.class_Parent FunctionCalls.class_Child
  = None /\
  forall m, FunctionCalls.BM_virtualFunctionCallsThroughPointerToParent m = None.
Proof.
  intros Hn.
  assert (Hd : (if decide (Z.of_nat n <= INT_MAX)
                then Some (map Z.of_nat (seq 1 n)) else None)
               = Some (map Z.of_nat (seq 1 n)))
    by (destruct (decide _); [reflexivity | lia]).
  rewrite <- Hd.
  split; [apply CallFacts.BM_virtualFunctionCallsThroughPointerToChild_counts|].
  split; [apply CallFacts.Child_counts|].
  split; [apply CallFacts.BM_nonVirtualNonInlineFunctionCall_counts|].
  split; [apply CallFacts.BM_inlineFunctionCall_counts|].
  do 5 (split; [apply CallFacts.int_counts|]).
  split; [apply CallFacts.ParentPtr_counts|].
  split; [reflexivity|].
  apply CallFacts.BM_virtualFunctionCallsThroughPointerToParent_undefined.
Qed.

Lemma function_call_benchmarks_hand_over_the_counts_witness :
  Z.of_nat 3 <= INT_MAX /\
  FunctionCalls.BM_stdFunctionPassedAsParameterFunctionCall 3 = Some [1; 2; 3] /\
  FunctionCalls.BM_virtualFunctionCallsThroughPointerToParent 3 = None.
Proof.
  assert (H : Z.of_nat 3 <= INT_MAX) by (unfold INT_MAX; lia).
  pose proof (function_call_benchmarks_hand_over_the_counts 3 H)
    as (_ & _ & _ & _ & _ & _ & _ & Hstd & _ & _ & _ & Hparent).
  split; [exact H|]. split; [exact Hstd | exact (Hparent 3%nat)].
Defined.

(** X11. Run for more than [INT_MAX] iterations, each of the ten
    function-call benchmarks increments an [int] that holds [INT_MAX]: the
    run has no defined result. *)
Theorem function_call_benchmarks_overflow
    (bm : nat -> option (list Z)) (n : nat) :
  In bm FunctionCalls.function_call_benchmarks ->
  INT_MAX < Z.of_nat n ->
  bm n = None.
Proof.
  unfold FunctionCalls.function_call_benchmarks. cbn [In].
  intros [<-|[<-|[<-|[<-|[<-|[<-|[<-|[<-|[<-|[<-|[]]]]]]]]]]] Hn.
  1: apply CallFacts.BM_virtualFunctionCallsThroughPointerToParent_undefined.
  1: rewrite CallFacts.BM_virtualFunctionCallsThroughPointerToChild_counts.
  2: unfold FunctionCalls.BM_virtualFunctionCallsThroughInstanceOfChild;
     rewrite CallFacts.Child_counts.
  3: rewrite CallFacts.BM_nonVirtualNonInlineFunctionCall_counts.
  4: rewrite CallFacts.BM_inlineFunctionCall_counts.
  5: unfold FunctionCalls.BM_noFunctionCall; rewrite CallFacts.int_counts.
  6: unfold FunctionCalls.BM_stdFunctionCall; rewrite CallFacts.int_counts.
  7: unfold FunctionCalls.BM_lambdaFunctionCall; rewrite CallFacts.int_counts.
  8: unfold FunctionCalls.BM_stdFunctionPassedAsParameterFunctionCall;
     rewrite CallFacts.int_counts.
  9: unfold FunctionCalls.BM_lambdaPassedAsParameterFunctionCall;
     rewrite CallFacts.int_counts.
  all: destruct (decide _); [lia | reflexivity].
Qed.

Lemma function_call_benchmarks_overflow_witness :
  FunctionCalls.BM_noFunctionCall (Z.to_nat (INT_MAX + 1)) = None.
Proof.
  apply (function_call_benchmarks_overflow
           FunctionCalls.BM_noFunctionCall (Z.to_nat (INT_MAX + 1))).
  - unfold FunctionCalls.function_call_benchmarks. cbn [In]. auto 12.
  - rewrite Z2Nat.id; unfold INT_MAX; lia.
Defined.

(** ** The cache-miss benchmarks *)

Module CacheFacts.
Import CacheMisses.

(** A loop keeps what each of its iterations keeps. *)
Lemma for_from_inv {St : Type} (P : nat -> St -> Prop) body :
  forall count i s,
    P i s ->
    (forall j s, (i <= j < i + count)%nat -> P j s ->
                 exists s', body j s = Some s' /\ P (S j) s') ->
    exists s', for_from count i body s = Some s' /\ P (i + count)%nat s'.
Proof.
  induction count as [|count IH]; intros i s HP Hstep; simpl.
  - exists s. rewrite Nat.add_0_r. auto.
  - destruct (Hstep i s) as (s1 & -> & HP1); [lia | assumption |].
    destruct (IH (S i) s1 HP1) as (s' & Hs' & HP').
    { intros j s0 Hj. apply Hstep. lia. }
    exists s'. split; [assumption|].
    now replace (i + S count)%nat with (S i + count)%nat by lia.
Qed.

Lemma mul_int_small a b :
  0 <= a * b <= INT_MAX -> mul_int a b = Some (a * b).
Proof.
  intros H. unfold mul_int, INT_MAX in *.
  destruct (Z.leb_spec (- 2 ^ 31) (a * b)); [|lia].
  destruct (Z.leb_spec (a * b) (2 ^ 31 - 1)); [reflexivity | lia].
Qed.

(** A store inside the array succeeds, keeps the array's shape and changes
    the one cell. *)
Lemma set2_inside k arr r c v :
  shape k arr -> (r < k)%nat -> (c < k)%nat ->
  exists arr',
    set2 arr r c v = Some arr' /\ shape k arr' /\
    get2 arr' r c = Some v /\
    forall r' c', (r' <> r \/ c' <> c) -> get2 arr' r' c' = get2 arr r' c'.
Proof.
  intros [Hlen Hrows] Hr Hc.
  destruct (lookup_lt_is_Some_2 arr r) as [row Hrow]; [lia|].
  pose proof (Hrows r row Hrow) as Hrl.
  unfold set2. rewrite Hrow.
  destruct (decide (c < length row)%nat) as [_|Hn]; [|lia].
  eexists. split; [reflexivity|]. split; [|split].
  - split; [now rewrite length_insert|].
    intros r' row' Hr'.
    destruct (decide (r = r')) as [<-|Hne].
    + rewrite list_lookup_insert_eq in Hr' by lia.
      injection Hr' as <-. now rewrite length_insert.
    + rewrite list_lookup_insert_ne in Hr' by assumption. eauto.
  - unfold get2. rewrite list_lookup_insert_eq by lia.
    apply list_lookup_insert_eq. lia.
  - intros r' c' Hne. unfold get2.
    destruct (decide (r = r')) as [<-|Hner].
    + rewrite list_lookup_insert_eq, Hrow by lia.
      apply list_lookup_insert_ne. destruct Hne; congruence.
    + now rewrite list_lookup_insert_ne.
Qed.

(** An array of the right shape whose cells are the products is the
    multiplication table. *)
Lemma product_table_unique k arr :
  shape k arr ->
  (forall a b, (a < k)%nat -> (b < k)%nat ->
               get2 arr a b = Some (Z.of_nat a * Z.of_nat b)) ->
  arr = product_table k.
Proof.
  intros [Hlen Hrows] Hcells. apply list_eq. intros r.
  unfold product_table. rewrite list_lookup_fmap.
  destruct (decide (r < k)%nat) as [Hr|Hr].
  - rewrite lookup_seq_lt by assumption. simpl.
    destruct (lookup_lt_is_Some_2 arr r) as [row Hrow]; [lia|].
    rewrite Hrow. f_equal. apply list_eq. intros c.
    rewrite list_lookup_fmap.
    destruct (decide (c < k)%nat) as [Hc|Hc].
    + rewrite lookup_seq_lt by assumption. simpl.
      specialize (Hcells r c Hr Hc). unfold get2 in Hcells.
      now rewrite Hrow in Hcells.
    + rewrite lookup_seq_ge by lia. simpl.
      apply lookup_ge_None_2. rewrite (Hrows r row Hrow). lia.
  - rewrite lookup_seq_ge by lia. simpl.
    apply lookup_ge_None_2. lia.
Qed.

Lemma product_in_int k a b :
  (Z.of_nat k - 1) * (Z.of_nat k - 1) <= INT_MAX ->
  (a < k)%nat -> (b < k)%nat ->
  0 <= Z.of_nat a * Z.of_nat b <= INT_MAX.
Proof. intros Hk Ha Hb. split; nia. Qed.

Lemma fill_ji_cells k arr0 :
  shape k arr0 -> (Z.of_nat k - 1) * (Z.of_nat k - 1) <= INT_MAX ->
  exists arr,
    fill_ji k arr0 = Some arr /\ shape k arr /\
    forall a b, (a < k)%nat -> (b < k)%nat ->
                get2 arr a b = Some (Z.of_nat a * Z.of_nat b).
Proof.
  intros Hsh Hk. unfold fill_ji, for_upto.
  destruct (for_from_inv
              (fun i arr => shape k arr /\
                 forall a b, (a < k)%nat -> (b < i)%nat ->
                             get2 arr a b = Some (Z.of_nat a * Z.of_nat b))
              (fun i arr =>
                 for_from k 0
                   (fun j arr =>
                      match mul_int (Z.of_nat i) (Z.of_nat j) with
                      | Some v => set2 arr j i (wrap_u32 v)
                      | None => None
                      end) arr) k 0%nat arr0)
    as (arr & Harr & Hs & Hc).
  - split; [assumption|]. intros a b _ Hb. lia.
  - intros i arr Hi [Hs Hdone].
    destruct (for_from_inv
                (fun j arr => shape k arr /\
                   (forall a b, (a < k)%nat -> (b < i)%nat ->
                                get2 arr a b = Some (Z.of_nat a * Z.of_nat b)) /\
                   (forall a, (a < j)%nat ->
                              get2 arr a i = Some (Z.of_nat a * Z.of_nat i)))
                (fun j arr =>
                   match mul_int (Z.of_nat i) (Z.of_nat j) with
                   | Some v => set2 arr j i (wrap_u32 v)
                   | None => None
                   end) k 0%nat arr)
      as (arr' & Harr' & Hs' & Hdone' & Hcol).
    + split; [assumption|]. split; [assumption|]. intros a Ha. lia.
    + intros j arr1 Hj (Hs1 & Hd1 & Hc1).
      pose proof (product_in_int k i j Hk ltac:(lia) ltac:(lia)) as Hp.
      rewrite mul_int_small by assumption.
      destruct (set2_inside k arr1 j i (wrap_u32 (Z.of_nat i * Z.of_nat j)) Hs1)
        as (arr2 & -> & Hs2 & Hnew & Hold); [lia | lia |].
      exists arr2. split; [reflexivity|]. split; [assumption|]. split.
      * intros a b Ha Hb. rewrite Hold by lia. now apply Hd1.
      * intros a Ha. destruct (decide (a = j)) as [->|Hne].
        -- rewrite Hnew. f_equal. rewrite wrap_u32_small; [lia|].
           unfold INT_MAX in Hp. lia.
        -- rewrite Hold by lia. apply Hc1. lia.
    + exists arr'. split; [assumption|]. split; [assumption|].
      intros a b Ha Hb. destruct (decide (b = i)) as [->|Hne].
      * apply Hcol. lia.
      * apply Hdone'; lia.
  - exists arr. split; [assumption|]. split; [assumption|].
    intros a b Ha Hb. apply Hc; lia.
Qed.

Lemma fill_ij_cells k arr0 :
  shape k arr0 -> (Z.of_nat k - 1) * (Z.of_nat k - 1) <= INT_MAX ->
  exists arr,
    fill_ij k arr0 = Some arr /\ shape k arr /\
    forall a b, (a < k)%nat -> (b < k)%nat ->
                get2 arr a b = Some (Z.of_nat a * Z.of_nat b).
Proof.
  intros Hsh Hk. unfold fill_ij, for_upto.
  destruct (for_from_inv
              (fun i arr => shape k arr /\
                 forall a b, (a < i)%nat -> (b < k)%nat ->
                             get2 arr a b = Some (Z.of_nat a * Z.of_nat b))
              (fun i arr =>
                 for_from k 0
                   (fun j arr =>
                      match mul_int (Z.of_nat i) (Z.of_nat j) with
                      | Some v => set2 arr i j (wrap_u32 v)
                      | None => None
                      end) arr) k 0%nat arr0)
    as (arr & Harr & Hs & Hc).
  - split; [assumption|]. intros a b Ha _. lia.
  - intros i arr Hi [Hs Hdone].
    destruct (for_from_inv
                (fun j arr => shape k arr /\
                   (forall a b, (a < i)%nat -> (b < k)%nat ->
                                get2 arr a b = Some (Z.of_nat a * Z.of_nat b)) /\
                   (forall b, (b < j)%nat ->
                              get2 arr i b = Some (Z.of_nat i * Z.of_nat b)))
                (fun j arr =>
                   match mul_int (Z.of_nat i) (Z.of_nat j) with
                   | Some v => set2 arr i j (wrap_u32 v)
                   | None => None
                   end) k 0%nat arr)
      as (arr' & Harr' & Hs' & Hdone' & Hrow).
    + split; [assumption|]. split; [assumption|]. intros b Hb. lia.
    + intros j arr1 Hj (Hs1 & Hd1 & Hr1).
      pose proof (product_in_int k i j Hk ltac:(lia) ltac:(lia)) as Hp.
      rewrite mul_int_small by assumption.
      destruct (set2_inside k arr1 i j (wrap_u32 (Z.of_nat i * Z.of_nat j)) Hs1)
        as (arr2 & -> & Hs2 & Hnew & Hold); [lia | lia |].
      exists arr2. split; [reflexivity|]. split; [assumption|]. split.
      * intros a b Ha Hb. rewrite Hold by lia. now apply Hd1.
      * intros b Hb. destruct (decide (b = j)) as [->|Hne].
        -- rewrite Hnew. f_equal. apply wrap_u32_small.
           unfold INT_MAX in Hp. lia.
        -- rewrite Hold by lia. apply Hr1. lia.
    + exists arr'. split; [assumption|]. split; [assumption|].
      intros a b Ha Hb. destruct (decide (a = i)) as [->|Hne].
      * apply Hrow. lia.
      * apply Hdone'; lia.
  - exists arr. split; [assumption|]. split; [assumption|].
    intros a b Ha Hb. apply Hc; lia.
Qed.

(** *** Sums *)

Lemma sum_from_ext count : forall start f g,
  (forall j, (start <= j < start + count)%nat -> f j = g j) ->
  sum_from count start f = sum_from count start g.
Proof.
  induction count as [|count IH]; intros start f g H; simpl; [reflexivity|].
  rewrite H by lia. f_equal. apply IH. intros j Hj. apply H. lia.
Qed.

Lemma sum_from_add count : forall start f g,
  sum_from count start (fun j => f j + g j)
  = sum_from count start f + sum_from count start g.
Proof.
  induction count as [|count IH]; intros start f g; simpl; [reflexivity|].
  rewrite IH. lia.
Qed.

Lemma sum_from_scale count c : forall start f,
  sum_from count start (fun j => c * f j) = c * sum_from count start f.
Proof.
  induction count as [|count IH]; intros start f; simpl; [lia|].
  rewrite IH. lia.
Qed.

(** The two orders of a double sum. *)
Lemma sum_from_exchange n m b (f : nat -> nat -> Z) : forall a,
  sum_from n a (fun i => sum_from m b (fun j => f i j))
  = sum_from m b (fun j => sum_from n a (fun i => f i j)).
Proof.
  induction n as [|n IH]; intros a; simpl.
  - induction m as [|m IHm] in b |- *; simpl; [reflexivity|].
    now rewrite <- IHm.
  - rewrite sum_from_add, IH. reflexivity.
Qed.

Lemma sum_from_id count : forall start,
  2 * sum_from count start Z.of_nat
  = Z.of_nat count * (2 * Z.of_nat start + Z.of_nat count - 1).
Proof.
  induction count as [|count IH]; intros start; simpl sum_from; [lia|].
  rewrite Z.mul_add_distr_l, IH. lia.
Qed.

Lemma triangle_sum k : sum_from k 0 Z.of_nat = triangle k.
Proof.
  unfold triangle. pose proof (sum_from_id k 0) as H.
  apply Z.div_unique_exact; lia.
Qed.

Lemma sum_products k :
  sum_from k 0 (fun i => sum_from k 0 (fun j => Z.of_nat i * Z.of_nat j))
  = triangle k * triangle k.
Proof.
  rewrite (sum_from_ext k 0 _ (fun i => triangle k * Z.of_nat i)).
  - now rewrite sum_from_scale, triangle_sum.
  - intros i _. rewrite sum_from_scale, triangle_sum. lia.
Qed.

(** A loop that adds [F j] in iteration [j], wrapping, adds the sum of the
    [F j], wrapping. *)
Lemma for_from_sum (body : nat -> Z -> option Z) (F : nat -> Z) :
  forall count i s,
    (forall j s, (i <= j < i + count)%nat ->
                 body j (wrap_u32 s) = Some (wrap_u32 (s + F j))) ->
    for_from count i body (wrap_u32 s)
    = Some (wrap_u32 (s + sum_from count i F)).
Proof.
  induction count as [|count IH]; intros i s H; simpl.
  - now rewrite Z.add_0_r.
  - rewrite H by lia. rewrite IH.
    + do 2 f_equal. lia.
    + intros j s' Hj. apply H. lia.
Qed.

Lemma get2_inside k arr a b :
  shape k arr -> (a < k)%nat -> (b < k)%nat -> get2 arr a b = Some (cell arr a b).
Proof.
  intros [Hlen Hrows] Ha Hb. unfold cell, get2.
  destruct (lookup_lt_is_Some_2 arr a) as [row Hrow]; [lia|].
  rewrite Hrow.
  destruct (lookup_lt_is_Some_2 row b) as [x Hx];
    [rewrite (Hrows a row Hrow); lia|].
  now rewrite Hx.
Qed.

Lemma sum_rows_value k arr :
  shape k arr ->
  sum_rows k arr
  = Some (wrap_u32 (sum_from k 0 (fun i => sum_from k 0 (fun j => cell arr i j)))).
Proof.
  intros Hs. unfold sum_rows, for_upto.
  rewrite <- (wrap_u32_small 0) at 1 by lia.
  rewrite (for_from_sum _ (fun i => sum_from k 0 (fun j => cell arr i j))).
  - now rewrite Z.add_0_l.
  - intros i s Hi. apply for_from_sum. intros j s' Hj.
    rewrite (get2_inside k) by (assumption || lia).
    now rewrite wrap_u32_add_l.
Qed.

Lemma sum_cols_value k arr :
  shape k arr ->
  sum_cols k arr
  = Some (wrap_u32 (sum_from k 0 (fun i => sum_from k 0 (fun j => cell arr j i)))).
Proof.
  intros Hs. unfold sum_cols, for_upto.
  rewrite <- (wrap_u32_small 0) at 1 by lia.
  rewrite (for_from_sum _ (fun i => sum_from k 0 (fun j => cell arr j i))).
  - now rewrite Z.add_0_l.
  - intros i s Hi. apply for_from_sum. intros j s' Hj.
    rewrite (get2_inside k) by (assumption || lia).
    now rewrite wrap_u32_add_l.
Qed.

Lemma observe_value n x : observe n (Some x) = Some (replicate n x).
Proof. induction n as [|n IH]; simpl; [reflexivity|]. now rewrite IH. Qed.

Lemma product_table_shape k : shape k (product_table k).
Proof.
  unfold product_table. split.
  - now rewrite length_map, length_seq.
  - intros r row Hr. rewrite list_lookup_fmap in Hr.
    destruct (seq 0 k !! r); [|discriminate]. injection Hr as <-.
    now rewrite length_map, length_seq.
Qed.

Lemma product_table_cell k a b :
  (a < k)%nat -> (b < k)%nat ->
  cell (product_table k) a b = Z.of_nat a * Z.of_nat b.
Proof.
  intros Ha Hb. unfold cell, get2, product_table.
  rewrite list_lookup_fmap, lookup_seq_lt by assumption. simpl.
  rewrite list_lookup_fmap, lookup_seq_lt by assumption. reflexivity.
Qed.

Lemma fill_ji_table k arr0 :
  shape k arr0 -> (Z.of_nat k - 1) * (Z.of_nat k - 1) <= INT_MAX ->
  fill_ji k arr0 = Some (product_table k).
Proof.
  intros Hs Hk. destruct (fill_ji_cells k arr0 Hs Hk) as (arr & -> & Hs' & Hc).
  f_equal. now apply product_table_unique.
Qed.

Lemma fill_ij_table k arr0 :
  shape k arr0 -> (Z.of_nat k - 1) * (Z.of_nat k - 1) <= INT_MAX ->
  fill_ij k arr0 = Some (product_table k).
Proof.
  intros Hs Hk. destruct (fill_ij_cells k arr0 Hs Hk) as (arr & -> & Hs' & Hc).
  f_equal. now apply product_table_unique.
Qed.

Lemma product_table_sum_rows k :
  sum_rows k (product_table k) = Some (wrap_u32 (triangle k * triangle k)).
Proof.
  rewrite sum_rows_value by apply product_table_shape.
  do 2 f_equal. rewrite <- sum_products.
  apply sum_from_ext. intros i Hi. apply sum_from_ext. intros j Hj.
  apply product_table_cell; lia.
Qed.

Lemma sum_rows_cols k arr : shape k arr -> sum_rows k arr = sum_cols k arr.
Proof.
  intros Hs. rewrite sum_rows_value, sum_cols_value by assumption.
  do 2 f_equal. apply sum_from_exchange.
Qed.

Lemma fill_sequence_value k :
  Z.of_nat k <= 2 ^ 32 -> fill_sequence k = Some (map Z.of_nat (seq 0 k)).
Proof.
  intros Hk. unfold fill_sequence, for_upto.
  destruct (for_from_inv (fun i arr => arr = map Z.of_nat (seq 0 i))
              (fun i arr => Some (emplace_back arr (Z.of_nat i))) k 0%nat [])
    as (arr & -> & ->); [reflexivity | | reflexivity].
  intros i arr Hi ->. eexists. split; [reflexivity|].
  rewrite seq_S, map_app. unfold emplace_back. simpl.
  rewrite wrap_u32_small by lia. reflexivity.
Qed.

Lemma sum_sequence_from (f : nat -> Z) n : forall a s,
  foldl (fun sum x => wrap_u32 (sum + x)) (wrap_u32 s) (map f (seq a n))
  = wrap_u32 (s + sum_from n a f).
Proof.
  induction n as [|n IH]; intros a s; simpl.
  - now rewrite Z.add_0_r.
  - rewrite wrap_u32_add_l, IH. f_equal. lia.
Qed.

Lemma sum_sequence_value k :
  sum_sequence (map Z.of_nat (seq 0 k)) = wrap_u32 (triangle k).
Proof.
  unfold sum_sequence. rewrite <- (wrap_u32_small 0) at 1 by lia.
  now rewrite sum_sequence_from, triangle_sum.
Qed.

End CacheFacts.

Module CacheShapes.
Import CacheMisses.

Lemma shape_replicate k x : shape k (replicate k (replicate k x)).
Proof.
  split.
  - apply length_replicate.
  - intros r row Hr. apply lookup_replicate in Hr as [-> _].
    apply length_replicate.
Qed.

Lemma shape_rows k arr :
  length arr = k -> Forall (fun row => length row = k) arr -> shape k arr.
Proof.
  intros Hlen Hrows. split; [assumption|].
  intros r row Hr. rewrite Forall_lookup in Hrows. now apply (Hrows r).
Qed.

End CacheShapes.

(** X6. The fill loops of the four two-dimensional benchmarks, for every
    size [k] whose largest product [(k - 1) * (k - 1)] is an [int] (32 and
    1024 are such): whatever the uninitialised array held, neither loop
    leaves the array or overflows, and both ([arr[j][i] = i * j] and
    [arr[i][j] = i * j]) leave the multiplication table. *)
Theorem array_fill_is_the_multiplication_table (k : nat) (arr0 : list (list Z)) :
  CacheMisses.shape k arr0 ->
  (Z.of_nat k - 1) * (Z.of_nat k - 1) <= INT_MAX ->
  CacheMisses.fill_ji k arr0 = Some (CacheMisses.product_table k) /\
  CacheMisses.fill_ij k arr0 = Some (CacheMisses.product_table k).
Proof.
  intros Hs Hk. split.
  - now apply CacheFacts.fill_ji_table.
  - now apply CacheFacts.fill_ij_table.
Qed.

Lemma array_fill_is_the_multiplication_table_witness :
  CacheMisses.fill_ji 3 [[7; 8; 9]; [1; 2; 3]; [4; 5; 6]]
  = Some [[0; 0; 0]; [0; 1; 2]; [0; 2; 4]] /\
  CacheMisses.fill_ij 3 [[7; 8; 9]; [1; 2; 3]; [4; 5; 6]]
  = Some [[0; 0; 0]; [0; 1; 2]; [0; 2; 4]].
Proof.
  apply (array_fill_is_the_multiplication_table 3
           [[7; 8; 9]; [1; 2; 3]; [4; 5; 6]]).
  - apply CacheShapes.shape_rows; [reflexivity | repeat constructor].
  - unfold INT_MAX. lia.
Defined.

(** X7. On every [k] by [k] array the row-order traversal stays inside the
    array and computes the sum of all cells modulo 2^32, and the
    column-order traversal computes the same value. *)
Theorem row_and_column_order_sum_the_same (k : nat) (arr : list (list Z)) :
  CacheMisses.shape k arr ->
  CacheMisses.sum_rows k arr
  = Some (wrap_u32
            (CacheMisses.sum_from k 0 (fun i =>
               CacheMisses.sum_from k 0 (fun j => CacheMisses.cell arr i j)))) /\
  CacheMisses.sum_cols k arr = CacheMisses.sum_rows k arr.
Proof.
  intros Hs. split.
  - now apply CacheFacts.sum_rows_value.
  - symmetry. now apply CacheFacts.sum_rows_cols.
Qed.

Lemma row_and_column_order_sum_the_same_witness :
  CacheMisses.sum_rows 2 [[1; 2]; [3; 4294967295]] = Some (wrap_u32 4294967301) /\
  CacheMisses.sum_cols 2 [[1; 2]; [3; 4294967295]]
  = CacheMisses.sum_rows 2 [[1; 2]; [3; 4294967295]].
Proof.
  apply (row_and_column_order_sum_the_same 2 [[1; 2]; [3; 4294967295]]).
  apply CacheShapes.shape_rows; [reflexivity | repeat constructor].
Defined.

(** X8. [BM_sequentialArrayAccessSmallerThanL1] and
    [BM_randomArrayAccessSmallerThanL1] hand 246016 (the square of
    0 + 1 + ... + 31) to [DoNotOptimize] in every iteration, whatever the
    array held before it was filled. *)
Theorem smaller_than_L1_benchmarks_hand_over_246016
    (arr0 : list (list Z)) (iterations : nat) :
  CacheMisses.shape 32 arr0 ->
  CacheMisses.BM_sequentialArrayAccessSmallerThanL1 arr0 iterations
  = Some (replicate iterations 246016) /\
  CacheMisses.BM_randomArrayAccessSmallerThanL1 arr0 iterations
  = Some (replicate iterations 246016).
Proof.
  intros Hs.
  unfold CacheMisses.BM_sequentialArrayAccessSmallerThanL1,
    CacheMisses.BM_randomArrayAccessSmallerThanL1.
  rewrite (CacheFacts.fill_ji_table 32 arr0 Hs) by (unfold INT_MAX; lia).
  rewrite <- (CacheFacts.sum_rows_cols 32) by apply CacheFacts.product_table_shape.
  rewrite CacheFacts.product_table_sum_rows, CacheFacts.observe_value.
  rewrite wrap_u32_small by (vm_compute; split; [discriminate | reflexivity]).
  split; reflexivity.
Qed.

Lemma smaller_than_L1_benchmarks_hand_over_246016_witness :
  CacheMisses.BM_sequentialArrayAccessSmallerThanL1
    (replicate 32 (replicate 32 4294967295)) 2
  = Some (replicate 2 246016) /\
  CacheMisses.BM_randomArrayAccessSmallerThanL1
    (replicate 32 (replicate 32 4294967295)) 2
  = Some (replicate 2 246016).
Proof.
  apply (smaller_than_L1_benchmarks_hand_over_246016
           (replicate 32 (replicate 32 4294967295)) 2).
  apply CacheShapes.shape_replicate.
Defined.

(** X9. [BM_sequentialArrayAccessBiggerThanL1] and
    [BM_randomArrayAccessBiggerThanL1] hand 3758358528 to [DoNotOptimize]
    in every iteration.  That is not the sum of the cells: the products
    [i * j] for [i], [j] below 1024 add up to 274341298176, and the
    [std::uint32_t] sum wraps. *)
Theorem bigger_than_L1_benchmarks_hand_over_a_wrapped_sum
    (arr0 : list (list Z)) (iterations : nat) :
  CacheMisses.shape 1024 arr0 ->
  CacheMisses.BM_sequentialArrayAccessBiggerThanL1 arr0 iterations
  = Some (replicate iterations 3758358528) /\
  CacheMisses.BM_randomArrayAccessBiggerThanL1 arr0 iterations
  = Some (replicate iterations 3758358528) /\
  CacheMisses.sum_from 1024 0 (fun i =>
    CacheMisses.sum_from 1024 0 (fun j => Z.of_nat i * Z.of_nat j))
  = 274341298176.
Proof.
  intros Hs.
  unfold CacheMisses.BM_sequentialArrayAccessBiggerThanL1,
    CacheMisses.BM_randomArrayAccessBiggerThanL1.
  rewrite (CacheFacts.fill_ij_table 1024 arr0 Hs) by (unfold INT_MAX; lia).
  rewrite <- (CacheFacts.sum_rows_cols 1024)
    by apply CacheFacts.product_table_shape.
  rewrite CacheFacts.product_table_sum_rows, CacheFacts.observe_value.
  rewrite CacheFacts.sum_products.
  replace (CacheMisses.triangle 1024 * CacheMisses.triangle 1024)
    with (3758358528 + 63 * 2 ^ 32) by (vm_compute; reflexivity).
  replace (wrap_u32 (3758358528 + 63 * 2 ^ 32)) with 3758358528.
  - split; [reflexivity | split; reflexivity].
  - symmetry. rewrite <- (wrap_u32_small 3758358528) at 2 by lia.
    apply wrap_u32_periods.
Qed.

Lemma bigger_than_L1_benchmarks_hand_over_a_wrapped_sum_witness :
  CacheMisses.BM_sequentialArrayAccessBiggerThanL1
    (replicate 1024 (replicate 1024 0)) 1
  = Some (replicate 1 3758358528) /\
  CacheMisses.BM_randomArrayAccessBiggerThanL1
    (replicate 1024 (replicate 1024 0)) 1
  = Some (replicate 1 3758358528) /\
  CacheMisses.sum_from 1024 0 (fun i =>
    CacheMisses.sum_from 1024 0 (fun j => Z.of_nat i * Z.of_nat j))
  = 274341298176.
Proof.
  apply (bigger_than_L1_benchmarks_hand_over_a_wrapped_sum
           (replicate 1024 (replicate 1024 0)) 1).
  apply CacheShapes.shape_replicate.
Defined.

(** X12. [BM_sequentialListAccess] and [BM_sequentialArrayAccess] hand
    523776 (that is 0 + 1 + ... + 1023) to [DoNotOptimize] in every
    iteration. *)
Theorem sequence_benchmarks_hand_over_523776 (iterations : nat) :
  CacheMisses.BM_sequentialListAccess iterations
  = Some (replicate iterations 523776) /\
  CacheMisses.BM_sequentialArrayAccess iterations
  = Some (replicate iterations 523776).
Proof.
  unfold CacheMisses.BM_sequentialListAccess,
    CacheMisses.BM_sequentialArrayAccess.
  rewrite CacheFacts.fill_sequence_value by lia.
  rewrite CacheFacts.sum_sequence_value, CacheFacts.observe_value.
  rewrite wrap_u32_small by (vm_compute; split; [discriminate | reflexivity]).
  split; reflexivity.
Qed.
